(** * go-tdag: the dependency-graph test executor, embedded and verified

  The development follows the two Go packages of the repository:

  - package [tdag]: [TStore] and [TDag] (the graph, its cycle check, the
    dependency-closure collector, the two run loops and the D2 export);
  - package [dag]: the older generic [Dag[T]] with its own [Store], the
    same run loops without lifecycle hooks and the same D2 export.

  Maps of Go are finite maps of stdpp; slices are lists; a method with a
  pointer receiver takes the receiver's value and returns the new one.  A
  run is described by the calls it makes; what the callbacks do to the run
  (return, or leave by [runtime.Goexit]) is a parameter of it. *)

From Stdlib Require Import ZArith Lia.
From stdpp Require Import gmap strings list.

Set Default Proof Using "Type".
Open Scope Z_scope.
Open Scope string_scope.
Open Scope list_scope.

(** ** Values and errors *)

(** A few representatives of Go's [interface{}]: the nil interface and
  values of three dynamic types, falsy ones included. *)
Inductive GoValue : Type :=
| VNil
| VBool (b : bool)
| VInt (z : Z)
| VString (s : string).

(** The three [fmt.Errorf] sites of the repository. *)
Inductive GoError : Type :=
| ErrKeyNotFound (key : string)
| ErrNodeDoesNotExist (id : string)
| ErrWouldCreateCycle (from to : string).

(** The text [err.Error()] returns. *)
Definition errorString (e : GoError) : string :=
  match e with
  | ErrKeyNotFound key => "key " ++ key ++ " not found"
  | ErrNodeDoesNotExist id => "node " ++ id ++ " does not exist"
  | ErrWouldCreateCycle from to =>
      "adding edge from " ++ from ++ " to " ++ to ++ " would create a cycle"
  end.

(** ** package tdag: the store *)

Module Store.

(** [type TStore struct { items map[string]interface{}; mu sync.Mutex }].
    Both methods lock [mu] on entry and release it on return, so each call
    is one atomic step on [items]; the mutex itself carries no data. *)
Record TStore : Type := mkTStore { items : gmap string GoValue }.

(** [func NewStore() *TStore] *)
Definition NewStore : TStore := mkTStore ∅.

(** [func (s *TStore) Set(key string, value interface{})]: no result, the
    receiver is updated in place. *)
Definition Set_ (s : TStore) (key : string) (value : GoValue) : TStore :=
  mkTStore (<[key := value]> (items s)).

(** [func (s *TStore) Get(key string) (interface{}, error)]:
    [value, ok := s.items[key]]; a miss returns [(nil, error)]. *)
Definition Get (s : TStore) (key : string) : GoValue * option GoError :=
  match items s !! key with
  | Some value => (value, None)
  | None => (VNil, Some (ErrKeyNotFound key))
  end.

(** A history of [Set] calls applied in order. *)
Definition runSets (s : TStore) (writes : list (string * GoValue)) : TStore :=
  foldl (fun s kv => Set_ s kv.1 kv.2) s writes.

(** The value of the last [Set] on [key] in a history, if any. *)
Fixpoint lastWrite (key : string) (writes : list (string * GoValue))
  : option GoValue :=
  match writes with
  | [] => None
  | (k, v) :: rest =>
      match lastWrite key rest with
      | Some v' => Some v'
      | None => if decide (k = key) then Some v else None
      end
  end.

End Store.

(** ** package dag: the store of the generic graph *)

Module DagStore.

(** [type Store struct { items map[string]interface{} }] *)
Record Store : Type := mkStore { items : gmap string GoValue }.

Definition NewStore : Store := mkStore ∅.

(** [func (s *Store) Set(key string, value interface{})] *)
Definition Set_ (s : Store) (key : string) (value : GoValue) : Store :=
  mkStore (<[key := value]> (items s)).

(** [func (s *Store) Get(key string) interface{}]: a plain index
    expression, which yields the zero value [nil] on a miss. *)
Definition Get (s : Store) (key : string) : GoValue :=
  default VNil (items s !! key).

End DagStore.

(** ** Nodes and edges

    [TNode]/[TEdge] of package tdag and [Node]/[Edge] of package dag have the
    same two fields each.  No function of either package inspects a callback:
    it is stored, and called by the run loops.  The embedding is therefore
    parametric in the callback type [F]. *)

Record TNode (F : Type) : Type := mkTNode { ID : string; Fn : F }.
Arguments mkTNode {F} _ _.
Arguments ID {F} _.
Arguments Fn {F} _.

(** An edge holds two node pointers, never nil where the package builds it. *)
Record TEdge (F : Type) : Type := mkTEdge { Left : TNode F; Right : TNode F }.
Arguments mkTEdge {F} _ _.
Arguments Left {F} _.
Arguments Right {F} _.

(** [testing.T] as far as the callbacks of the examples use it. *)
Record TestingT : Type := mkT { logs : list string; failed : bool }.

(** [type TestContext struct { Store *TStore; T *testing.T }] *)
Record TestContext : Type :=
  mkTestContext { CtxStore : Store.TStore; CtxT : TestingT }.

(** [type TestFn func(ctx *TestContext)]: a callback updates the context it
    is handed. *)
Definition TestFn : Type := TestContext -> TestContext.

(** ** The cycle check and the closure collector (shared by both packages)

    [visited] and [collected] are Go maps [map[string]bool] that are only
    ever indexed ([m[k]], [m[k] = true], [m[k] = false]); such a map is the
    set of the keys it holds at [true]. *)

Section Traversals.
Context {F : Type}.

(** The [for _, edge := range d.Edges] loop of [detectCycle]; [rec] is the
    recursive call.  It stops at the first call that returns [true]. *)
Fixpoint detectCycleEdges
    (rec : TNode F -> gset string -> option (bool * gset string))
    (startID : string) (es : list (TEdge F)) (visited : gset string)
  : option (bool * gset string) :=
  match es with
  | [] => Some (false, visited)
  | edge :: es' =>
      if decide (ID (Left edge) = startID ∧ ID (Right edge) ∉ visited) then
        match rec (Right edge) visited with
        | None => None
        | Some (true, visited') => Some (true, visited')
        | Some (false, visited') => detectCycleEdges rec startID es' visited'
        end
      else detectCycleEdges rec startID es' visited
  end.

(** [func (d *TDag) detectCycle(start, target *TNode, visited map[string]bool) bool].
    The map is shared by all calls, so it is threaded through; [None] is
    the recursion budget running out, which [detectCycle_spec] excludes for
    the budget [createsCycle] hands over. *)
Fixpoint detectCycle (fuel : nat) (edges : list (TEdge F))
    (start target : option (TNode F)) (visited : gset string)
  : option (bool * gset string) :=
  match fuel with
  | O => None
  | S fuel' =>
      match start, target with
      | Some s, Some t =>
          if decide (ID s = ID t) then Some (true, visited)
          else
            match detectCycleEdges
                    (fun nxt v => detectCycle fuel' edges (Some nxt) target v)
                    (ID s) edges ({[ID s]} ∪ visited) with
            | Some (false, visited') => Some (false, visited' ∖ {[ID s]})
            | r => r
            end
      | _, _ => Some (false, visited)
      end
  end.

(** [func (d *TDag) createsCycle(from, to *TNode) bool], with a fresh map. *)
Definition createsCycle (edges : list (TEdge F)) (from to : option (TNode F))
  : option bool :=
  fst <$> detectCycle (S (length edges)) edges from to ∅.

(** The loop of [collectDependencies]; [rec] is the recursive call. *)
Fixpoint collectEdges
    (rec : string -> gset string -> option (gset string))
    (nodeID : string) (es : list (TEdge F)) (collected : gset string)
  : option (gset string) :=
  match es with
  | [] => Some collected
  | edge :: es' =>
      if decide (ID (Right edge) = nodeID ∧ ID (Left edge) ∉ collected) then
        match rec (ID (Left edge)) collected with
        | None => None
        | Some collected' => collectEdges rec nodeID es' collected'
        end
      else collectEdges rec nodeID es' collected
  end.

(** [func (d *TDag) collectDependencies(nodeID string, collected map[string]bool)] *)
Fixpoint collectDependencies (fuel : nat) (edges : list (TEdge F))
    (nodeID : string) (collected : gset string) : option (gset string) :=
  match fuel with
  | O => None
  | S fuel' =>
      collectEdges (fun id c => collectDependencies fuel' edges id c)
        nodeID edges ({[nodeID]} ∪ collected)
  end.

End Traversals.

(** ** Graph construction (shared by both packages) *)

Section Construction.
Context {F : Type}.

(** [findNodeByID]: the first node of the slice with that identifier, or
    nil. *)
Fixpoint findNode (nodes : list (TNode F)) (id : string) : option (TNode F) :=
  match nodes with
  | [] => None
  | node :: rest => if decide (ID node = id) then Some node else findNode rest id
  end.

(** [createsCycle] as a boolean: [createsCycle_total] shows that the budget
    handed to [detectCycle] never runs out, so [false] below is never the
    answer of an exhausted search. *)
Definition createsCycleB (edges : list (TEdge F)) (from to : TNode F) : bool :=
  default false (createsCycle edges (Some from) (Some to)).

(** The [for _, targetID := range to] loop of [AddEdge] on the edge slice
    [edges] of the graph; [created] is the local [edges] result.  An error
    returns [nil] for the result slice and leaves the graph as it is then. *)
Fixpoint addEdgeTargets (nodes : list (TNode F)) (edges : list (TEdge F))
    (from : string) (fromNode : TNode F) (to : list string)
    (created : list (TEdge F))
  : list (TEdge F) * (list (TEdge F) * option GoError) :=
  match to with
  | [] => (edges, (created, None))
  | targetID :: to' =>
      match findNode nodes targetID with
      | None => (edges, ([], Some (ErrNodeDoesNotExist targetID)))
      | Some targetNode =>
          if createsCycleB edges fromNode targetNode
          then (edges, ([], Some (ErrWouldCreateCycle from targetID)))
          else
            let edge := mkTEdge fromNode targetNode in
            addEdgeTargets nodes (edges ++ [edge]) from fromNode to'
              (created ++ [edge])
      end
  end.

(** The body of [AddEdge]: the new edge slice and the two results. *)
Definition addEdges (nodes : list (TNode F)) (edges : list (TEdge F))
    (from : string) (to : list string)
  : list (TEdge F) * (list (TEdge F) * option GoError) :=
  match findNode nodes from with
  | None => (edges, ([], Some (ErrNodeDoesNotExist from)))
  | Some fromNode => addEdgeTargets nodes edges from fromNode to []
  end.

End Construction.

(** ** The run loops (shared by both packages)

    [RunTests] and [RunTo] are the same loop; [RunTo] adds the guard
    [requiredNodes[...]] in four places.  [required = None] is the loop of
    [RunTests], [required = Some r] the loop of [RunTo] with
    [requiredNodes = r]. *)

(** What a run calls. *)
Inductive Call (F : Type) : Type :=
| CallSetup (fn : F)
| CallBeforeEach (fn : F)
| CallNode (n : TNode F)
| CallAfterEach (fn : F)
| CallTearDown (fn : F).
Arguments CallSetup {F} _.
Arguments CallBeforeEach {F} _.
Arguments CallNode {F} _.
Arguments CallAfterEach {F} _.
Arguments CallTearDown {F} _.

(** A run is a sequence of steps of the calling goroutine: a call it makes
    itself, or a wave, where it starts one goroutine per available node and
    blocks in [wg.Wait()] until all have ended.  A wave lists, for each of
    its goroutines, the node it was started for and the calls it made; the
    goroutines of one wave are concurrent and their list order (that of
    [available]) says nothing about time. *)
Inductive Step (F : Type) : Type :=
| Seq (c : Call F)
| Wave (goroutines : list (TNode F * list (Call F))).
Arguments Seq {F} _.
Arguments Wave {F} _.

(** The two [t.Fatalf] sites. *)
Inductive FatalMsg : Type :=
| FatalNodeMissing (id : string)
| FatalCycle (remaining : list string).

(** How a run ends: it returns; or [t.Fatalf] ends the calling goroutine
    (nothing after it runs); or a setup or teardown function, which the
    calling goroutine calls itself, leaves by [runtime.Goexit] and ends the
    calling goroutine with it; or the budget of passes handed to the model
    ran out while the loop was still going.  A run that never ends is one
    that gives [OutOfFuel] for every budget. *)
Inductive Outcome (F : Type) : Type :=
| Finished (trace : list (Step F))
| Fatal (msg : FatalMsg) (trace : list (Step F))
| Exited (trace : list (Step F))
| OutOfFuel (trace : list (Step F)).
Arguments Finished {F} _.
Arguments Fatal {F} _ _.
Arguments Exited {F} _.
Arguments OutOfFuel {F} _.

(** How the closure that a goroutine of a wave hands to [t.Run] ends.  The
    closure calls the before-each functions, the callback of the node and
    the after-each functions, and then runs the section under
    [completedMux]; none of this is deferred.  A call that leaves by
    [runtime.Goexit] ([t.FailNow], [t.Fatal], [t.SkipNow], testify's
    [require]) ends the closure there: the calls after it and the section
    under [completedMux] do not run, while the deferred [wg.Done()] does.
    [t.Run] does not run the closure at all for a name that the [-run]
    filter of [go test] leaves out.  (A call that panics brings the test
    binary down; the runs described are those in which none does.)

    [LeavesAt k]: the calls before the one of index [k] return and that
    one leaves; a closure with fewer calls leaves in its last one. *)
Inductive End : Type :=
| Completes
| Skipped
| LeavesAt (k : nat).

(** The closure reached the section under [completedMux]. *)
Definition completes (e : End) : bool :=
  match e with
  | Completes => true
  | Skipped | LeavesAt _ => false
  end.

(** The calls a closure makes, of the calls it would make if all
    returned. *)
Definition callsMade {X : Type} (e : End) (calls : list X) : list X :=
  match e with
  | Completes => calls
  | Skipped => []
  | LeavesAt k => take (S k) calls
  end.

(** What the callbacks of one run do, as far as the loop can tell: which
    setup function leaves, if one does; how the closure of the goroutine in
    each position of [available] ends, pass by pass; which teardown function
    leaves, if one does.  An index past the last function stands for the
    last one.  What a callback does may depend on the shared context and on
    the interleaving; whatever it is, a run has one such description, and
    the properties below that name no particular one hold for all. *)
Record Behaviour : Type := mkBehaviour {
  setupLeaves : option nat;
  closureEnds : nat -> nat -> End;
  tearDownLeaves : option nat
}.

(** Every call returns and no closure is skipped. *)
Definition returning : Behaviour :=
  mkBehaviour None (fun _ _ => Completes) None.

(** The first call of every closure leaves; the setup and teardown
    functions return. *)
Definition leavingFirst : Behaviour :=
  mkBehaviour None (fun _ _ => LeavesAt 0) None.

(** The scheduler's three maps.  [completed] only ever receives [true]. *)
Record RunState (F : Type) : Type := mkRunState {
  inDegree : gmap string Z;
  outEdges : gmap string (list (TNode F));
  completed : gset string
}.
Arguments mkRunState {F} _ _ _.
Arguments inDegree {F} _.
Arguments outEdges {F} _.
Arguments completed {F} _.

(** [m[k]] on a [map[string]int]: zero on a miss.  A counter is
    incremented at most [len(d.Edges)] times and decremented at most
    [len(d.Nodes) * len(d.Edges)] times; no graph that fits in memory
    brings it near the bounds of a 64-bit [int], so [Z] is exact. *)
Definition getZ (m : gmap string Z) (k : string) : Z := default 0 (m !! k).

(** [m[k]] on a [map[string][]*TNode]: the nil slice on a miss. *)
Definition getL {F : Type} (m : gmap string (list (TNode F))) (k : string)
  : list (TNode F) := default [] (m !! k).

Inductive LoopEnd : Type :=
| LoopExit
| LoopFatal (remaining : list string)
| LoopNoFuel.

Section Scheduler.
Context {F : Type}.

(** [requiredNodes[id]], or no guard at all in [RunTests]. *)
Definition isRequired (required : option (gset string)) (id : string) : Prop :=
  match required with
  | None => True
  | Some r => id ∈ r
  end.

#[global] Instance isRequired_dec required id : Decision (isRequired required id).
Proof. destruct required; simpl; apply _. Defined.

(** [for _, node := range d.Nodes { inDegree[node.ID] = 0 }] *)
Definition initInDegree (required : option (gset string))
    (nodes : list (TNode F)) : gmap string Z :=
  foldl (fun m node =>
           if decide (isRequired required (ID node))
           then <[ID node := 0]> m else m) ∅ nodes.

(** One iteration of the adjacency loop:
    [inDegree[edge.Right.ID]++] and
    [outEdges[edge.Left.ID] = append(outEdges[edge.Left.ID], edge.Right)]. *)
Definition bookEdge (required : option (gset string))
    (st : RunState F) (edge : TEdge F) : RunState F :=
  if decide (isRequired required (ID (Left edge))
             ∧ isRequired required (ID (Right edge)))
  then mkRunState
         (<[ID (Right edge) := getZ (inDegree st) (ID (Right edge)) + 1]>
            (inDegree st))
         (<[ID (Left edge) := getL (outEdges st) (ID (Left edge)) ++ [Right edge]]>
            (outEdges st))
         (completed st)
  else st.

(** The state the loop starts from. *)
Definition initState (required : option (gset string))
    (nodes : list (TNode F)) (edges : list (TEdge F)) : RunState F :=
  foldl (bookEdge required)
    (mkRunState (initInDegree required nodes) ∅ ∅) edges.

(** The scan for [available]: required, not completed, in-degree zero. *)
Definition availableNodes (required : option (gset string))
    (nodes : list (TNode F)) (st : RunState F) : list (TNode F) :=
  filter (fun node => isRequired required (ID node)
                      ∧ (ID node ∉ completed st)
                      ∧ (getZ (inDegree st) (ID node) = 0)) nodes.

(** The scan for [remaining]: over [d.Nodes] in [RunTests], over the keys
    of [requiredNodes] in [RunTo] (Go leaves that order open; [elements]
    fixes one). *)
Definition remainingIDs (required : option (gset string))
    (nodes : list (TNode F)) (st : RunState F) : list string :=
  match required with
  | None => filter (fun id => id ∉ completed st) (ID <$> nodes)
  | Some r => filter (fun id => id ∉ completed st) (elements r)
  end.

(** [for _, dependent := range outEdges[n.ID] { inDegree[dependent.ID]-- }] *)
Definition decrementAll (m : gmap string Z) (dependents : list (TNode F))
  : gmap string Z :=
  foldl (fun m dependent => <[ID dependent := getZ m (ID dependent) - 1]> m)
    m dependents.

(** The section a goroutine runs under [completedMux] once the calls of
    its closure have returned.  Two such sections commute, so the state
    after a wave does not depend on the order the goroutines took the lock
    in. *)
Definition finishNode (st : RunState F) (n : TNode F) : RunState F :=
  mkRunState
    (decrementAll (inDegree st) (getL (outEdges st) (ID n)))
    (outEdges st)
    ({[ID n]} ∪ completed st).

(** The goroutines a pass starts: one per available node, each with the
    end of its closure. *)
Definition startWave (ends : nat -> nat -> End) (pass : nat)
    (available : list (TNode F)) : list (TNode F * End) :=
  imap (fun slot node => (node, ends pass slot)) available.

(** The nodes of a wave whose closure reached the section under
    [completedMux]. *)
Definition finished (wave : list (TNode F * End)) : list (TNode F) :=
  (filter (fun g => completes g.2 = true) wave).*1.

(** The [for { ... }] loop: the goroutines of each wave, in order, and how
    the loop ended.  Only the nodes whose closure reached the bookkeeping
    are marked completed; the others are found available again by the next
    scan.  [pass] counts the passes made so far. *)
Fixpoint runLoop (ends : nat -> nat -> End) (fuel pass : nat)
    (required : option (gset string))
    (nodes : list (TNode F)) (st : RunState F)
  : LoopEnd * list (list (TNode F * End)) :=
  match fuel with
  | O => (LoopNoFuel, [])
  | S fuel' =>
      match availableNodes required nodes st with
      | [] =>
          match remainingIDs required nodes st with
          | [] => (LoopExit, [])
          | remaining => (LoopFatal remaining, [])
          end
      | available =>
          let wave := startWave ends pass available in
          let '(e, waves) :=
            runLoop ends fuel' (S pass) required nodes
              (foldl finishNode st (finished wave)) in
          (e, wave :: waves)
      end
  end.

(** The calls of the closure of node [n], in order, when all return. *)
Definition closure (beforeEach afterEach : list F) (n : TNode F)
  : list (Call F) :=
  (CallBeforeEach <$> beforeEach)
    ++ (CallNode n :: (CallAfterEach <$> afterEach)).

(** The goroutine started for a node: the node and the calls it made. *)
Definition goroutine (beforeEach afterEach : list F) (g : TNode F * End)
  : TNode F * list (Call F) :=
  (g.1, callsMade g.2 (closure beforeEach afterEach g.1)).

Definition wavesTrace (beforeEach afterEach : list F)
    (waves : list (list (TNode F * End))) : list (Step F) :=
  (fun wave => Wave (goroutine beforeEach afterEach <$> wave)) <$> waves.

(** A loop of the calling goroutine over a list of hooks
    ([for _, fn := range d.SetupFns { fn(d.Ctx) }]): the calls made, and
    whether one of them left. *)
Definition hookCalls (mk : F -> Call F) (fns : list F) (leaves : option nat)
  : list (Step F) :=
  Seq ∘ mk <$> match leaves with
               | Some i => take (S i) fns
               | None => fns
               end.

Definition hookLeft (fns : list F) (leaves : option nat) : bool :=
  match leaves, fns with
  | Some _, _ :: _ => true
  | _, _ => false
  end.

(** Reading a trace: [proj] picks what to keep of each call; the calls of
    a wave are read goroutine by goroutine. *)
Definition stepCalls {X : Type} (proj : Call F -> list X) (s : Step F)
  : list X :=
  match s with
  | Seq c => proj c
  | Wave gs => gs ≫= (fun g => g.2 ≫= proj)
  end.

Definition traceCalls {X : Type} (proj : Call F -> list X)
    (trace : list (Step F)) : list X :=
  trace ≫= stepCalls proj.

Definition callNodes (c : Call F) : list (TNode F) :=
  match c with CallNode n => [n] | _ => [] end.

Definition callSetups (c : Call F) : list F :=
  match c with CallSetup fn => [fn] | _ => [] end.

Definition callTearDowns (c : Call F) : list F :=
  match c with CallTearDown fn => [fn] | _ => [] end.

(** The nodes whose callback a trace calls, wave by wave. *)
Definition stepNodes (s : Step F) : list (TNode F) := stepCalls callNodes s.

Definition traceNodes (trace : list (Step F)) : list (TNode F) :=
  traceCalls callNodes trace.

(** The setup functions a trace calls, in order, wherever they stand. *)
Definition setupCalls (trace : list (Step F)) : list F :=
  traceCalls callSetups trace.

(** The teardown functions a trace calls, in order, wherever they stand. *)
Definition tearDownCalls (trace : list (Step F)) : list F :=
  traceCalls callTearDowns trace.

(** The waves of a trace: the nodes each wave started a goroutine for. *)
Definition traceWaves (trace : list (Step F)) : list (list (TNode F)) :=
  omap (fun s => match s with Wave gs => Some (gs.*1) | Seq _ => None end)
    trace.

End Scheduler.

(** ** package tdag: the graph *)

Module Tdag.
Section Methods.
Context {F : Type}.

(** [type TDag struct] *)
Record TDag : Type := mkTDag {
  Nodes : list (TNode F);
  Edges : list (TEdge F);
  Ctx : TestContext;
  SetupFns : list F;
  TearDownFns : list F;
  BeforeEachFns : list F;
  AfterEachFns : list F
}.

(** [func NewTDag(t *testing.T) *TDag] *)
Definition NewTDag (t : TestingT) : TDag :=
  mkTDag [] [] (mkTestContext Store.NewStore t) [] [] [] [].

(** [func (d *TDag) AddNode(id string, fn TestFn) *TNode] *)
Definition AddNode (d : TDag) (id : string) (fn : F) : TDag * TNode F :=
  let node := mkTNode id fn in
  (mkTDag (Nodes d ++ [node]) (Edges d) (Ctx d) (SetupFns d) (TearDownFns d)
     (BeforeEachFns d) (AfterEachFns d), node).

(** [func (d *TDag) findNodeByID(id string) *TNode] *)
Definition findNodeByID (d : TDag) (id : string) : option (TNode F) :=
  findNode (Nodes d) id.

(** [func (d *TDag) AddEdge(from string, to ...string) ([]*TEdge, error)] *)
Definition AddEdge (d : TDag) (from : string) (to : list string)
  : TDag * (list (TEdge F) * option GoError) :=
  let '(edges, result) := addEdges (Nodes d) (Edges d) from to in
  (mkTDag (Nodes d) edges (Ctx d) (SetupFns d) (TearDownFns d)
     (BeforeEachFns d) (AfterEachFns d), result).

(** [func (d *TDag) Setup(fn func(ctx *TestContext))] *)
Definition Setup (d : TDag) (fn : F) : TDag :=
  mkTDag (Nodes d) (Edges d) (Ctx d) (SetupFns d ++ [fn]) (TearDownFns d)
    (BeforeEachFns d) (AfterEachFns d).

(** [func (d *TDag) TearDown(fn func(ctx *TestContext))] *)
Definition TearDown (d : TDag) (fn : F) : TDag :=
  mkTDag (Nodes d) (Edges d) (Ctx d) (SetupFns d) (TearDownFns d ++ [fn])
    (BeforeEachFns d) (AfterEachFns d).

(** [func (d *TDag) BeforeEach(fn func(ctx *TestContext))] *)
Definition BeforeEach (d : TDag) (fn : F) : TDag :=
  mkTDag (Nodes d) (Edges d) (Ctx d) (SetupFns d) (TearDownFns d)
    (BeforeEachFns d ++ [fn]) (AfterEachFns d).

(** [func (d *TDag) AfterEach(fn func(ctx *TestContext))] *)
Definition AfterEach (d : TDag) (fn : F) : TDag :=
  mkTDag (Nodes d) (Edges d) (Ctx d) (SetupFns d) (TearDownFns d)
    (BeforeEachFns d) (AfterEachFns d ++ [fn]).

(** The steps of the waves of a run of [d]. *)
Definition waveSteps (d : TDag) (waves : list (list (TNode F * End)))
  : list (Step F) :=
  wavesTrace (BeforeEachFns d) (AfterEachFns d) waves.

(** [func (d *TDag) RunTests(t *testing.T)]: the maps, the loop, then the
    teardown functions.  The function has no loop over [d.SetupFns].
    [fuel] bounds the passes of the loop and [b] says what the callbacks
    do. *)
Definition RunTests (fuel : nat) (b : Behaviour) (d : TDag) : Outcome F :=
  let st := initState None (Nodes d) (Edges d) in
  match runLoop (closureEnds b) fuel 0 None (Nodes d) st with
  | (LoopExit, waves) =>
      let trace :=
        waveSteps d waves
          ++ hookCalls CallTearDown (TearDownFns d) (tearDownLeaves b) in
      if hookLeft (TearDownFns d) (tearDownLeaves b)
      then Exited trace else Finished trace
  | (LoopFatal remaining, waves) =>
      Fatal (FatalCycle remaining) (waveSteps d waves)
  | (LoopNoFuel, waves) => OutOfFuel (waveSteps d waves)
  end.

(** [func (d *TDag) RunTo(id string, t *testing.T)]: the target check, the
    closure, the maps, the setup functions, the loop, the teardown
    functions. *)
Definition RunTo (fuel : nat) (b : Behaviour) (d : TDag) (id : string)
  : Outcome F :=
  match findNodeByID d id with
  | None => Fatal (FatalNodeMissing id) []
  | Some targetNode =>
      match collectDependencies (S (length (Edges d))) (Edges d) id ∅ with
      | None => OutOfFuel []
      | Some requiredNodes =>
          let st := initState (Some requiredNodes) (Nodes d) (Edges d) in
          let setup := hookCalls CallSetup (SetupFns d) (setupLeaves b) in
          if hookLeft (SetupFns d) (setupLeaves b) then Exited setup
          else
            match runLoop (closureEnds b) fuel 0 (Some requiredNodes)
                    (Nodes d) st with
            | (LoopExit, waves) =>
                let trace :=
                  setup ++ waveSteps d waves
                    ++ hookCalls CallTearDown (TearDownFns d)
                         (tearDownLeaves b) in
                if hookLeft (TearDownFns d) (tearDownLeaves b)
                then Exited trace else Finished trace
            | (LoopFatal remaining, waves) =>
                Fatal (FatalCycle remaining) (setup ++ waveSteps d waves)
            | (LoopNoFuel, waves) => OutOfFuel (setup ++ waveSteps d waves)
            end
      end
  end.

End Methods.
Arguments TDag : clear implicits.
Arguments mkTDag {F} _ _ _ _ _ _ _.
End Tdag.

(** ** package dag: the generic graph *)

Module Dag.
Section Methods.
Context {C F : Type}.

(** [type Dag[T any] struct]; [C] is the type parameter [T], [F] stands
    for [func(t *testing.T)]. *)
Record Dag : Type := mkDag {
  Nodes : list (TNode F);
  Edges : list (TEdge F);
  Context_ : C;
  Store : DagStore.Store
}.

(** [func (d *Dag[T]) AddNode(id string, fn func(t *testing.T)) *Node] *)
Definition AddNode (d : Dag) (id : string) (fn : F) : Dag * TNode F :=
  let node := mkTNode id fn in
  (mkDag (Nodes d ++ [node]) (Edges d) (Context_ d) (Store d), node).

(** [func (d *Dag[T]) AddEdge(from string, to ...string) ([]*Edge, error)] *)
Definition AddEdge (d : Dag) (from : string) (to : list string)
  : Dag * (list (TEdge F) * option GoError) :=
  let '(edges, result) := addEdges (Nodes d) (Edges d) from to in
  (mkDag (Nodes d) edges (Context_ d) (Store d), result).

(** [func (d *Dag[T]) RunTests(t *testing.T)]: no hooks of any kind; the
    closure of a goroutine calls the callback of its node and runs the
    section under [completedMux].  [ends] says how the closure in each
    position of each pass ends. *)
Definition RunTests (fuel : nat) (ends : nat -> nat -> End) (d : Dag)
  : Outcome F :=
  let st := initState None (Nodes d) (Edges d) in
  match runLoop ends fuel 0 None (Nodes d) st with
  | (LoopExit, waves) => Finished (wavesTrace [] [] waves)
  | (LoopFatal remaining, waves) =>
      Fatal (FatalCycle remaining) (wavesTrace [] [] waves)
  | (LoopNoFuel, waves) => OutOfFuel (wavesTrace [] [] waves)
  end.

(** [func (d *Dag[T]) RunTo(id string, t *testing.T)] *)
Definition RunTo (fuel : nat) (ends : nat -> nat -> End) (d : Dag)
    (id : string) : Outcome F :=
  match findNode (Nodes d) id with
  | None => Fatal (FatalNodeMissing id) []
  | Some targetNode =>
      match collectDependencies (S (length (Edges d))) (Edges d) id ∅ with
      | None => OutOfFuel []
      | Some requiredNodes =>
          let st := initState (Some requiredNodes) (Nodes d) (Edges d) in
          match runLoop ends fuel 0 (Some requiredNodes) (Nodes d) st with
          | (LoopExit, waves) => Finished (wavesTrace [] [] waves)
          | (LoopFatal remaining, waves) =>
              Fatal (FatalCycle remaining) (wavesTrace [] [] waves)
          | (LoopNoFuel, waves) => OutOfFuel (wavesTrace [] [] waves)
          end
      end
  end.

End Methods.
Arguments Dag : clear implicits.
Arguments mkDag {C F} _ _ _ _.
End Dag.

(** ** Specification vocabulary *)

Section Specification.
Context {F : Type}.

(** [a -> b] is an edge of the graph, by identifier. *)
Definition edgeRel (edges : list (TEdge F)) (a b : string) : Prop :=
  ∃ e, e ∈ edges ∧ ID (Left e) = a ∧ ID (Right e) = b.

(** [b] is reachable from [a] along zero or more edges. *)
Definition reaches (edges : list (TEdge F)) (a b : string) : Prop :=
  rtc (edgeRel edges) a b.

(** No identifier reaches itself along one or more edges. *)
Definition acyclic (edges : list (TEdge F)) : Prop :=
  ∀ a, ¬ tc (edgeRel edges) a a.

(** The identifier belongs to a node of the slice. *)
Definition registered (nodes : list (TNode F)) (id : string) : Prop :=
  id ∈ ID <$> nodes.

#[global] Instance registered_dec nodes id : Decision (registered nodes id).
Proof. unfold registered. apply _. Defined.

(** No two nodes of the slice bear the same identifier. *)
Definition uniqueIDs (nodes : list (TNode F)) : Prop :=
  NoDup (ID <$> nodes).

(** Both ends of every edge are identifiers of registered nodes. *)
Definition edgesRegistered (nodes : list (TNode F)) (edges : list (TEdge F))
  : Prop :=
  ∀ e, e ∈ edges →
       registered nodes (ID (Left e)) ∧ registered nodes (ID (Right e)).

(** Every node of every wave has all its dependencies among the nodes that
    completed in earlier waves ([done] lists those before the first). *)
Fixpoint wavesOrdered (edges : list (TEdge F)) (done : list string)
    (waves : list (list (TNode F))) : Prop :=
  match waves with
  | [] => True
  | wave :: rest =>
      (∀ n e, n ∈ wave → e ∈ edges → ID (Right e) = ID n →
              ID (Left e) ∈ done)
      ∧ wavesOrdered edges (done ++ (ID <$> wave)) rest
  end.

(** Every call of the run returns and [t.Run] skips no closure. *)
Definition allReturn (b : Behaviour) : Prop :=
  setupLeaves b = None
  ∧ tearDownLeaves b = None
  ∧ ∀ pass slot, closureEnds b pass slot = Completes.

(** The first-registered node bearing [id] sits at index [i]. *)
Definition firstAt (nodes : list (TNode F)) (id : string) (i : nat)
    (n : TNode F) : Prop :=
  nodes !! i = Some n ∧ ID n = id
  ∧ ∀ j m, (j < i)%nat → nodes !! j = Some m → ID m ≠ id.

(** Every edge joins the first-registered nodes of its two identifiers. *)
Definition edgesPointFirst (nodes : list (TNode F)) (edges : list (TEdge F))
  : Prop :=
  ∀ e, e ∈ edges →
       (∃ i, firstAt nodes (ID (Left e)) i (Left e))
       ∧ (∃ j, firstAt nodes (ID (Right e)) j (Right e)).

End Specification.

(** ** Building graphs through the API *)

Inductive Op (F : Type) : Type :=
| OpAddNode (id : string) (fn : F)
| OpAddEdge (from : string) (to : list string)
| OpSetup (fn : F)
| OpTearDown (fn : F)
| OpBeforeEach (fn : F)
| OpAfterEach (fn : F).
Arguments OpAddNode {F} _ _.
Arguments OpAddEdge {F} _ _.
Arguments OpSetup {F} _.
Arguments OpTearDown {F} _.
Arguments OpBeforeEach {F} _.
Arguments OpAfterEach {F} _.

(** One call on the graph; results other than the graph are dropped, as a
    caller that ignores them would. *)
Definition applyOp {F : Type} (d : Tdag.TDag F) (op : Op F) : Tdag.TDag F :=
  match op with
  | OpAddNode id fn => (Tdag.AddNode d id fn).1
  | OpAddEdge from to => (Tdag.AddEdge d from to).1
  | OpSetup fn => Tdag.Setup d fn
  | OpTearDown fn => Tdag.TearDown d fn
  | OpBeforeEach fn => Tdag.BeforeEach d fn
  | OpAfterEach fn => Tdag.AfterEach d fn
  end.

(** The graph a sequence of calls builds from [NewTDag]. *)
Definition build {F : Type} (ops : list (Op F)) : Tdag.TDag F :=
  foldl applyOp (Tdag.NewTDag (mkT [] false)) ops.

(** ** Running the callbacks of a trace

    The callbacks of package tdag act on the one [TestContext] of the graph.
    [replay] runs the calls of a trace in order, the goroutines of a wave
    one after the other: one of the schedules the run allows.  It is meant
    for traces whose calls all return. *)

Definition runCall (ctx : TestContext) (c : Call TestFn) : TestContext :=
  match c with
  | CallSetup fn | CallBeforeEach fn | CallAfterEach fn | CallTearDown fn =>
      fn ctx
  | CallNode n => Fn n ctx
  end.

Definition runStep (ctx : TestContext) (s : Step TestFn) : TestContext :=
  match s with
  | Seq c => runCall ctx c
  | Wave gs => foldl (fun ctx g => foldl runCall ctx g.2) ctx gs
  end.

Definition replay (trace : list (Step TestFn)) (ctx : TestContext)
  : TestContext :=
  foldl runStep ctx trace.

(** [ctx.T.Log(msg)] *)
Definition tLog (msg : string) : TestFn :=
  fun ctx =>
    mkTestContext (CtxStore ctx)
      (mkT (logs (CtxT ctx) ++ [msg]) (failed (CtxT ctx))).

(** [ctx.Store.Set(key, value)] *)
Definition storeSet (key : string) (value : GoValue) : TestFn :=
  fun ctx => mkTestContext (Store.Set_ (CtxStore ctx) key value) (CtxT ctx).

(** [assert.NoError(ctx.T, err)]: an error marks the test failed and logs
    it; the callback goes on.  (Of testify's report only the error text is
    kept.) *)
Definition assertNoError (err : option GoError) : TestFn :=
  fun ctx =>
    match err with
    | None => ctx
    | Some e =>
        mkTestContext (CtxStore ctx)
          (mkT (logs (CtxT ctx) ++ [errorString e]) true)
    end.

(** ** Example graphs; callbacks are named by strings here. *)

Module Examples.

(** Nodes A, B, C with edges A -> B and B -> C. *)
Definition chainABC : Tdag.TDag string :=
  build [OpAddNode "A" "fnA"; OpAddNode "B" "fnB"; OpAddNode "C" "fnC";
         OpAddEdge "A" ["B"]; OpAddEdge "B" ["C"]].

(** One setup hook, one teardown hook, one node. *)
Definition hooked : Tdag.TDag string :=
  build [OpSetup "setup"; OpTearDown "teardown"; OpAddNode "A" "fnA"].

(** Two nodes registered under the identifier A, then B, and A -> B. *)
Definition twins : Tdag.TDag string :=
  build [OpAddNode "A" "fnA1"; OpAddNode "A" "fnA2"; OpAddNode "B" "fnB";
         OpAddEdge "A" ["B"]].

(** Two nodes under A, then B, C, D, with A -> C, B -> C and D -> B. *)
Definition twinsRace : Tdag.TDag string :=
  build [OpAddNode "A" "fnA1"; OpAddNode "A" "fnA2"; OpAddNode "B" "fnB";
         OpAddNode "C" "fnC"; OpAddNode "D" "fnD";
         OpAddEdge "A" ["C"]; OpAddEdge "B" ["C"]; OpAddEdge "D" ["B"]].

(** The graph of the repository's own test [TestDag], with its callbacks.
    The address the setup function stores is built from the clock there; a
    fixed one stands for it. *)
Definition email : string := "test-0@example.com".

Definition setupFn : TestFn :=
  fun ctx => storeSet "email" (VString email) (storeSet "setup" (VBool true) ctx).

(** The callback of [registration.register]; a failed [assert.Equal]
    marks the test failed (its report text is left out). *)
Definition registerFn : TestFn :=
  fun ctx =>
    let '(setup, err) := Store.Get (CtxStore ctx) "setup" in
    let ctx := assertNoError err ctx in
    let ctx :=
      match setup with
      | VBool true => ctx
      | _ => mkTestContext (CtxStore ctx) (mkT (logs (CtxT ctx)) true)
      end in
    tLog "registration.register" ctx.

Definition loginFn : TestFn :=
  fun ctx =>
    let '(value, err) := Store.Get (CtxStore ctx) "email" in
    let ctx := assertNoError err ctx in
    tLog ("session.login: " ++
          match value with VString s => s | _ => "<nil>" end) ctx.

Definition testDag : Tdag.TDag TestFn :=
  build [OpSetup setupFn;
         OpTearDown (tLog "tear down");
         OpBeforeEach (tLog "before each");
         OpAfterEach (tLog "after each");
         OpAddNode "registration.register" registerFn;
         OpAddNode "registration.confirm" (tLog "registration.confirm");
         OpAddNode "session.login" loginFn;
         OpAddNode "session.logout" (tLog "session.logout");
         OpAddNode "components.create" (tLog "components.create");
         OpAddNode "components.get" (tLog "components.create");
         OpAddNode "components.change.create" (tLog "components.change.create");
         OpAddNode "components.tags.create" (tLog "tags.create");
         OpAddNode "components.tags.delete" (tLog "tags.delete");
         OpAddNode "components.tags.get" (tLog "tags.get");
         OpAddEdge "registration.register" ["registration.confirm"];
         OpAddEdge "registration.confirm" ["session.login"];
         OpAddEdge "session.login" ["components.create"];
         OpAddEdge "components.create" ["components.get"];
         OpAddEdge "components.get" ["components.change.create"];
         OpAddEdge "components.change.create" ["components.tags.create"];
         OpAddEdge "components.tags.create" ["components.tags.get"];
         OpAddEdge "components.tags.get" ["components.tags.delete"];
         OpAddEdge "components.tags.delete" ["session.logout"]].

(** What the context holds after a run: the log, whether a check failed,
    and the stored address. *)
Definition report (o : Outcome TestFn)
  : option (list string * bool * (GoValue * option GoError)) :=
  match o with
  | Finished trace =>
      let ctx := replay trace (Tdag.Ctx testDag) in
      Some (logs (CtxT ctx), failed (CtxT ctx),
            Store.Get (CtxStore ctx) "email")
  | _ => None
  end.

(** A topological rank for [chainABC], [twins] and [twinsRace]. *)
Definition rankOf (id : string) : nat :=
  if decide (id = "A") then 0
  else if decide (id = "D") then 0
  else if decide (id = "B") then 1
  else 2.

End Examples.

(** ** Vocabulary of the traversal proofs *)

Section TraversalSpecs.
Context {F : Type}.

(** What the depth-first search of [detectCycle] looks for: a path from
    [s] to [t] that never steps on a marked identifier, each step marking
    the identifier it leaves. *)
Inductive dfsPath (edges : list (TEdge F)) (t : string)
  : gset string → string → Prop :=
| dfs_here V : dfsPath edges t V t
| dfs_step V s e :
    e ∈ edges → ID (Left e) = s → ID (Right e) ∉ ({[s]} ∪ V : gset string) →
    dfsPath edges t ({[s]} ∪ V) (ID (Right e)) →
    dfsPath edges t V s.

(** A walk of [n] edges from [a] to [t] whose nodes after the first are
    unmarked. *)
Inductive walk (edges : list (TEdge F)) (t : string) (V : gset string)
  : string → nat → Prop :=
| walk_O : walk edges t V t 0
| walk_S a c n :
    edgeRel edges a c → c ∉ V → walk edges t V c n → walk edges t V a (S n).

(** The edges whose right end is unmarked: the budget of [detectCycle]. *)
Definition unmarkedRight (edges : list (TEdge F)) (V : gset string) : nat :=
  length (filter (fun e => ID (Right e) ∉ V) edges).

(** The edges whose left end is unmarked: the budget of
    [collectDependencies]. *)
Definition unmarkedLeft (edges : list (TEdge F)) (V : gset string) : nat :=
  length (filter (fun e => ID (Left e) ∉ V) edges).

(** What a call [collectDependencies(c, W)] that returns has done: it
    kept the marks, added only ancestors of [c], and every identifier it
    added has all its own dependencies marked. *)
Definition collected_ok (edges : list (TEdge F)) (r : option (gset string))
    (c : string) (W : gset string) : Prop :=
  ∃ R, r = Some R
       ∧ {[c]} ∪ W ⊆ R
       ∧ (∀ x, x ∈ R → x ∈ W ∨ reaches edges x c)
       ∧ (∀ x e, x ∈ R → x ∉ W → e ∈ edges → ID (Right e) = x →
                 ID (Left e) ∈ R).

End TraversalSpecs.

(** ** Vocabulary of the scheduler proofs *)

Section SchedulerSpecs.
Context {F : Type}.

(** The edges the adjacency loop counts: all of them in [RunTests], those
    with both ends required in [RunTo]. *)
Definition eligibleEdges (required : option (gset string))
    (edges : list (TEdge F)) : list (TEdge F) :=
  filter (fun e => isRequired required (ID (Left e))
                   ∧ isRequired required (ID (Right e))) edges.

(** The edges into [v] whose left end has not completed. *)
Definition pending (E : list (TEdge F)) (done : gset string) (v : string)
  : nat :=
  length (filter (fun e => ID (Right e) = v ∧ ID (Left e) ∉ done) E).

(** The edges from [u] to [v]. *)
Definition countEdges (E : list (TEdge F)) (u v : string) : nat :=
  length (filter (fun e => ID (Left e) = u ∧ ID (Right e) = v) E).

(** The right ends of the edges out of [u], in edge order. *)
Definition dependents (E : list (TEdge F)) (u : string) : list (TNode F) :=
  Right <$> filter (fun e => ID (Left e) = u) E.

(** The loop invariant on the two maps: an in-degree is the number of
    pending edges, an adjacency list the dependents. *)
Definition booksOK (E : list (TEdge F)) (st : RunState F) : Prop :=
  (∀ v, getZ (inDegree st) v = Z.of_nat (pending E (completed st) v))
  ∧ (∀ u, getL (outEdges st) u = dependents E u).

(** The nodes whose identifier has not completed: the loop's variant. *)
Definition incomplete (nodes : list (TNode F)) (st : RunState F) : nat :=
  length (filter (fun n => ID n ∉ completed st) nodes).

(** The waves of the loop when every closure reaches its bookkeeping: a
    function of the graph alone, which [runLoop] is shown to follow under
    that condition ([runLoop_allComplete]).  It is the device of the
    proofs about such runs, not a model of the source. *)
Fixpoint idealLoop (fuel : nat) (required : option (gset string))
    (nodes : list (TNode F)) (st : RunState F)
  : LoopEnd * list (list (TNode F)) :=
  match fuel with
  | O => (LoopNoFuel, [])
  | S fuel' =>
      match availableNodes required nodes st with
      | [] =>
          match remainingIDs required nodes st with
          | [] => (LoopExit, [])
          | remaining => (LoopFatal remaining, [])
          end
      | available =>
          let '(e, waves) :=
            idealLoop fuel' required nodes (foldl finishNode st available) in
          (e, available :: waves)
      end
  end.

(** Waves all of whose closures complete. *)
Definition allComplete (waves : list (list (TNode F)))
  : list (list (TNode F * End)) :=
  (fun wave : list (TNode F) => (fun n => (n, Completes)) <$> wave) <$> waves.

End SchedulerSpecs.

(** ** Vocabulary of the further properties *)

Section MoreSpecs.
Context {F : Type}.

(** The nodes no edge points to. *)
Definition roots (nodes : list (TNode F)) (edges : list (TEdge F))
  : list (TNode F) :=
  filter (fun n => Forall (fun e => ID (Right e) ≠ ID n) edges) nodes.

(** The scheduler's maps after the waves of a loop, from the maps before. *)
Definition loopFinal (st : RunState F) (waves : list (list (TNode F)))
  : RunState F :=
  foldl (foldl finishNode) st waves.

(** What a run called, however it ended (up to the exhaustion of the
    budget, when it did not end within it). *)
Definition outcomeTrace (o : Outcome F) : list (Step F) :=
  match o with
  | Finished trace | Fatal _ trace | Exited trace | OutOfFuel trace => trace
  end.

End MoreSpecs.

(** Further example graphs. *)
Module MoreExamples.

(** [chainABC] after [AddEdge("C", "A")]: the cycle A -> B -> C -> A. *)
Definition cycleABC : Tdag.TDag string :=
  build [OpAddNode "A" "fnA"; OpAddNode "B" "fnB"; OpAddNode "C" "fnC";
         OpAddEdge "A" ["B"]; OpAddEdge "B" ["C"]; OpAddEdge "C" ["A"]].

(** A diamond with hooks: A -> B, A -> C, B -> D, C -> D. *)
Definition diamond : Tdag.TDag string :=
  build [OpBeforeEach "before"; OpAfterEach "after";
         OpAddNode "A" "fnA"; OpAddNode "B" "fnB"; OpAddNode "C" "fnC";
         OpAddNode "D" "fnD";
         OpAddEdge "A" ["B"; "C"]; OpAddEdge "B" ["D"]; OpAddEdge "C" ["D"]].

Definition rankDiamond (id : string) : nat :=
  if decide (id = "A") then 0
  else if decide (id = "D") then 2
  else 1.

End MoreExamples.

(** ** The D2 export (the same text in both packages) *)

Module D2.
Section D2Export.
Context {F : Type}.

(** The two maps and the [strings.Builder] that [ToD2] hands to every call
    of [buildD2FromNode].  [visited] is read by index and, in [ToD2], by
    the two-result form that tells a key held at [false] from a missing
    one, so it is a map to booleans; [edgesPrinted] is only indexed; the
    builder is the list of the strings written to it, in order. *)
Record State : Type := mkState {
  visited : gmap string bool;
  edgesPrinted : gset string;
  builder : list string
}.

(** [visited[id]] *)
Definition isVisited (st : State) (id : string) : bool :=
  default false (visited st !! id).

(** [visited[id] = b] *)
Definition mark (id : string) (b : bool) (st : State) : State :=
  mkState (<[id := b]> (visited st)) (edgesPrinted st) (builder st).

Definition newline : string := String (Ascii.ascii_of_nat 10) EmptyString.

(** [fmt.Sprintf("%s->%s", edge.Left.ID, edge.Right.ID)] *)
Definition edgeKey (e : TEdge F) : string :=
  (ID (Left e) ++ "->" ++ ID (Right e))%string.

(** [fmt.Sprintf("%s -> %s\n", edge.Left.ID, edge.Right.ID)] *)
Definition edgeLine (e : TEdge F) : string :=
  (ID (Left e) ++ " -> " ++ ID (Right e) ++ newline)%string.

(** [if !edgesPrinted[edgeKey] { builder.WriteString(...); edgesPrinted[edgeKey] = true }] *)
Definition printEdge (edge : TEdge F) (st : State) : State :=
  if decide (edgeKey edge ∈ edgesPrinted st) then st
  else mkState (visited st) ({[edgeKey edge]} ∪ edgesPrinted st)
         (builder st ++ [edgeLine edge]).

(** The [for _, edge := range d.Edges] loop of [buildD2FromNode]; [rec]
    is the recursive call, made for every edge that leaves the node. *)
Fixpoint buildD2Edges (rec : TNode F -> State -> option State)
    (nodeID : string) (es : list (TEdge F)) (st : State) : option State :=
  match es with
  | [] => Some st
  | edge :: es' =>
      if decide (ID (Left edge) = nodeID) then
        match rec (Right edge) (printEdge edge st) with
        | None => None
        | Some st' => buildD2Edges rec nodeID es' st'
        end
      else buildD2Edges rec nodeID es' st
  end.

(** [func (d *TDag) buildD2FromNode(node *TNode, visited, edgesPrinted
    map[string]bool, builder *strings.Builder)]: the mark is set on entry
    and reset to [false] on exit.  [None] is the recursion budget running
    out. *)
Fixpoint buildD2FromNode (fuel : nat) (edges : list (TEdge F))
    (node : TNode F) (st : State) : option State :=
  match fuel with
  | O => None
  | S fuel' =>
      if isVisited st (ID node) then Some st
      else
        mark (ID node) false
          <$> buildD2Edges (buildD2FromNode fuel' edges) (ID node) edges
                (mark (ID node) true st)
  end.

(** The [for _, node := range d.Nodes] loop of [ToD2]: a node whose
    identifier is a key of [visited] is skipped. *)
Fixpoint toD2Nodes (edges : list (TEdge F)) (nodes : list (TNode F))
    (st : State) : option State :=
  match nodes with
  | [] => Some st
  | node :: rest =>
      if decide (is_Some (visited st !! ID node)) then toD2Nodes edges rest st
      else
        match buildD2FromNode (S (S (length edges))) edges node st with
        | None => None
        | Some st' => toD2Nodes edges rest st'
        end
  end.

(** [builder.String()] *)
Definition builderString (b : list string) : string :=
  foldr String.append EmptyString b.

(** [func (d *TDag) ToD2(path string) error], up to the file: the text it
    hands to [f.WriteString].  Opening and writing the file, and the errors
    of the two, are outside the model. *)
Definition ToD2 (nodes : list (TNode F)) (edges : list (TEdge F))
  : option string :=
  (builderString ∘ builder) <$> toD2Nodes edges nodes (mkState ∅ ∅ []).

(** *** Vocabulary of the export proofs *)

(** The edges whose right end is not marked: the budget of the export. *)
Definition budget (edges : list (TEdge F)) (st : State) : nat :=
  length (filter (fun e => isVisited st (ID (Right e)) = false) edges).

(** The marks are the same and no key of [visited] is lost. *)
Definition sameMarks (st st' : State) : Prop :=
  (∀ id, isVisited st' id = isVisited st id)
  ∧ (∀ id, is_Some (visited st !! id) → is_Some (visited st' !! id)).

(** From [st] to [st'] the lines of the edges [new] were written, each
    under a key that was not printed yet, each leaving an identifier that
    one of the identifiers [origin] reaches. *)
Definition printsFrom (edges : list (TEdge F)) (origin : string → Prop)
    (st st' : State) : Prop :=
  ∃ new,
    builder st' = builder st ++ (edgeLine <$> new)
    ∧ edgesPrinted st' = list_to_set (edgeKey <$> new) ∪ edgesPrinted st
    ∧ NoDup (edgeKey <$> new)
    ∧ ∀ e, e ∈ new →
           e ∈ edges ∧ (edgeKey e ∉ edgesPrinted st)
           ∧ ∃ x, origin x ∧ reaches edges x (ID (Left e)).

(** Every identifier held at [false] has been left: the keys of its
    outgoing edges are printed and their right ends are keys of
    [visited]. *)
Definition explored (edges : list (TEdge F)) (st : State) : Prop :=
  ∀ id e, visited st !! id = Some false → e ∈ edges → ID (Left e) = id →
          edgeKey e ∈ edgesPrinted st ∧ is_Some (visited st !! ID (Right e)).

End D2Export.
Arguments State : clear implicits.
End D2.

(** ** package dag: construction, store histories and an example *)

(** [func NewDag[T any]() *Dag[T]]; [zero] is the zero value of [T]. *)
Definition NewDag {C F : Type} (zero : C) : Dag.Dag C F :=
  Dag.mkDag [] [] zero DagStore.NewStore.

(** A history of [Set] calls on the store of package dag, in order. *)
Definition dagRunSets (s : DagStore.Store) (writes : list (string * GoValue))
  : DagStore.Store :=
  foldl (fun s kv => DagStore.Set_ s kv.1 kv.2) s writes.

(** The diamond A -> B, A -> C, B -> D, C -> D in package dag. *)
Definition dagDiamond : Dag.Dag unit string :=
  let d0 := NewDag tt in
  let d1 := (Dag.AddNode d0 "A" "fnA").1 in
  let d2 := (Dag.AddNode d1 "B" "fnB").1 in
  let d3 := (Dag.AddNode d2 "C" "fnC").1 in
  let d4 := (Dag.AddNode d3 "D" "fnD").1 in
  let d5 := (Dag.AddEdge d4 "A" ["B"; "C"]).1 in
  let d6 := (Dag.AddEdge d5 "B" ["D"]).1 in
  (Dag.AddEdge d6 "C" ["D"]).1.

(** ** The hooks a sequence of calls registers *)

Section RegisteredHooks.
Context {F : Type}.

Definition setupOf (op : Op F) : option F :=
  match op with OpSetup fn => Some fn | _ => None end.

Definition tearDownOf (op : Op F) : option F :=
  match op with OpTearDown fn => Some fn | _ => None end.

Definition beforeEachOf (op : Op F) : option F :=
  match op with OpBeforeEach fn => Some fn | _ => None end.

Definition afterEachOf (op : Op F) : option F :=
  match op with OpAfterEach fn => Some fn | _ => None end.

End RegisteredHooks.

(** A -> B, and beside it the cycle C -> D -> C. *)
Definition sideCycle : Tdag.TDag string :=
  build [OpAddNode "A" "fnA"; OpAddNode "B" "fnB"; OpAddNode "C" "fnC";
         OpAddNode "D" "fnD";
         OpAddEdge "A" ["B"]; OpAddEdge "C" ["D"]; OpAddEdge "D" ["C"]].

(** * Part II: proofs *)

(** ** The stores *)

Lemma runSets_snoc s ws k v :
  Store.runSets s (ws ++ [(k, v)]) = Store.Set_ (Store.runSets s ws) k v.
Proof. unfold Store.runSets. by rewrite foldl_app. Qed.

Lemma items_runSets s ws key :
  Store.items (Store.runSets s ws) !! key =
  match Store.lastWrite key ws with
  | Some v => Some v
  | None => Store.items s !! key
  end.
Proof.
  revert s. induction ws as [|[k v] ws IH]; intros s; [done|].
  cbn [Store.runSets foldl Store.lastWrite].
  fold (Store.runSets (Store.Set_ s k v) ws).
  rewrite IH. destruct (Store.lastWrite key ws); [done|].
  cbn. rewrite lookup_insert. by destruct (decide (k = key)).
Qed.

Lemma lastWrite_None key ws :
  key ∉ ws.*1 → Store.lastWrite key ws = None.
Proof.
  induction ws as [|[k v] ws IH]; [done|].
  rewrite fmap_cons, not_elem_of_cons. intros [Hne Hnin].
  cbn. rewrite IH by done. destruct (decide (k = key)); [|done].
  by subst.
Qed.

Lemma lastWrite_snoc key ws v :
  Store.lastWrite key (ws ++ [(key, v)]) = Some v.
Proof.
  induction ws as [|[k w] ws IH]; cbn.
  - by rewrite decide_True.
  - by rewrite IH.
Qed.

Lemma Get_Set_same s key v : Store.Get (Store.Set_ s key v) key = (v, None).
Proof. unfold Store.Get, Store.Set_. cbn. by rewrite lookup_insert_eq. Qed.

Lemma Get_Set_other s key k v :
  k ≠ key → Store.Get (Store.Set_ s k v) key = Store.Get s key.
Proof. intros. unfold Store.Get, Store.Set_. cbn. by rewrite lookup_insert_ne. Qed.

(** C6, as amended: on a [TStore] of package tdag, [Get] of a key that no
    [Set] of the history wrote fails with the error [key ... not found], and
    that outcome differs from every successful read, a stored nil
    included. *)
Theorem C6_tstore_get_miss_is_error (writes : list (string * GoValue)) (key : string) :
  key ∉ writes.*1 →
  Store.Get (Store.runSets Store.NewStore writes) key
    = (VNil, Some (ErrKeyNotFound key))
  ∧ ∀ v, Store.Get (Store.Set_ (Store.runSets Store.NewStore writes) key v) key
         = (v, None).
Proof.
  intros Hnin. split; [|intros v; apply Get_Set_same].
  unfold Store.Get. rewrite items_runSets, lastWrite_None by done.
  done.
Qed.

Lemma C6_tstore_get_miss_witness :
  Store.Get (Store.runSets Store.NewStore [("setup", VBool true)]) "email"
    = (VNil, Some (ErrKeyNotFound "email"))
  ∧ ∀ v, Store.Get (Store.Set_ (Store.runSets Store.NewStore
                                  [("setup", VBool true)]) "email" v) "email"
         = (v, None).
Proof.
  apply (C6_tstore_get_miss_is_error [("setup", VBool true)] "email").
  cbn. apply not_elem_of_cons. split; [done|apply not_elem_of_nil].
Defined.

(** C6, the claim as stated, fails on the [Store] of package dag: its [Get]
    has no error result, and a key never set reads as nil, exactly like a
    key holding a stored nil. *)
Lemma C6_dag_store_miss_reads_nil :
  DagStore.Get DagStore.NewStore "email" = VNil
  ∧ DagStore.Get (DagStore.Set_ DagStore.NewStore "email" VNil) "email" = VNil.
Proof. split; reflexivity. Qed.

(** C9: [Set] is total; after any history of [Set] calls, [Get] of a key
    returns the value of the last [Set] on that key (and what the store held
    before when the history never wrote it); in particular the value just
    set, whatever was there. *)
Theorem C9_set_get_last_write_wins (s : Store.TStore)
    (writes : list (string * GoValue)) (key : string) (v : GoValue) :
  Store.Get (Store.runSets s (writes ++ [(key, v)])) key = (v, None)
  ∧ Store.Get (Store.runSets s writes) key
    = match Store.lastWrite key writes with
      | Some w => (w, None)
      | None => Store.Get s key
      end.
Proof.
  split.
  - rewrite runSets_snoc. apply Get_Set_same.
  - unfold Store.Get at 1. rewrite items_runSets.
    by destruct (Store.lastWrite key writes).
Qed.

(** ** The cycle check: it terminates, and it decides forward reachability *)

Section CycleCheck.
Context {F : Type}.
Implicit Types (edges es : list (TEdge F)) (V W : gset string).

Lemma filter_length_mono {A} (P Q : A → Prop) `{∀ x, Decision (P x)}
    `{∀ x, Decision (Q x)} (l : list A) :
  (∀ x, x ∈ l → P x → Q x) →
  (length (filter P l) ≤ length (filter Q l))%nat.
Proof.
  induction l as [|x l IH]; intros HPQ; [done|].
  rewrite !filter_cons.
  assert (length (filter P l) ≤ length (filter Q l))%nat as Hle.
  { apply IH. intros y Hy. apply HPQ. by right. }
  destruct (decide (P x)) as [HP|HP].
  - rewrite decide_True by (apply HPQ; [left|done]). simpl. lia.
  - destruct (decide (Q x)); simpl; lia.
Qed.

Lemma filter_length_lt {A} (P Q : A → Prop) `{∀ x, Decision (P x)}
    `{∀ x, Decision (Q x)} (l : list A) (a : A) :
  (∀ x, x ∈ l → P x → Q x) → a ∈ l → Q a → ¬ P a →
  (length (filter P l) < length (filter Q l))%nat.
Proof.
  induction l as [|x l IH]; intros HPQ Ha HQ HnP; [by apply elem_of_nil in Ha|].
  rewrite !filter_cons.
  assert (length (filter P l) ≤ length (filter Q l))%nat as Hle.
  { apply filter_length_mono. intros y Hy. apply HPQ. by right. }
  apply elem_of_cons in Ha as [->|Ha].
  - rewrite decide_False by done. rewrite decide_True by done. simpl. lia.
  - assert (length (filter P l) < length (filter Q l))%nat.
    { apply IH; try done. intros y Hy. apply HPQ. by right. }
    destruct (decide (P x)) as [HP|HP].
    + rewrite decide_True by (apply HPQ; [left|done]). simpl. lia.
    + destruct (decide (Q x)); simpl; lia.
Qed.

Lemma unmarkedRight_le edges V : (unmarkedRight edges V ≤ length edges)%nat.
Proof. unfold unmarkedRight. apply length_filter. Qed.

Lemma unmarkedRight_step edges V e :
  e ∈ edges → ID (Right e) ∉ V →
  (unmarkedRight edges ({[ID (Right e)]} ∪ V) < unmarkedRight edges V)%nat.
Proof.
  intros He Hr. unfold unmarkedRight.
  apply (filter_length_lt _ _ _ e); [|done|done|]; set_solver.
Qed.

Lemma mark_unmark (x : string) V : x ∉ V → ({[x]} ∪ V) ∖ {[x]} = V.
Proof. intros Hx. apply set_eq. intros y. set_unfold. naive_solver. Qed.

Lemma dfsPath_inv edges t V s :
  dfsPath edges t V s ↔
  s = t ∨ ∃ e, e ∈ edges ∧ ID (Left e) = s
               ∧ (ID (Right e) ∉ ({[s]} ∪ V : gset string))
               ∧ dfsPath edges t ({[s]} ∪ V) (ID (Right e)).
Proof.
  split.
  - inversion 1; subst; [by left|right; eauto].
  - intros [->|(e & ? & ? & ? & ?)]; [constructor|by eapply dfs_step].
Qed.

(** The loop over the edges, given that the recursive calls behave. *)
Lemma detectCycleEdges_spec edges t rec s W es :
  (∀ e, e ∈ es → ID (Left e) = s → ID (Right e) ∉ W →
        (∃ V', rec (Right e) W = Some (true, V')
               ∧ dfsPath edges t W (ID (Right e)))
        ∨ (rec (Right e) W = Some (false, W)
           ∧ ¬ dfsPath edges t W (ID (Right e)))) →
  (∃ V' e, detectCycleEdges rec s es W = Some (true, V')
           ∧ e ∈ es ∧ ID (Left e) = s ∧ (ID (Right e) ∉ W)
           ∧ dfsPath edges t W (ID (Right e)))
  ∨ (detectCycleEdges rec s es W = Some (false, W)
     ∧ ∀ e, e ∈ es → ID (Left e) = s → ID (Right e) ∉ W →
            ¬ dfsPath edges t W (ID (Right e))).
Proof.
  induction es as [|e es IH]; intros Hrec.
  - right. split; [done|]. intros e He. by apply elem_of_nil in He.
  - cbn [detectCycleEdges].
    assert (Htail : ∀ e', e' ∈ es → ID (Left e') = s → ID (Right e') ∉ W →
              (∃ V', rec (Right e') W = Some (true, V')
                     ∧ dfsPath edges t W (ID (Right e')))
              ∨ (rec (Right e') W = Some (false, W)
                 ∧ ¬ dfsPath edges t W (ID (Right e')))).
    { intros e' He'. apply Hrec. by right. }
    specialize (IH Htail).
    destruct (decide (ID (Left e) = s ∧ ID (Right e) ∉ W)) as [[Hl Hr]|Hno].
    + destruct (Hrec e (list_elem_of_here _ _) Hl Hr)
        as [(V'' & Hcall & Hp)|[Hcall Hp]]; rewrite Hcall.
      * left. exists V'', e. split_and!; try done. apply list_elem_of_here.
      * destruct IH as [(V' & e' & Hrun & He' & ? & ? & ?)|[Hrun Hnone]].
        -- left. exists V', e'. split_and!; try done. by right.
        -- right. split; [done|].
           intros e0 [->|He0]%elem_of_cons; [done|]. by apply Hnone.
    + destruct IH as [(V' & e' & Hrun & He' & ? & ? & ?)|[Hrun Hnone]].
      * left. exists V', e'. split_and!; try done. by right.
      * right. split; [done|].
        intros e0 [->|He0]%elem_of_cons ? ?; [by destruct Hno|].
        by apply Hnone.
Qed.

(** [detectCycle] with enough budget returns, restores the marks when it
    returns [false], and returns [true] exactly when a search path exists. *)
Lemma detectCycle_spec edges (t : TNode F) fuel :
  ∀ (s : TNode F) V,
    ID s ∉ V →
    (unmarkedRight edges ({[ID s]} ∪ V) < fuel)%nat →
    (∃ V', detectCycle fuel edges (Some s) (Some t) V = Some (true, V')
           ∧ dfsPath edges (ID t) V (ID s))
    ∨ (detectCycle fuel edges (Some s) (Some t) V = Some (false, V)
       ∧ ¬ dfsPath edges (ID t) V (ID s)).
Proof.
  induction fuel as [|fuel IH]; intros s V HsV Hfuel; [lia|].
  cbn [detectCycle].
  destruct (decide (ID s = ID t)) as [Heq|Hne].
  { left. exists V. split; [done|]. rewrite Heq. constructor. }
  destruct (detectCycleEdges_spec edges (ID t)
              (fun nxt v => detectCycle fuel edges (Some nxt) (Some t) v)
              (ID s) ({[ID s]} ∪ V) edges) as [(V' & e & -> & He & Hl & Hr & Hp)|[-> Hnone]].
  - intros e He Hl Hr. apply IH; [done|].
    pose proof (unmarkedRight_step edges _ e He Hr). lia.
  - left. exists V'. split; [done|]. by eapply dfs_step.
  - right. split.
    + by rewrite mark_unmark.
    + rewrite dfsPath_inv. intros [?|(e & He & Hl & Hr & Hp)]; [done|].
      by eapply Hnone.
Qed.

(** A search path is a path. *)
Lemma dfsPath_reaches edges t V s : dfsPath edges t V s → reaches edges s t.
Proof.
  induction 1 as [|V s e He Hl Hr Hp IH]; [apply rtc_refl|].
  eapply rtc_l; [|exact IH]. by exists e.
Qed.

Lemma walk_weaken edges t V a n c :
  walk edges t V c n →
  walk edges t ({[a]} ∪ V) c n ∨ ∃ m, (m < n)%nat ∧ walk edges t V a m.
Proof.
  induction 1 as [|c c' n Hedge Hc' Hw IH].
  - left. constructor.
  - destruct (decide (c' = a)) as [->|Hne].
    { right. exists n. split; [lia|done]. }
    destruct IH as [IH|(m & Hm & IH)].
    + left. econstructor; [done| |done]. set_solver.
    + right. exists m. split; [lia|done].
Qed.

(** From a walk that leaves [a], a first step that never comes back. *)
Lemma walk_first_step edges t V n :
  ∀ a, walk edges t V a n → a ≠ t →
       ∃ e m, e ∈ edges ∧ ID (Left e) = a
              ∧ (ID (Right e) ∉ ({[a]} ∪ V : gset string))
              ∧ (m < n)%nat ∧ walk edges t ({[a]} ∪ V) (ID (Right e)) m.
Proof.
  induction n as [n IH] using lt_wf_ind. intros a Hw Hat.
  destruct Hw as [|a c n Hedge Hc Hw]; [done|].
  destruct (decide (c = a)) as [->|Hne].
  { destruct (IH n ltac:(lia) a Hw Hat) as (e & m & ? & ? & ? & ? & ?).
    exists e, m. split_and!; try done. lia. }
  destruct (walk_weaken edges t V a n c Hw) as [Hw'|(m & Hm & Hw')].
  - destruct Hedge as (e & He & Hl & Hr). subst.
    exists e, n. split_and!; try done; [set_solver|lia].
  - destruct (IH m ltac:(lia) a Hw' Hat) as (e & m' & ? & ? & ? & ? & ?).
    exists e, m'. split_and!; try done. lia.
Qed.

Lemma walk_dfsPath edges t n :
  ∀ V a, walk edges t V a n → dfsPath edges t V a.
Proof.
  induction n as [n IH] using lt_wf_ind. intros V a Hw.
  destruct (decide (a = t)) as [->|Hne]; [constructor|].
  destruct (walk_first_step edges t V n a Hw Hne)
    as (e & m & He & Hl & Hr & Hm & Hw').
  eapply dfs_step; [done..|]. subst. by eapply IH.
Qed.

Lemma reaches_walk edges t a :
  reaches edges a t → ∃ n, walk edges t ∅ a n.
Proof.
  induction 1 as [|a c t Hedge _ [n IH]].
  - exists O. constructor.
  - exists (S n). econstructor; [done|set_solver|done].
Qed.

(** With nothing marked, the search finds a path exactly when one exists. *)
Lemma dfsPath_iff_reaches edges t s :
  dfsPath edges t ∅ s ↔ reaches edges s t.
Proof.
  split; [apply dfsPath_reaches|].
  intros [n Hw]%reaches_walk. by eapply walk_dfsPath.
Qed.

(** [createsCycle] never exhausts its budget. *)
Lemma createsCycle_total edges (from to : TNode F) :
  createsCycle edges (Some from) (Some to)
  = Some (createsCycleB edges from to).
Proof.
  unfold createsCycleB, createsCycle.
  destruct (detectCycle_spec edges to (S (length edges)) from ∅)
    as [(V' & -> & _)|[-> _]]; try done.
  pose proof (unmarkedRight_le edges ({[ID from]} ∪ ∅)). lia.
Qed.

(** What [createsCycle(from, to)] decides: [to] is reachable from [from]
    along the edges present.  (The edge [from -> to] would close a cycle
    when [from] is reachable from [to].) *)
Lemma createsCycleB_iff_reaches edges (from to : TNode F) :
  createsCycleB edges from to = true ↔ reaches edges (ID from) (ID to).
Proof.
  rewrite <-dfsPath_iff_reaches. unfold createsCycleB, createsCycle.
  destruct (detectCycle_spec edges to (S (length edges)) from ∅)
    as [(V' & -> & Hp)|[-> Hp]]; try done.
  pose proof (unmarkedRight_le edges ({[ID from]} ∪ ∅)). lia.
Qed.

End CycleCheck.

(** ** The closure collector: it terminates and computes the ancestors *)

Section Closure.
Context {F : Type}.
Implicit Types (edges es : list (TEdge F)) (C W R : gset string).

Lemma unmarkedLeft_le edges V : (unmarkedLeft edges V ≤ length edges)%nat.
Proof. unfold unmarkedLeft. apply length_filter. Qed.

Lemma unmarkedLeft_mono edges V W :
  V ⊆ W → (unmarkedLeft edges W ≤ unmarkedLeft edges V)%nat.
Proof.
  intros HVW. unfold unmarkedLeft. apply filter_length_mono.
  intros e _ He Hin. apply He. by apply HVW.
Qed.

Lemma unmarkedLeft_step edges V e :
  e ∈ edges → ID (Left e) ∉ V →
  (unmarkedLeft edges ({[ID (Left e)]} ∪ V) < unmarkedLeft edges V)%nat.
Proof.
  intros He Hl. unfold unmarkedLeft.
  apply (filter_length_lt _ _ _ e); [|done|done|].
  - intros x _ Hx Hin. apply Hx. apply elem_of_union. by right.
  - intros Hx. apply Hx. apply elem_of_union. left. by apply elem_of_singleton.
Qed.

Lemma collectEdges_spec edges fuel id es :
  (∀ c W, (unmarkedLeft edges ({[c]} ∪ W) < fuel)%nat →
          collected_ok edges (collectDependencies fuel edges c W) c W) →
  (∀ e, e ∈ es → e ∈ edges) →
  ∀ W, (unmarkedLeft edges W ≤ fuel)%nat →
       ∃ R, collectEdges (fun c w => collectDependencies fuel edges c w)
              id es W = Some R
            ∧ W ⊆ R
            ∧ (∀ x, x ∈ R → x ∈ W ∨ reaches edges x id)
            ∧ (∀ e, e ∈ es → ID (Right e) = id → ID (Left e) ∈ R)
            ∧ (∀ x e, x ∈ R → x ∉ W → e ∈ edges → ID (Right e) = x →
                      ID (Left e) ∈ R).
Proof.
  intros Hrec. induction es as [|e es IH]; intros Hsub W Hfuel.
  - exists W. split_and!; try done.
    + intros x ?. by left.
    + intros e He. by apply elem_of_nil in He.
  - cbn [collectEdges].
    assert (Hsub' : ∀ e', e' ∈ es → e' ∈ edges).
    { intros e' He'. apply Hsub. by right. }
    assert (He : e ∈ edges) by (apply Hsub; left).
    destruct (decide (ID (Right e) = id ∧ ID (Left e) ∉ W)) as [[Hr Hl]|Hno].
    + pose proof (unmarkedLeft_step edges W e He Hl) as Hlt.
      destruct (Hrec (ID (Left e)) W ltac:(lia))
        as (C' & -> & Hinc & Hsound & Hclosed).
      destruct (IH Hsub' C') as (R & -> & HR & HRsound & HRedges & HRclosed).
      { assert (W ⊆ C') as HWC by set_solver.
        pose proof (unmarkedLeft_mono edges W C' HWC). lia. }
      exists R. split_and!; try done.
      * set_solver.
      * intros x Hx. destruct (HRsound x Hx) as [HxC|?]; [|by right].
        destruct (Hsound x HxC) as [?|Hreach]; [by left|right].
        eapply rtc_r; [exact Hreach|]. by exists e.
      * intros e0 [->|He0]%elem_of_cons ?; [|by apply HRedges].
        apply HR, Hinc. set_solver.
      * intros x e0 Hx HxW He0 Hr0.
        destruct (decide (x ∈ C')) as [HxC|HxC].
        -- apply HR. by eapply Hclosed.
        -- by eapply HRclosed.
    + destruct (IH Hsub' W Hfuel) as (R & -> & HR & HRsound & HRedges & HRclosed).
      exists R. split_and!; try done.
      intros e0 [->|He0]%elem_of_cons Hr0; [|by apply HRedges].
      apply HR. destruct (decide (ID (Left e) ∈ W)); [done|].
      destruct Hno. done.
Qed.

Lemma collectDependencies_spec edges fuel :
  ∀ c W, (unmarkedLeft edges ({[c]} ∪ W) < fuel)%nat →
         collected_ok edges (collectDependencies fuel edges c W) c W.
Proof.
  induction fuel as [|fuel IH]; intros c W Hfuel; [lia|].
  cbn [collectDependencies].
  destruct (collectEdges_spec edges fuel c edges IH (fun _ H => H) ({[c]} ∪ W))
    as (R & -> & HR & HRsound & HRedges & HRclosed); [lia|].
  exists R. split_and!; try done.
  - intros x Hx. destruct (HRsound x Hx) as [[->%elem_of_singleton|?]%elem_of_union|?].
    + right. apply rtc_refl.
    + by left.
    + by right.
  - intros x e Hx HxW He Hr.
    destruct (decide (x = c)) as [->|Hne]; [by apply HRedges|].
    eapply HRclosed; try done. set_solver.
Qed.

(** The set [RunTo] works with: exactly the identifiers that reach the
    target, the target included. *)
Lemma collectDependencies_closure edges id :
  ∃ R, collectDependencies (S (length edges)) edges id ∅ = Some R
       ∧ ∀ x, x ∈ R ↔ reaches edges x id.
Proof.
  destruct (collectDependencies_spec edges (S (length edges)) id ∅)
    as (R & HR & Hinc & Hsound & Hclosed).
  { pose proof (unmarkedLeft_le edges ({[id]} ∪ ∅)). lia. }
  exists R. split; [done|]. intros x. split.
  - intros Hx. destruct (Hsound x Hx) as [?|?]; [set_solver|done].
  - revert x. apply rtc_ind_l; [set_solver|].
    intros x y [e (He & Hl & Hr)] _ IH.
    subst. eapply Hclosed; [exact IH|set_solver|done|done].
Qed.

End Closure.

(** ** The scheduler's maps *)

Section Books.
Context {F : Type}.
Implicit Types (E edges : list (TEdge F)) (nodes : list (TNode F))
  (st : RunState F) (required : option (gset string)).

Lemma getZ_insert (m : gmap string Z) k v k' :
  getZ (<[k := v]> m) k' = if decide (k = k') then v else getZ m k'.
Proof. unfold getZ. rewrite lookup_insert. by destruct (decide (k = k')). Qed.

Lemma getL_insert (m : gmap string (list (TNode F))) k v k' :
  getL (<[k := v]> m) k' = if decide (k = k') then v else getL m k'.
Proof. unfold getL. rewrite lookup_insert. by destruct (decide (k = k')). Qed.

Lemma getZ_initInDegree required nodes v :
  getZ (initInDegree required nodes) v = 0.
Proof.
  unfold initInDegree.
  assert (∀ m, getZ m v = 0 →
               getZ (foldl (fun m node =>
                              if decide (isRequired required (ID node))
                              then <[ID node := 0]> m else m) m nodes) v = 0)
    as Hgen.
  { induction nodes as [|n nodes IH]; intros m Hm; [done|].
    cbn [foldl]. apply IH. destruct (decide (isRequired required (ID n))); [|done].
    rewrite getZ_insert. by destruct (decide (ID n = v)). }
  by apply Hgen.
Qed.

Lemma eligibleEdges_cons required e edges :
  eligibleEdges required (e :: edges) =
  if decide (isRequired required (ID (Left e))
             ∧ isRequired required (ID (Right e)))
  then e :: eligibleEdges required edges
  else eligibleEdges required edges.
Proof. unfold eligibleEdges. by rewrite filter_cons. Qed.

Lemma eligibleEdges_all edges : eligibleEdges None edges = edges.
Proof.
  induction edges as [|e edges IH]; [done|].
  rewrite eligibleEdges_cons, IH. by rewrite decide_True.
Qed.

Lemma elem_of_eligibleEdges required edges e :
  e ∈ eligibleEdges required edges ↔
  e ∈ edges ∧ isRequired required (ID (Left e))
  ∧ isRequired required (ID (Right e)).
Proof. unfold eligibleEdges. rewrite list_elem_of_filter. naive_solver. Qed.

(** The adjacency loop, from any state. *)
Lemma foldl_bookEdge required edges :
  ∀ st,
    let st' := foldl (bookEdge required) st edges in
    (∀ v, getZ (inDegree st') v
          = getZ (inDegree st) v
            + Z.of_nat (length (filter (fun e => ID (Right e) = v)
                                  (eligibleEdges required edges))))
    ∧ (∀ u, getL (outEdges st') u
            = getL (outEdges st) u ++ dependents (eligibleEdges required edges) u)
    ∧ completed st' = completed st.
Proof.
  induction edges as [|e edges IH]; intros st; cbn [foldl].
  - split_and!; [intros v; cbn; lia|intros u; by rewrite app_nil_r|done].
  - destruct (IH (bookEdge required st e)) as (HZ & HL & HC).
    rewrite eligibleEdges_cons. unfold bookEdge in *.
    destruct (decide (isRequired required (ID (Left e))
                      ∧ isRequired required (ID (Right e)))) as [Hreq|Hreq].
    + split_and!.
      * intros v. rewrite HZ. cbn [inDegree]. rewrite getZ_insert, filter_cons.
        destruct (decide (ID (Right e) = v)) as [->|Hne]; cbn [length]; lia.
      * intros u. rewrite HL. cbn [outEdges]. rewrite getL_insert.
        unfold dependents. rewrite filter_cons.
        destruct (decide (ID (Left e) = u)) as [->|Hne]; [|done].
        rewrite fmap_cons. by rewrite <-app_assoc.
      * by rewrite HC.
    + done.
Qed.

(** The maps the loop starts from satisfy the invariant, nothing being
    completed. *)
Lemma initState_ok required nodes edges :
  booksOK (eligibleEdges required edges) (initState required nodes edges)
  ∧ completed (initState required nodes edges) = ∅.
Proof.
  unfold initState.
  destruct (foldl_bookEdge required edges
              (mkRunState (initInDegree required nodes) ∅ ∅))
    as (HZ & HL & HC).
  cbn [inDegree outEdges completed] in *. split; [split|done].
  - intros v. rewrite HZ, HC, getZ_initInDegree. unfold pending.
    rewrite Z.add_0_l. do 2 f_equal. apply list_filter_iff.
    intros e. set_solver.
  - intros u. rewrite HL. unfold getL at 1. by rewrite lookup_empty.
Qed.

End Books.

(** ** One goroutine's bookkeeping, and a whole wave's *)

Section Waves.
Context {F : Type}.
Implicit Types (E edges : list (TEdge F)) (nodes wave : list (TNode F))
  (st : RunState F) (required : option (gset string)).

Lemma getZ_decrementAll (deps : list (TNode F)) :
  ∀ m v, getZ (decrementAll m deps) v
         = getZ m v - Z.of_nat (length (filter (fun d => ID d = v) deps)).
Proof.
  induction deps as [|d deps IH]; intros m v; cbn [decrementAll foldl].
  - cbn. lia.
  - fold (decrementAll (<[ID d := getZ m (ID d) - 1]> m) deps).
    rewrite IH, getZ_insert, filter_cons.
    destruct (decide (ID d = v)) as [->|Hne]; cbn [length]; lia.
Qed.

Lemma dependents_count E u v :
  length (filter (fun d => ID d = v) (dependents E u)) = countEdges E u v.
Proof.
  unfold dependents, countEdges.
  induction E as [|e E IH]; [done|].
  rewrite !filter_cons.
  destruct (decide (ID (Left e) = u)) as [Hl|Hl].
  - rewrite fmap_cons, filter_cons.
    destruct (decide (ID (Right e) = v)) as [Hr|Hr].
    + rewrite decide_True by done. cbn [length]. by rewrite IH.
    + rewrite decide_False by naive_solver. done.
  - rewrite decide_False by naive_solver. done.
Qed.

Lemma pending_complete E (done : gset string) u v :
  u ∉ done →
  pending E done v = (pending E ({[u]} ∪ done) v + countEdges E u v)%nat.
Proof.
  intros Hu. unfold pending, countEdges.
  induction E as [|e E IH]; [done|].
  rewrite !filter_cons.
  destruct (decide (ID (Right e) = v)) as [Hr|Hr].
  - destruct (decide (ID (Left e) = u)) as [Hl|Hl].
    + rewrite decide_True by (rewrite Hl; done).
      rewrite decide_False by (rewrite Hl; set_solver).
      rewrite decide_True by done. cbn [length]. lia.
    + rewrite (decide_False (P := _ = u ∧ _)) by naive_solver.
      destruct (decide (ID (Left e) ∈ done)) as [Hin|Hin].
      * rewrite !decide_False by set_solver. done.
      * rewrite !decide_True by set_solver. cbn [length]. lia.
  - rewrite !decide_False by naive_solver. done.
Qed.

(** The section under the lock keeps the invariant. *)
Lemma finishNode_ok E st (n : TNode F) :
  booksOK E st → ID n ∉ completed st → booksOK E (finishNode st n).
Proof.
  intros [HZ HL] Hn. split; cbn [finishNode inDegree outEdges completed].
  - intros v. rewrite getZ_decrementAll, HL, dependents_count, HZ.
    rewrite (pending_complete E (completed st) (ID n) v Hn). lia.
  - done.
Qed.

Lemma finishNode_completed st (n : TNode F) :
  completed (finishNode st n) = {[ID n]} ∪ completed st.
Proof. done. Qed.

Lemma wave_completed wave :
  ∀ st, completed (foldl finishNode st wave)
        = list_to_set (ID <$> wave) ∪ completed st.
Proof.
  induction wave as [|n wave IH]; intros st; cbn [foldl].
  - cbn. set_solver.
  - rewrite IH, finishNode_completed. cbn. set_solver.
Qed.

(** A wave of nodes with distinct, uncompleted identifiers keeps the
    invariant. *)
Lemma wave_ok E wave :
  ∀ st, booksOK E st → NoDup (ID <$> wave) →
        (∀ n, n ∈ wave → ID n ∉ completed st) →
        booksOK E (foldl finishNode st wave).
Proof.
  induction wave as [|n wave IH]; intros st Hok Hnd Hfresh; [done|].
  cbn [foldl]. rewrite fmap_cons in Hnd. apply NoDup_cons in Hnd as [Hn Hnd].
  apply IH; [|done|].
  - apply finishNode_ok; [done|]. apply Hfresh. left.
  - intros m Hm. rewrite finishNode_completed.
    intros [Heq%elem_of_singleton|Hin]%elem_of_union.
    + apply Hn. rewrite <-Heq. by apply list_elem_of_fmap_2.
    + eapply Hfresh; [|done]. by right.
Qed.

(** X7: the sections two goroutines of a wave run under [completedMux]
    commute: whichever takes the lock first, every counter, every adjacency
    list and the completed set end up the same. *)
Theorem X7_bookkeeping_of_a_wave_commutes st (a b : TNode F) (v : string) :
  getZ (inDegree (finishNode (finishNode st a) b)) v
  = getZ (inDegree (finishNode (finishNode st b) a)) v
  ∧ outEdges (finishNode (finishNode st a) b)
    = outEdges (finishNode (finishNode st b) a)
  ∧ completed (finishNode (finishNode st a) b)
    = completed (finishNode (finishNode st b) a).
Proof.
  cbn [finishNode inDegree outEdges completed]. split_and!; [|done|set_solver].
  rewrite !getZ_decrementAll. lia.
Qed.

Lemma elem_of_availableNodes required nodes st (n : TNode F) :
  n ∈ availableNodes required nodes st ↔
  n ∈ nodes ∧ isRequired required (ID n) ∧ (ID n ∉ completed st)
  ∧ getZ (inDegree st) (ID n) = 0.
Proof. unfold availableNodes. rewrite list_elem_of_filter. naive_solver. Qed.

Lemma NoDup_fmap_filter {A B} (f : A → B) (P : A → Prop)
    `{∀ x, Decision (P x)} (l : list A) :
  NoDup (f <$> l) → NoDup (f <$> filter P l).
Proof.
  induction l as [|x l IH]; [done|].
  rewrite fmap_cons, NoDup_cons. intros [Hx Hnd].
  rewrite filter_cons. destruct (decide (P x)); [|by apply IH].
  rewrite fmap_cons. apply NoDup_cons. split; [|by apply IH].
  intros (y & Hy & [_ Hin]%list_elem_of_filter)%list_elem_of_fmap.
  apply Hx. rewrite Hy. by apply list_elem_of_fmap_2.
Qed.

Lemma uniqueIDs_inj nodes (n m : TNode F) :
  uniqueIDs nodes → n ∈ nodes → m ∈ nodes → ID n = ID m → n = m.
Proof.
  unfold uniqueIDs. induction nodes as [|x nodes IH]; intros Hnd Hn Hm Heq.
  { by apply elem_of_nil in Hn. }
  rewrite fmap_cons in Hnd. apply NoDup_cons in Hnd as [Hx Hnd].
  apply elem_of_cons in Hn as [->|Hn]; apply elem_of_cons in Hm as [->|Hm].
  - done.
  - destruct Hx. rewrite Heq. by apply list_elem_of_fmap_2.
  - destruct Hx. rewrite <-Heq. by apply list_elem_of_fmap_2.
  - by apply IH.
Qed.

End Waves.

(** ** Acyclic graphs have a node without pending dependencies *)

Section Progress.
Context {F : Type}.
Implicit Types (E edges : list (TEdge F)) (nodes : list (TNode F))
  (st : RunState F) (required : option (gset string)).

(** A dependency chain inside [S] grows until it closes a cycle. *)
Lemma chain_closes E (S : list string) (k : nat) :
  (∀ v, v ∈ S → ∃ u, u ∈ S ∧ edgeRel E u v) →
  ∀ (l : list string) (h : string),
    (length S - length l ≤ k)%nat → NoDup l → (∀ x, x ∈ l → x ∈ S) →
    h ∈ l → (∀ x, x ∈ l → rtc (edgeRel E) h x) →
    ∃ a, tc (edgeRel E) a a.
Proof.
  intros Hpred. induction k as [|k IH]; intros l h Hlen Hnd Hsub Hh Hchain.
  - destruct (Hpred h (Hsub h Hh)) as (u & HuS & Hedge).
    destruct (decide (u ∈ l)) as [Hul|Hul].
    + exists u. eapply tc_rtc_r; [by apply tc_once|by apply Hchain].
    + assert (NoDup (u :: l)) as Hnd' by by apply NoDup_cons.
      assert (u :: l ⊆+ S) as Hsm.
      { apply NoDup_submseteq; [done|].
        intros x [->|?]%elem_of_cons; [done|by apply Hsub]. }
      apply submseteq_length in Hsm. cbn [length] in Hsm. lia.
  - destruct (Hpred h (Hsub h Hh)) as (u & HuS & Hedge).
    destruct (decide (u ∈ l)) as [Hul|Hul].
    + exists u. eapply tc_rtc_r; [by apply tc_once|by apply Hchain].
    + apply (IH (u :: l) u).
      * cbn [length]. lia.
      * by apply NoDup_cons.
      * intros x [->|?]%elem_of_cons; [done|by apply Hsub].
      * left.
      * intros x [->|Hx]%elem_of_cons; [apply rtc_refl|].
        eapply rtc_l; [done|by apply Hchain].
Qed.

Lemma no_source_cycle E (S : list string) :
  S ≠ [] → (∀ v, v ∈ S → ∃ u, u ∈ S ∧ edgeRel E u v) →
  ∃ a, tc (edgeRel E) a a.
Proof.
  intros Hne Hpred. destruct S as [|h S]; [done|].
  apply (chain_closes E (h :: S) (length (h :: S)) Hpred [h] h).
  - cbn [length]. lia.
  - apply NoDup_singleton.
  - intros x ->%list_elem_of_singleton. left.
  - left.
  - intros x ->%list_elem_of_singleton. apply rtc_refl.
Qed.

Lemma edgeRel_sub E E' a b :
  (∀ e, e ∈ E → e ∈ E') → edgeRel E a b → edgeRel E' a b.
Proof. intros Hsub (e & He & ? & ?). exists e. auto. Qed.

Lemma acyclic_sub E E' :
  (∀ e, e ∈ E → e ∈ E') → acyclic E' → acyclic E.
Proof.
  intros Hsub Hac a Ha. apply (Hac a).
  assert (∀ x y, tc (edgeRel E) x y → tc (edgeRel E') x y) as Hmono.
  { induction 1 as [x y Hxy|x y z Hxy _ IH].
    - apply tc_once. exact (edgeRel_sub _ _ _ _ Hsub Hxy).
    - eapply tc_l; [exact (edgeRel_sub _ _ _ _ Hsub Hxy)|done]. }
  by apply Hmono.
Qed.

Lemma pending_pos E (done : gset string) v :
  pending E done v ≠ O →
  ∃ e, e ∈ E ∧ ID (Right e) = v ∧ ID (Left e) ∉ done.
Proof.
  unfold pending. intros Hpos.
  destruct (filter _ E) as [|e l] eqn:Hf; [done|].
  assert (e ∈ filter (fun e => ID (Right e) = v ∧ ID (Left e) ∉ done) E) as He.
  { rewrite Hf. left. }
  apply list_elem_of_filter in He as [[? ?] ?]. eauto.
Qed.

Lemma pending_zero E (done : gset string) v e :
  pending E done v = O → e ∈ E → ID (Right e) = v → ID (Left e) ∈ done.
Proof.
  unfold pending. intros Hz He Hr.
  destruct (decide (ID (Left e) ∈ done)) as [|Hl]; [done|].
  assert (e ∈ filter (fun e => ID (Right e) = v ∧ ID (Left e) ∉ done) E) as Hin.
  { apply list_elem_of_filter. done. }
  apply length_zero_iff_nil in Hz. rewrite Hz in Hin.
  by apply elem_of_nil in Hin.
Qed.

(** When the scan finds no available node although the graph among the
    eligible edges is acyclic, every required node has completed. *)
Lemma no_available_all_completed required nodes E st :
  acyclic E →
  (∀ e, e ∈ E → registered nodes (ID (Left e))
                ∧ isRequired required (ID (Left e))) →
  booksOK E st →
  availableNodes required nodes st = [] →
  ∀ n, n ∈ nodes → isRequired required (ID n) → ID n ∈ completed st.
Proof.
  intros Hac Hreg [HZ _] Hnone.
  set (S := ID <$> filter (fun n => isRequired required (ID n)
                                    ∧ ID n ∉ completed st) nodes).
  destruct (decide (S = [])) as [HS|HS].
  - intros n Hn Hreq.
    destruct (decide (ID n ∈ completed st)) as [|Hnc]; [done|].
    assert (ID n ∈ S) as Hin.
    { apply list_elem_of_fmap_2, list_elem_of_filter. done. }
    rewrite HS in Hin. by apply elem_of_nil in Hin.
  - destruct (no_source_cycle E S HS) as [a Ha]; [|by destruct (Hac a)].
    intros v (n & -> & [[Hreq Hnc] Hn]%list_elem_of_filter)%list_elem_of_fmap.
    assert (getZ (inDegree st) (ID n) ≠ 0) as Hdeg.
    { intros Hz.
      assert (n ∈ availableNodes required nodes st) as Hav.
      { apply elem_of_availableNodes. done. }
      rewrite Hnone in Hav. by apply elem_of_nil in Hav. }
    rewrite HZ in Hdeg.
    destruct (pending_pos E (completed st) (ID n)) as (e & He & Hr & Hl); [lia|].
    destruct (Hreg e He) as [(m & Hm & Hmn)%list_elem_of_fmap Hreqm].
    exists (ID (Left e)). split; [|by exists e].
    rewrite Hm. apply list_elem_of_fmap_2, list_elem_of_filter.
    rewrite <-Hm. done.
Qed.

End Progress.

(** ** The loop when every closure completes: it terminates, and on an
    acyclic graph it runs every required node once, after its
    dependencies *)

Section Loop.
Context {F : Type}.
Implicit Types (E edges : list (TEdge F)) (nodes : list (TNode F))
  (st : RunState F) (required : option (gset string)).

Lemma filter_none {A} (P : A → Prop) `{∀ x, Decision (P x)} (l : list A) :
  (∀ x, x ∈ l → ¬ P x) → filter P l = [].
Proof.
  intros Hno. destruct (filter P l) as [|x l'] eqn:Hf; [done|].
  assert (x ∈ filter P l) as [HP Hx]%list_elem_of_filter by (rewrite Hf; left).
  by destruct (Hno x Hx).
Qed.

(** A wave that is not empty completes an identifier that had not. *)
Lemma wave_progress required nodes st (a : TNode F) av :
  availableNodes required nodes st = a :: av →
  (incomplete nodes (foldl finishNode st (a :: av)) < incomplete nodes st)%nat.
Proof.
  intros Hav.
  assert (a ∈ availableNodes required nodes st) as Ha by (rewrite Hav; left).
  apply elem_of_availableNodes in Ha as (Ha & _ & Hnc & _).
  unfold incomplete. apply (filter_length_lt _ _ _ a); [|done|done|].
  - intros n _. rewrite wave_completed. set_solver.
  - rewrite wave_completed. intros Hn. apply Hn.
    rewrite fmap_cons. set_solver.
Qed.

(** [idealLoop] never exhausts a budget larger than the number of
    incomplete nodes, whatever the graph. *)
Lemma idealLoop_total required nodes :
  ∀ fuel st, (incomplete nodes st < fuel)%nat →
             (idealLoop fuel required nodes st).1 ≠ LoopNoFuel.
Proof.
  induction fuel as [|fuel IH]; intros st Hfuel; [lia|].
  cbn [idealLoop].
  destruct (availableNodes required nodes st) as [|a av] eqn:Hav.
  - by destruct (remainingIDs required nodes st).
  - pose proof (wave_progress required nodes st a av Hav) as Hlt.
    specialize (IH (foldl finishNode st (a :: av)) ltac:(lia)).
    by destruct (idealLoop fuel required nodes (foldl finishNode st (a :: av))).
Qed.

Lemma remaining_none required nodes st :
  match required with
  | Some r => ∀ id, id ∈ r → registered nodes id
  | None => True
  end →
  (∀ n, n ∈ nodes → isRequired required (ID n) → ID n ∈ completed st) →
  remainingIDs required nodes st = [].
Proof.
  intros Hreg Hall. unfold remainingIDs. destruct required as [r|].
  - apply filter_none. intros id Hid%elem_of_elements Hnc.
    pose proof (Hreg id Hid) as Hr. unfold registered in Hr.
    apply list_elem_of_fmap in Hr as (n & -> & Hn).
    apply Hnc. by apply Hall.
  - apply filter_none. intros id (n & -> & Hn)%list_elem_of_fmap Hnc.
    apply Hnc. by apply Hall.
Qed.

Lemma idealLoop_correct required nodes E :
  uniqueIDs nodes → acyclic E →
  (∀ e, e ∈ E → registered nodes (ID (Left e))
                ∧ isRequired required (ID (Left e))) →
  match required with
  | Some r => ∀ id, id ∈ r → registered nodes id
  | None => True
  end →
  ∀ fuel st (done : list string),
    booksOK E st → (∀ x, x ∈ completed st ↔ x ∈ done) →
    (incomplete nodes st < fuel)%nat →
    ∃ waves,
      idealLoop fuel required nodes st = (LoopExit, waves)
      ∧ NoDup (ID <$> concat waves)
      ∧ (∀ n, n ∈ concat waves ↔
              n ∈ nodes ∧ isRequired required (ID n) ∧ ID n ∉ completed st)
      ∧ wavesOrdered E done waves.
Proof.
  intros Huniq Hac Hreg Hreq.
  induction fuel as [|fuel IH]; intros st done Hok Hdone Hfuel; [lia|].
  cbn [idealLoop].
  destruct (availableNodes required nodes st) as [|a av] eqn:Hav.
  - pose proof (no_available_all_completed required nodes E st
                  Hac Hreg Hok Hav) as Hall.
    rewrite (remaining_none required nodes st Hreq Hall).
    exists []. split_and!; [done|constructor| |done].
    intros n. split; [by intros ?%elem_of_nil|].
    intros (Hn & Hr & Hnc). destruct Hnc. by apply Hall.
  - set (wave := a :: av) in *. set (st' := foldl finishNode st wave).
    assert (Hwave : ∀ n, n ∈ wave ↔
              n ∈ nodes ∧ isRequired required (ID n) ∧ (ID n ∉ completed st)
              ∧ getZ (inDegree st) (ID n) = 0).
    { intros n. rewrite <-Hav. apply elem_of_availableNodes. }
    assert (Hnd : NoDup (ID <$> wave)).
    { rewrite <-Hav. unfold availableNodes. by apply NoDup_fmap_filter. }
    assert (Hok' : booksOK E st').
    { apply wave_ok; [done|done|]. intros n Hn. by apply Hwave in Hn as (?&?&?&?). }
    assert (Hc' : completed st' = list_to_set (ID <$> wave) ∪ completed st).
    { apply wave_completed. }
    pose proof (wave_progress required nodes st a av Hav) as Hlt.
    fold wave in Hlt. fold st' in Hlt.
    destruct (IH st' (done ++ (ID <$> wave)) Hok') as (waves & -> & Hnd' & Hmem & Hord).
    { intros x. rewrite Hc', elem_of_union, elem_of_list_to_set, elem_of_app, Hdone.
      tauto. }
    { lia. }
    exists (wave :: waves). split_and!; [done| | |].
    + cbn [concat]. rewrite fmap_app. apply NoDup_app. split_and!; [done| |done].
      intros x (n & -> & Hn)%list_elem_of_fmap (m & Hm & Hmin)%list_elem_of_fmap.
      apply Hmem in Hmin as (_ & _ & Hmc). apply Hmc.
      rewrite Hc', <-Hm. apply elem_of_union. left.
      apply elem_of_list_to_set. by apply list_elem_of_fmap_2.
    + intros n. cbn [concat]. rewrite elem_of_app, Hwave, Hmem, Hc'. split.
      * intros [(?&?&?&?)|(?&?&Hnc)]; [done|].
        split_and!; [done|done|]. intros Hin. apply Hnc. set_solver.
      * intros (Hn & Hr & Hnc).
        destruct (decide (ID n ∈ completed st')) as [Hin|Hin].
        -- left. rewrite Hc' in Hin.
           apply elem_of_union in Hin as [Hin|Hin]; [|done].
           apply elem_of_list_to_set in Hin.
           apply list_elem_of_fmap in Hin as (m & Hmn & Hm).
           pose proof Hm as Hm'. apply Hwave in Hm' as (Hmn' & ? & ? & ?).
           assert (n = m) as -> by exact (uniqueIDs_inj nodes n m Huniq Hn Hmn' Hmn).
           done.
        -- right. split_and!; try done. by rewrite <-Hc'.
    + cbn [wavesOrdered]. split; [|done].
      intros n e Hn He Hr. apply Hdone.
      apply Hwave in Hn as (_ & _ & _ & Hz).
      destruct Hok as [HZ _]. rewrite HZ in Hz.
      eapply pending_zero; [|done|done]. lia.
Qed.

End Loop.

(** ** Reading traces *)

Section Traces.
Context {F : Type}.
Implicit Types (trace : list (Step F)) (waves : list (list (TNode F))).

Lemma traceCalls_app {X} (proj : Call F → list X) trace1 trace2 :
  traceCalls proj (trace1 ++ trace2)
  = traceCalls proj trace1 ++ traceCalls proj trace2.
Proof. unfold traceCalls. apply bind_app. Qed.

Lemma bind_const_nil {A B} (l : list A) : l ≫= (fun _ => @nil B) = [].
Proof. induction l as [|x l IH]; [done|]. by rewrite bind_cons, IH. Qed.

Lemma bind_singleton {A} (l : list A) : l ≫= (fun x => [x]) = l.
Proof. induction l as [|x l IH]; [done|]. by rewrite bind_cons, IH. Qed.

Lemma traceCalls_seq {X} (proj : Call F → list X) (mk : F → Call F)
    (fns : list F) :
  traceCalls proj (Seq ∘ mk <$> fns) = fns ≫= (fun fn => proj (mk fn)).
Proof.
  unfold traceCalls. induction fns as [|fn fns IH]; [done|].
  by rewrite fmap_cons, !bind_cons, IH.
Qed.

Lemma bind_nil_all {A B} (f : A → list B) (l : list A) :
  (∀ x, x ∈ l → f x = []) → l ≫= f = [].
Proof.
  induction l as [|x l IH]; intros H; [done|].
  rewrite bind_cons, H, IH; [done| |left]. intros y Hy. apply H. by right.
Qed.

Lemma elem_of_callsMade {X} (e : End) (calls : list X) x :
  x ∈ callsMade e calls → x ∈ calls.
Proof.
  destruct e as [| |k]; cbn [callsMade]; [done| |].
  - by intros ?%elem_of_nil.
  - intros [i [Hi _]%lookup_take_Some]%list_elem_of_lookup.
    by eapply list_elem_of_lookup_2.
Qed.

Lemma elem_of_closure before after (n : TNode F) c :
  c ∈ closure before after n →
  (∃ fn, c = CallBeforeEach fn ∧ fn ∈ before) ∨ c = CallNode n
  ∨ (∃ fn, c = CallAfterEach fn ∧ fn ∈ after).
Proof.
  unfold closure. rewrite elem_of_app, elem_of_cons, !list_elem_of_fmap.
  naive_solver.
Qed.

(** The calls of a closure that runs to its end. *)
Lemma closure_calls {X} (proj : Call F → list X) before after (n : TNode F) :
  (∀ fn, proj (CallBeforeEach fn) = []) →
  (∀ fn, proj (CallAfterEach fn) = []) →
  closure before after n ≫= proj = proj (CallNode n).
Proof.
  intros Hb Ha. unfold closure. rewrite bind_app, bind_cons.
  assert (∀ (mk : F → Call F) (l : list F),
            (∀ fn, proj (mk fn) = []) → (mk <$> l) ≫= proj = []) as Hnil.
  { intros mk l Hmk. induction l as [|x l IH]; [done|].
    by rewrite fmap_cons, bind_cons, Hmk, IH. }
  rewrite !Hnil by done. by rewrite app_nil_r.
Qed.

(** What the wave goroutines never call. *)
Lemma traceCalls_waves_nil {X} (proj : Call F → list X) before after
    (tagged : list (list (TNode F * End))) :
  (∀ fn, proj (CallBeforeEach fn) = []) →
  (∀ fn, proj (CallAfterEach fn) = []) →
  (∀ n, proj (CallNode n) = []) →
  traceCalls proj (wavesTrace before after tagged) = [].
Proof.
  intros Hb Ha Hn. unfold traceCalls, wavesTrace. apply bind_nil_all.
  intros step (wave & -> & _)%list_elem_of_fmap. cbn [stepCalls].
  apply bind_nil_all. intros g (t & -> & _)%list_elem_of_fmap.
  cbn [goroutine snd]. apply bind_nil_all.
  intros c [(fn & -> & _)|[->|(fn & -> & _)]]%elem_of_callsMade%elem_of_closure;
    auto.
Qed.

Lemma traceCalls_waves {X} (proj : Call F → list X) before after waves :
  (∀ fn, proj (CallBeforeEach fn) = []) →
  (∀ fn, proj (CallAfterEach fn) = []) →
  traceCalls proj (wavesTrace before after (allComplete waves))
  = concat waves ≫= (fun n => proj (CallNode n)).
Proof.
  intros Hb Ha. unfold traceCalls, wavesTrace, allComplete.
  induction waves as [|wave waves IH]; [done|].
  rewrite !fmap_cons, bind_cons, IH. cbn [concat]. rewrite bind_app. f_equal.
  cbn [stepCalls]. induction wave as [|n wave IHw]; [done|].
  rewrite !fmap_cons, !bind_cons, IHw. cbn [goroutine fst snd callsMade].
  by rewrite closure_calls.
Qed.

Lemma traceNodes_waves before after waves :
  traceNodes (wavesTrace before after (allComplete waves)) = concat waves.
Proof.
  unfold traceNodes. rewrite traceCalls_waves by done. apply bind_singleton.
Qed.

Lemma traceNodes_app trace1 trace2 :
  traceNodes (trace1 ++ trace2) = traceNodes trace1 ++ traceNodes trace2.
Proof. apply traceCalls_app. Qed.

Lemma traceNodes_seq (mk : F → Call F) (fns : list F) :
  (∀ fn, callNodes (mk fn) = []) → traceNodes (Seq ∘ mk <$> fns) = [].
Proof.
  intros Hmk. unfold traceNodes. rewrite traceCalls_seq.
  induction fns as [|fn fns IH]; [done|]. by rewrite bind_cons, Hmk, IH.
Qed.

Lemma traceWaves_app trace1 trace2 :
  traceWaves (trace1 ++ trace2) = traceWaves trace1 ++ traceWaves trace2.
Proof. unfold traceWaves. apply omap_app. Qed.

Lemma traceWaves_seq (mk : F → Call F) (fns : list F) :
  traceWaves (Seq ∘ mk <$> fns) = [].
Proof. induction fns as [|fn fns IH]; [done|]. by rewrite fmap_cons. Qed.

(** The waves of a trace are the waves of the loop. *)
Lemma traceWaves_tagged before after (tagged : list (list (TNode F * End))) :
  traceWaves (wavesTrace before after tagged)
  = (fun wave : list (TNode F * End) => wave.*1) <$> tagged.
Proof.
  unfold traceWaves, wavesTrace.
  induction tagged as [|wave tagged IH]; [done|].
  rewrite !fmap_cons. cbn [omap list_omap]. rewrite IH. f_equal.
  rewrite <-list_fmap_compose. by apply list_fmap_ext.
Qed.

Lemma traceWaves_waves before after waves :
  traceWaves (wavesTrace before after (allComplete waves)) = waves.
Proof.
  rewrite traceWaves_tagged. unfold allComplete.
  rewrite <-list_fmap_compose. rewrite <-(list_fmap_id waves) at 2.
  apply list_fmap_ext. intros _ wave _. cbn.
  rewrite <-list_fmap_compose. rewrite <-(list_fmap_id wave) at 2.
  by apply list_fmap_ext.
Qed.

(** The hook loops of the calling goroutine. *)
Lemma hookCalls_all (mk : F → Call F) (fns : list F) leaves :
  hookLeft fns leaves = false → hookCalls mk fns leaves = Seq ∘ mk <$> fns.
Proof.
  unfold hookLeft, hookCalls. destruct leaves as [i|]; [|done].
  by destruct fns.
Qed.

Lemma hookCalls_seq (mk : F → Call F) (fns : list F) leaves :
  ∃ made, hookCalls mk fns leaves = Seq ∘ mk <$> made.
Proof. unfold hookCalls. by eexists. Qed.

(** With every closure complete, the loop is [idealLoop]. *)
Lemma startWave_allComplete (ends : nat → nat → End) pass (l : list (TNode F)) :
  (∀ slot, ends pass slot = Completes) →
  startWave ends pass l = (fun n => (n, Completes)) <$> l.
Proof.
  intros H. unfold startWave.
  rewrite (imap_ext _ (fun _ n => (n, Completes))); [apply imap_const|].
  intros slot n _. cbn. by rewrite H.
Qed.

Lemma finished_allComplete (l : list (TNode F)) :
  finished ((fun n => (n, Completes)) <$> l) = l.
Proof.
  unfold finished. induction l as [|n l IH]; [done|].
  rewrite fmap_cons, filter_cons, decide_True by done.
  rewrite fmap_cons. by f_equal.
Qed.

Lemma runLoop_allComplete (ends : nat → nat → End) required
    (nodes : list (TNode F)) :
  (∀ pass slot, ends pass slot = Completes) →
  ∀ fuel pass st,
    runLoop ends fuel pass required nodes st
    = ((idealLoop fuel required nodes st).1,
       allComplete (idealLoop fuel required nodes st).2).
Proof.
  intros H. induction fuel as [|fuel IH]; intros pass st; [done|].
  cbn [runLoop idealLoop].
  destruct (availableNodes required nodes st) as [|a av].
  { by destruct (remainingIDs required nodes st). }
  rewrite startWave_allComplete, finished_allComplete, IH by done.
  by destruct (idealLoop fuel required nodes (foldl finishNode st (a :: av))).
Qed.

End Traces.

(** ** Node lookup *)

Section Lookup.
Context {F : Type}.
Implicit Types (nodes : list (TNode F)).

Lemma findNode_None nodes id :
  findNode nodes id = None ↔ ¬ registered nodes id.
Proof.
  unfold registered. induction nodes as [|n nodes IH]; cbn [findNode].
  - split; [intros _ H; by apply elem_of_nil in H|done].
  - rewrite fmap_cons, not_elem_of_cons.
    destruct (decide (ID n = id)) as [Heq|Hne]; [naive_solver|].
    rewrite IH. naive_solver.
Qed.

Lemma findNode_is_Some nodes id :
  is_Some (findNode nodes id) ↔ registered nodes id.
Proof.
  pose proof (findNode_None nodes id) as Hnone.
  destruct (findNode nodes id) as [n|].
  - split; [|by eauto]. intros _.
    destruct (decide (registered nodes id)) as [|Hno]; [done|].
    apply Hnone in Hno. done.
  - split; [by intros [? ?]|]. intros Hreg. by destruct (proj1 Hnone).
Qed.

(** [findNodeByID] returns the first node of the slice with the
    identifier. *)
Lemma findNode_first nodes id (n : TNode F) :
  findNode nodes id = Some n ↔ ∃ i, firstAt nodes id i n.
Proof.
  unfold firstAt. induction nodes as [|x nodes IH]; cbn [findNode].
  - split; [done|]. by intros (i & Hi & _).
  - destruct (decide (ID x = id)) as [Heq|Hne].
    + split.
      * intros [= ->]. exists O. split_and!; [done|done|]. intros j m Hj. lia.
      * intros ([|i] & Hi & Hid & Hfirst).
        -- by injection Hi as ->.
        -- by destruct (Hfirst O x ltac:(lia) eq_refl).
    + rewrite IH. split.
      * intros (i & Hi & Hid & Hfirst). exists (S i). split_and!; [done|done|].
        intros [|j] m Hj Hm; [by injection Hm as <-|].
        apply (Hfirst j m); [lia|done].
      * intros ([|i] & Hi & Hid & Hfirst).
        -- injection Hi as ->. done.
        -- exists i. split_and!; [done|done|].
           intros j m Hj Hm. apply (Hfirst (S j) m); [lia|done].
Qed.

End Lookup.

(** ** Acyclicity from a rank *)

Lemma acyclic_by_rank {F : Type} (edges : list (TEdge F)) (rank : string → nat) :
  Forall (fun e => (rank (ID (Left e)) < rank (ID (Right e)))%nat) edges →
  acyclic edges.
Proof.
  intros Hrank a Ha.
  assert (∀ x y, tc (edgeRel edges) x y → (rank x < rank y)%nat) as Hlt.
  { induction 1 as [x y (e & He & <- & <-)|x y z (e & He & <- & <-) _ IH].
    - by apply (proj1 (Forall_forall _ _) Hrank).
    - pose proof (proj1 (Forall_forall _ _) Hrank e He). simpl in *. lia. }
  specialize (Hlt a a Ha). lia.
Qed.

Lemma edgesRegistered_Forall {F : Type} (nodes : list (TNode F))
    (edges : list (TEdge F)) :
  Forall (fun e => ID (Left e) ∈ ID <$> nodes ∧ ID (Right e) ∈ ID <$> nodes)
    edges →
  edgesRegistered nodes edges.
Proof. intros H e He. by apply (proj1 (Forall_forall _ _) H). Qed.

(** ** The two runs on an acyclic graph with distinct identifiers *)

Section Runs.
Context {F : Type}.
Implicit Types (nodes : list (TNode F)) (edges : list (TEdge F)).

Lemma incomplete_le nodes (st : RunState F) :
  (incomplete nodes st ≤ length nodes)%nat.
Proof. unfold incomplete. apply length_filter. Qed.

(** The loop of [RunTests]. *)
Lemma run_all_correct nodes edges (fuel : nat) :
  uniqueIDs nodes → edgesRegistered nodes edges → acyclic edges →
  (length nodes < fuel)%nat →
  ∃ waves,
    idealLoop fuel None nodes (initState None nodes edges)
    = (LoopExit, waves)
    ∧ concat waves ≡ₚ nodes
    ∧ wavesOrdered edges [] waves.
Proof.
  intros Huniq Hreg Hac Hfuel.
  destruct (initState_ok None nodes edges) as [Hok Hc].
  rewrite eligibleEdges_all in Hok.
  destruct (idealLoop_correct None nodes edges Huniq Hac) with
    (fuel := fuel) (st := initState None nodes edges)
    (done := @nil string)
    as (waves & Hrun & Hnd & Hmem & Hord); try done.
  - intros e He. split; [|done]. by apply Hreg.
  - intros x. rewrite Hc. set_solver.
  - pose proof (incomplete_le nodes (initState None nodes edges)). lia.
  - exists waves. split_and!; [done| |done].
    apply NoDup_Permutation.
    + by eapply NoDup_fmap_1.
    + by eapply NoDup_fmap_1.
    + intros n. rewrite Hmem, Hc. set_solver.
Qed.

Lemma reaches_registered nodes edges x t :
  edgesRegistered nodes edges → registered nodes t →
  reaches edges x t → registered nodes x.
Proof.
  intros Hreg Ht Hreach. destruct (rtc_inv _ _ Hreach) as [->|(y & (e & He & <- & _) & _)].
  - done.
  - by apply Hreg.
Qed.

(** The closure and the loop of [RunTo]. *)
Lemma run_to_correct nodes edges (target : string) (fuel : nat) :
  uniqueIDs nodes → edgesRegistered nodes edges → acyclic edges →
  registered nodes target →
  (length nodes < fuel)%nat →
  ∃ R waves,
    collectDependencies (S (length edges)) edges target ∅ = Some R
    ∧ idealLoop fuel (Some R) nodes (initState (Some R) nodes edges)
      = (LoopExit, waves)
    ∧ NoDup (concat waves)
    ∧ (∀ n, n ∈ concat waves ↔ n ∈ nodes ∧ reaches edges (ID n) target)
    ∧ wavesOrdered (eligibleEdges (Some R) edges) [] waves.
Proof.
  intros Huniq Hreg Hac Htarget Hfuel.
  destruct (collectDependencies_closure edges target) as (R & HR & HRiff).
  destruct (initState_ok (Some R) nodes edges) as [Hok Hc].
  destruct (idealLoop_correct (Some R) nodes (eligibleEdges (Some R) edges) Huniq)
    with (fuel := fuel) (st := initState (Some R) nodes edges)
         (done := @nil string)
    as (waves & Hrun & Hnd & Hmem & Hord); try done.
  - eapply acyclic_sub; [|done]. by intros e [? _]%elem_of_eligibleEdges.
  - intros e (He & Hl & _)%elem_of_eligibleEdges. split; [|done]. by apply Hreg.
  - intros id Hid%HRiff. by eapply reaches_registered.
  - intros x. rewrite Hc. set_solver.
  - pose proof (incomplete_le nodes (initState (Some R) nodes edges)). lia.
  - exists R, waves. split_and!; [done|done| | |done].
    + by eapply NoDup_fmap_1.
    + intros n. rewrite Hmem, Hc. cbn [isRequired]. rewrite HRiff. set_solver.
Qed.

(** When every call returns, the runs are those of [idealLoop]. *)
Lemma RunTests_allReturn fuel b (d : Tdag.TDag F) :
  allReturn b →
  Tdag.RunTests fuel b d
  = match idealLoop fuel None (Tdag.Nodes d)
            (initState None (Tdag.Nodes d) (Tdag.Edges d)) with
    | (LoopExit, waves) =>
        Finished (Tdag.waveSteps d (allComplete waves)
                    ++ (Seq ∘ CallTearDown <$> Tdag.TearDownFns d))
    | (LoopFatal remaining, waves) =>
        Fatal (FatalCycle remaining) (Tdag.waveSteps d (allComplete waves))
    | (LoopNoFuel, waves) => OutOfFuel (Tdag.waveSteps d (allComplete waves))
    end.
Proof.
  intros (Hs & Ht & Hc). unfold Tdag.RunTests.
  rewrite (runLoop_allComplete _ _ _ Hc), Ht.
  by destruct (idealLoop _ _ _ _) as [[|remaining|] waves].
Qed.

Lemma RunTo_allReturn fuel b (d : Tdag.TDag F) id :
  allReturn b →
  Tdag.RunTo fuel b d id
  = match Tdag.findNodeByID d id with
    | None => Fatal (FatalNodeMissing id) []
    | Some _ =>
        match collectDependencies (S (length (Tdag.Edges d))) (Tdag.Edges d)
                id ∅ with
        | None => OutOfFuel []
        | Some R =>
            let setup := Seq ∘ CallSetup <$> Tdag.SetupFns d in
            match idealLoop fuel (Some R) (Tdag.Nodes d)
                    (initState (Some R) (Tdag.Nodes d) (Tdag.Edges d)) with
            | (LoopExit, waves) =>
                Finished (setup ++ Tdag.waveSteps d (allComplete waves)
                            ++ (Seq ∘ CallTearDown <$> Tdag.TearDownFns d))
            | (LoopFatal remaining, waves) =>
                Fatal (FatalCycle remaining)
                  (setup ++ Tdag.waveSteps d (allComplete waves))
            | (LoopNoFuel, waves) =>
                OutOfFuel (setup ++ Tdag.waveSteps d (allComplete waves))
            end
        end
    end.
Proof.
  intros (Hs & Ht & Hc). unfold Tdag.RunTo.
  destruct (Tdag.findNodeByID d id); [|done].
  destruct (collectDependencies _ _ _ _) as [R|]; [|done].
  rewrite (runLoop_allComplete _ _ _ Hc), Hs, Ht.
  by destruct (idealLoop _ _ _ _) as [[|remaining|] waves].
Qed.

Lemma Dag_RunTests_allComplete {C} fuel ends (d : Dag.Dag C F) :
  (∀ pass slot, ends pass slot = Completes) →
  Dag.RunTests fuel ends d
  = match idealLoop fuel None (Dag.Nodes d)
            (initState None (Dag.Nodes d) (Dag.Edges d)) with
    | (LoopExit, waves) => Finished (wavesTrace [] [] (allComplete waves))
    | (LoopFatal remaining, waves) =>
        Fatal (FatalCycle remaining) (wavesTrace [] [] (allComplete waves))
    | (LoopNoFuel, waves) => OutOfFuel (wavesTrace [] [] (allComplete waves))
    end.
Proof.
  intros Hc. unfold Dag.RunTests. rewrite (runLoop_allComplete _ _ _ Hc).
  by destruct (idealLoop _ _ _ _) as [[|remaining|] waves].
Qed.

Lemma Dag_RunTo_allComplete {C} fuel ends (d : Dag.Dag C F) id :
  (∀ pass slot, ends pass slot = Completes) →
  Dag.RunTo fuel ends d id
  = match findNode (Dag.Nodes d) id with
    | None => Fatal (FatalNodeMissing id) []
    | Some _ =>
        match collectDependencies (S (length (Dag.Edges d))) (Dag.Edges d)
                id ∅ with
        | None => OutOfFuel []
        | Some R =>
            match idealLoop fuel (Some R) (Dag.Nodes d)
                    (initState (Some R) (Dag.Nodes d) (Dag.Edges d)) with
            | (LoopExit, waves) => Finished (wavesTrace [] [] (allComplete waves))
            | (LoopFatal remaining, waves) =>
                Fatal (FatalCycle remaining)
                  (wavesTrace [] [] (allComplete waves))
            | (LoopNoFuel, waves) =>
                OutOfFuel (wavesTrace [] [] (allComplete waves))
            end
        end
    end.
Proof.
  intros Hc. unfold Dag.RunTo.
  destruct (findNode (Dag.Nodes d) id); [|done].
  destruct (collectDependencies _ _ _ _) as [R|]; [|done].
  rewrite (runLoop_allComplete _ _ _ Hc).
  by destruct (idealLoop _ _ _ _) as [[|remaining|] waves].
Qed.

Lemma allReturn_returning : allReturn returning.
Proof. done. Qed.

End Runs.

(** ** C3 and C4: the closure run and the full run *)

(** C4, as amended: when every call of the run returns and [t.Run] skips
    no closure, on an acyclic graph whose edges join registered nodes and
    whose node identifiers are pairwise distinct, [RunTests] returns within
    [len(d.Nodes) + 1] passes of its loop, the node callbacks it called are
    the registered nodes, each once, and every dependency of a node of a
    wave completed in an earlier wave. *)
Theorem C4_RunTests_each_node_once_after_its_dependencies
    {F : Type} (fuel : nat) (b : Behaviour) (d : Tdag.TDag F) :
  allReturn b →
  (length (Tdag.Nodes d) < fuel)%nat →
  uniqueIDs (Tdag.Nodes d) →
  edgesRegistered (Tdag.Nodes d) (Tdag.Edges d) →
  acyclic (Tdag.Edges d) →
  ∃ trace,
    Tdag.RunTests fuel b d = Finished trace
    ∧ traceNodes trace ≡ₚ Tdag.Nodes d
    ∧ wavesOrdered (Tdag.Edges d) [] (traceWaves trace).
Proof.
  intros Hret Hfuel Huniq Hreg Hac.
  destruct (run_all_correct (Tdag.Nodes d) (Tdag.Edges d) fuel
              Huniq Hreg Hac Hfuel)
    as (waves & Hrun & Hperm & Hord).
  rewrite (RunTests_allReturn fuel b d Hret), Hrun. eexists. split; [done|].
  unfold Tdag.waveSteps.
  rewrite traceNodes_app, traceNodes_waves, traceNodes_seq, app_nil_r by done.
  rewrite traceWaves_app, traceWaves_waves, traceWaves_seq, app_nil_r.
  done.
Qed.

(** X18: the same loop in package dag, which has no hooks: when the
    callback of every node returns and [t.Run] skips no closure, on an
    acyclic graph whose edges join registered nodes and whose node
    identifiers are pairwise distinct, [RunTests] of package dag returns
    within [len(d.Nodes) + 1] passes, the node callbacks it called are the
    registered nodes, each once, and every dependency of a node of a wave
    completed in an earlier wave. *)
Theorem X18_Dag_RunTests_each_node_once_after_its_dependencies
    {C F : Type} (fuel : nat) (ends : nat → nat → End) (d : Dag.Dag C F) :
  (∀ pass slot, ends pass slot = Completes) →
  (length (Dag.Nodes d) < fuel)%nat →
  uniqueIDs (Dag.Nodes d) →
  edgesRegistered (Dag.Nodes d) (Dag.Edges d) →
  acyclic (Dag.Edges d) →
  ∃ trace,
    Dag.RunTests fuel ends d = Finished trace
    ∧ traceNodes trace ≡ₚ Dag.Nodes d
    ∧ wavesOrdered (Dag.Edges d) [] (traceWaves trace).
Proof.
  intros Hret Hfuel Huniq Hreg Hac.
  destruct (run_all_correct (Dag.Nodes d) (Dag.Edges d) fuel
              Huniq Hreg Hac Hfuel)
    as (waves & Hrun & Hperm & Hord).
  rewrite (Dag_RunTests_allComplete fuel ends d Hret), Hrun.
  eexists. split; [done|].
  by rewrite traceNodes_waves, traceWaves_waves.
Qed.

(** C3, as amended: when every call of the run returns and [t.Run] skips
    no closure, on an acyclic graph whose edges join registered nodes and
    whose node identifiers are pairwise distinct, [RunTo] of a registered
    target returns within [len(d.Nodes) + 1] passes of its loop, and the
    node callbacks it called are exactly the registered nodes from which
    the target is reachable (the target itself included), none twice. *)
Theorem C3_RunTo_runs_exactly_the_dependency_closure
    {F : Type} (fuel : nat) (b : Behaviour) (d : Tdag.TDag F)
    (target : string) :
  allReturn b →
  (length (Tdag.Nodes d) < fuel)%nat →
  uniqueIDs (Tdag.Nodes d) →
  edgesRegistered (Tdag.Nodes d) (Tdag.Edges d) →
  acyclic (Tdag.Edges d) →
  registered (Tdag.Nodes d) target →
  ∃ trace,
    Tdag.RunTo fuel b d target = Finished trace
    ∧ NoDup (traceNodes trace)
    ∧ ∀ n, n ∈ traceNodes trace ↔
           n ∈ Tdag.Nodes d ∧ reaches (Tdag.Edges d) (ID n) target.
Proof.
  intros Hret Hfuel Huniq Hreg Hac Htarget.
  destruct (run_to_correct (Tdag.Nodes d) (Tdag.Edges d) target fuel
              Huniq Hreg Hac Htarget Hfuel)
    as (R & waves & HR & Hrun & Hnd & Hmem & _).
  rewrite (RunTo_allReturn fuel b d target Hret). unfold Tdag.findNodeByID.
  apply findNode_is_Some in Htarget as [targetNode ->].
  rewrite HR. cbv zeta. rewrite Hrun. eexists. split; [done|].
  unfold Tdag.waveSteps.
  rewrite !traceNodes_app, traceNodes_waves, !traceNodes_seq, app_nil_r by done.
  done.
Qed.

Lemma chainABC_uniqueIDs : uniqueIDs (Tdag.Nodes Examples.chainABC).
Proof. unfold uniqueIDs. vm_compute. repeat constructor; set_solver. Defined.

Lemma chainABC_edgesRegistered :
  edgesRegistered (Tdag.Nodes Examples.chainABC) (Tdag.Edges Examples.chainABC).
Proof.
  apply edgesRegistered_Forall. vm_compute.
  repeat constructor; set_solver.
Defined.

Lemma chainABC_acyclic : acyclic (Tdag.Edges Examples.chainABC).
Proof.
  apply (acyclic_by_rank _ Examples.rankOf). vm_compute.
  repeat constructor.
Defined.

Lemma C4_witness_chainABC :
  ∃ trace,
    Tdag.RunTests 4 returning Examples.chainABC = Finished trace
    ∧ traceNodes trace ≡ₚ Tdag.Nodes Examples.chainABC
    ∧ wavesOrdered (Tdag.Edges Examples.chainABC) [] (traceWaves trace).
Proof.
  apply (C4_RunTests_each_node_once_after_its_dependencies
           4 returning Examples.chainABC).
  - exact allReturn_returning.
  - vm_compute. lia.
  - exact chainABC_uniqueIDs.
  - exact chainABC_edgesRegistered.
  - exact chainABC_acyclic.
Defined.

Lemma C3_witness_chainABC_RunTo_B :
  ∃ trace,
    Tdag.RunTo 4 returning Examples.chainABC "B" = Finished trace
    ∧ NoDup (traceNodes trace)
    ∧ ∀ n, n ∈ traceNodes trace ↔
           n ∈ Tdag.Nodes Examples.chainABC
           ∧ reaches (Tdag.Edges Examples.chainABC) (ID n) "B".
Proof.
  apply (C3_RunTo_runs_exactly_the_dependency_closure
           4 returning Examples.chainABC "B").
  - exact allReturn_returning.
  - vm_compute. lia.
  - exact chainABC_uniqueIDs.
  - exact chainABC_edgesRegistered.
  - exact chainABC_acyclic.
  - unfold registered. vm_compute. set_solver.
Defined.

(** The scenario of C3 itself: with A -> B -> C and callbacks that return,
    [RunTo("B")] calls A, then B, and never C. *)
Lemma RunTo_B_on_chainABC :
  Tdag.RunTo 4 returning Examples.chainABC "B"
  = Finished [Wave [(mkTNode "A" "fnA", [CallNode (mkTNode "A" "fnA")])];
              Wave [(mkTNode "B" "fnB", [CallNode (mkTNode "B" "fnB")])]].
Proof. vm_compute. reflexivity. Qed.

(** C3, the claim as stated, fails when two nodes share an identifier,
    even though every callback returns: the graph [twins] (nodes A, A, B;
    edge A -> B) is acyclic and B is registered, yet [RunTo("B")] calls
    both nodes named A, reports a dependency cycle with B remaining, and
    never calls B. *)
Lemma C3_fails_when_ids_repeat :
  acyclic (Tdag.Edges Examples.twins)
  ∧ edgesRegistered (Tdag.Nodes Examples.twins) (Tdag.Edges Examples.twins)
  ∧ registered (Tdag.Nodes Examples.twins) "B"
  ∧ allReturn returning
  ∧ Tdag.RunTo 4 returning Examples.twins "B"
    = Fatal (FatalCycle ["B"])
        [Wave [(mkTNode "A" "fnA1", [CallNode (mkTNode "A" "fnA1")]);
               (mkTNode "A" "fnA2", [CallNode (mkTNode "A" "fnA2")])]].
Proof.
  split_and!.
  - apply (acyclic_by_rank _ Examples.rankOf). vm_compute. repeat constructor.
  - apply edgesRegistered_Forall. vm_compute. repeat constructor; set_solver.
  - unfold registered. vm_compute. set_solver.
  - done.
  - vm_compute. reflexivity.
Qed.

(** C4, the claim as stated, fails when two nodes share an identifier,
    even though every callback returns: the graph [twinsRace] (nodes A, A,
    B, C, D; edges A -> C, B -> C, D -> B) is acyclic, yet [RunTests] puts
    C in the same wave as its dependency B, because each node named A
    decrements the in-degree of C. *)
Lemma C4_fails_when_ids_repeat :
  acyclic (Tdag.Edges Examples.twinsRace)
  ∧ edgesRegistered (Tdag.Nodes Examples.twinsRace)
      (Tdag.Edges Examples.twinsRace)
  ∧ allReturn returning
  ∧ Tdag.RunTests 6 returning Examples.twinsRace
    = Finished
        [Wave [(mkTNode "A" "fnA1", [CallNode (mkTNode "A" "fnA1")]);
               (mkTNode "A" "fnA2", [CallNode (mkTNode "A" "fnA2")]);
               (mkTNode "D" "fnD", [CallNode (mkTNode "D" "fnD")])];
         Wave [(mkTNode "B" "fnB", [CallNode (mkTNode "B" "fnB")]);
               (mkTNode "C" "fnC", [CallNode (mkTNode "C" "fnC")])]]
  ∧ ¬ wavesOrdered (Tdag.Edges Examples.twinsRace) []
        (traceWaves
           [Wave [(mkTNode "A" "fnA1", [CallNode (mkTNode "A" "fnA1")]);
                  (mkTNode "A" "fnA2", [CallNode (mkTNode "A" "fnA2")]);
                  (mkTNode "D" "fnD", [CallNode (mkTNode "D" "fnD")])];
            Wave [(mkTNode "B" "fnB", [CallNode (mkTNode "B" "fnB")]);
                  (mkTNode "C" "fnC", [CallNode (mkTNode "C" "fnC")])]]).
Proof.
  split_and!.
  - apply (acyclic_by_rank _ Examples.rankOf). vm_compute. repeat constructor.
  - apply edgesRegistered_Forall. vm_compute. repeat constructor; set_solver.
  - done.
  - vm_compute. reflexivity.
  - intros (_ & Hwave & _).
    specialize (Hwave (mkTNode "C" "fnC")
                  (mkTEdge (mkTNode "B" "fnB") (mkTNode "C" "fnC"))).
    cbn in Hwave.
    assert ("B" ∈ ["A"; "A"; "D"]) as Hin.
    { apply Hwave; [set_solver|set_solver|done]. }
    set_solver.
Qed.

(** ** Edge insertion *)

Section AddEdgeFacts.
Context {F : Type}.
Implicit Types (nodes : list (TNode F)) (edges : list (TEdge F)).

Lemma findNode_ID nodes id (n : TNode F) : findNode nodes id = Some n → ID n = id.
Proof. intros (i & _ & Hid & _)%findNode_first. done. Qed.

Lemma findNode_elem nodes id (n : TNode F) : findNode nodes id = Some n → n ∈ nodes.
Proof.
  intros (i & Hi & _)%findNode_first. by eapply list_elem_of_lookup_2.
Qed.

(** The loop over the targets: the edges it appends are those of a prefix
    of the targets, each found and judged acceptable against the edges
    present when its turn came; it ends at the end of the targets, or at the
    first target that is unknown or rejected. *)
Lemma addEdgeTargets_spec nodes from (fromNode : TNode F) to :
  ∀ edges created,
    let r := addEdgeTargets nodes edges from fromNode to created in
    ∃ added,
      r.1 = edges ++ added
      ∧ (∀ i e, added !! i = Some e →
           Left e = fromNode
           ∧ ∃ t, to !! i = Some t ∧ findNode nodes t = Some (Right e)
                  ∧ createsCycleB (edges ++ take i added) fromNode (Right e)
                    = false)
      ∧ match r.2.2 with
        | None => r.2.1 = created ++ added ∧ length added = length to
        | Some err =>
            r.2.1 = []
            ∧ ∃ t, to !! length added = Some t
                   ∧ ((findNode nodes t = None ∧ err = ErrNodeDoesNotExist t)
                      ∨ ∃ targetNode,
                          findNode nodes t = Some targetNode
                          ∧ createsCycleB (edges ++ added) fromNode targetNode
                            = true
                          ∧ err = ErrWouldCreateCycle from t)
        end.
Proof.
  induction to as [|t to IH]; intros edges created; cbn [addEdgeTargets].
  - exists []. cbn [fst snd length lookup]. rewrite !app_nil_r. split_and!; try done.
  - destruct (findNode nodes t) as [targetNode|] eqn:Hfind.
    + destruct (createsCycleB edges fromNode targetNode) eqn:Hcycle.
      * exists []. cbn [fst snd length lookup]. rewrite !app_nil_r. split_and!; try done.
        exists t. split; [done|]. right. by exists targetNode.
      * destruct (IH (edges ++ [mkTEdge fromNode targetNode])
                    (created ++ [mkTEdge fromNode targetNode]))
          as (added & Hedges & Hcorr & Hend).
        exists (mkTEdge fromNode targetNode :: added). split_and!.
        -- rewrite Hedges. by rewrite <-app_assoc.
        -- intros [|i] e Hi.
           ++ injection Hi as <-. cbn [Left Right take]. split; [done|]. exists t.
              by rewrite app_nil_r.
           ++ destruct (Hcorr i e Hi) as (Hl & t' & Ht' & Hf & Hc).
              split; [done|]. exists t'. split_and!; try done.
              cbn [take]. by rewrite <-app_assoc in Hc.
        -- destruct (_.2.2) as [err|].
           ++ destruct Hend as (Hnil & t' & Ht' & Herr). split; [done|].
              exists t'. split; [done|].
              destruct Herr as [?|(tn & ? & Hc & ?)]; [by left|right].
              exists tn. by rewrite <-app_assoc in Hc.
           ++ destruct Hend as [Hcreated Hlen]. rewrite Hcreated.
              rewrite <-app_assoc. cbn [app length]. by rewrite Hlen.
    + exists []. cbn [fst snd length lookup]. rewrite !app_nil_r. split_and!; try done.
      exists t. split; [done|]. by left.
Qed.

(** [createsCycle(from, to)] answers [true] exactly when [to] is already
    reachable from [from]; such an edge is turned down. *)
Lemma addEdges_reachable_target_rejected nodes edges from to
    (fromNode toNode : TNode F) :
  findNode nodes from = Some fromNode → findNode nodes to = Some toNode →
  reaches edges from to →
  addEdges nodes edges from [to] = (edges, ([], Some (ErrWouldCreateCycle from to))).
Proof.
  intros Hf Ht Hreach. unfold addEdges. rewrite Hf. cbn [addEdgeTargets].
  rewrite Ht.
  assert (createsCycleB edges fromNode toNode = true) as ->; [|done].
  apply createsCycleB_iff_reaches.
  by rewrite (findNode_ID _ _ _ Hf), (findNode_ID _ _ _ Ht).
Qed.

(** An edge whose target is not reachable from its source is appended,
    whether or not the source is reachable from the target. *)
Lemma addEdges_unreachable_target_accepted nodes edges from to
    (fromNode toNode : TNode F) :
  findNode nodes from = Some fromNode → findNode nodes to = Some toNode →
  ¬ reaches edges from to →
  addEdges nodes edges from [to]
  = (edges ++ [mkTEdge fromNode toNode], ([mkTEdge fromNode toNode], None)).
Proof.
  intros Hf Ht Hreach. unfold addEdges. rewrite Hf. cbn [addEdgeTargets].
  rewrite Ht.
  assert (createsCycleB edges fromNode toNode = false) as ->; [|done].
  apply not_true_is_false. intros Hc%createsCycleB_iff_reaches.
  by rewrite (findNode_ID _ _ _ Hf), (findNode_ID _ _ _ Ht) in Hc.
Qed.

(** A self-loop on a registered node is turned down. *)
Lemma addEdges_self_loop_rejected nodes edges x (n : TNode F) :
  findNode nodes x = Some n →
  addEdges nodes edges x [x] = (edges, ([], Some (ErrWouldCreateCycle x x))).
Proof.
  intros Hx. eapply addEdges_reachable_target_rejected; [done..|].
  apply rtc_refl.
Qed.

(** On an acyclic graph the check lets every cycle-closing edge between
    two distinct registered nodes through: when [from] is reachable from
    [to], the edge [from -> to] is appended and the graph is cyclic. *)
Lemma addEdges_accepts_cycle_closing_edges nodes edges from to
    (fromNode toNode : TNode F) :
  findNode nodes from = Some fromNode → findNode nodes to = Some toNode →
  acyclic edges → from ≠ to → reaches edges to from →
  addEdges nodes edges from [to]
  = (edges ++ [mkTEdge fromNode toNode], ([mkTEdge fromNode toNode], None))
  ∧ tc (edgeRel (edges ++ [mkTEdge fromNode toNode])) to to.
Proof.
  intros Hf Ht Hac Hne Hback. split.
  - apply addEdges_unreachable_target_accepted; [done..|].
    intros Hfwd. apply rtc_tc in Hfwd as [?|Hfwd]; [done|].
    apply (Hac from). by eapply tc_rtc_r.
  - eapply tc_rtc_l; [|apply tc_once].
    + eapply rtc_subrel; [|exact Hback].
      intros a b (e & He & ? & ?). exists e. split; [|done].
      apply elem_of_app. by left.
    + exists (mkTEdge fromNode toNode). split_and!.
      * apply elem_of_app. right. left.
      * exact (findNode_ID _ _ _ Hf).
      * exact (findNode_ID _ _ _ Ht).
Qed.

End AddEdgeFacts.

(** C8: [AddEdge(from, to...)] leaves the nodes alone and appends to the
    edges one edge per target of a prefix of [to], each joining the
    first-registered nodes of its two identifiers and each accepted by the
    cycle check against the edges present at its turn.  With no error the
    prefix is all of [to] and the result is exactly the edges appended.
    With an error the result slice is nil, the error is that of the unknown
    source (nothing appended) or of the first target that is unknown or
    rejected, and the edges appended before it stay in the graph. *)
Theorem C8_AddEdge_first_error_keeps_earlier_edges
    {F : Type} (d : Tdag.TDag F) (from : string) (to : list string) :
  let r := Tdag.AddEdge d from to in
  Tdag.Nodes r.1 = Tdag.Nodes d
  ∧ ∃ added,
      Tdag.Edges r.1 = Tdag.Edges d ++ added
      ∧ (∀ i e, added !! i = Some e →
           ∃ t, to !! i = Some t
                ∧ Tdag.findNodeByID d from = Some (Left e)
                ∧ Tdag.findNodeByID d t = Some (Right e)
                ∧ createsCycleB (Tdag.Edges d ++ take i added)
                    (Left e) (Right e) = false)
      ∧ match r.2.2 with
        | None => r.2.1 = added ∧ length added = length to
        | Some err =>
            r.2.1 = []
            ∧ ((Tdag.findNodeByID d from = None
                ∧ err = ErrNodeDoesNotExist from ∧ added = [])
               ∨ ∃ t, to !! length added = Some t
                      ∧ ((Tdag.findNodeByID d t = None
                          ∧ err = ErrNodeDoesNotExist t)
                         ∨ ∃ fromNode targetNode,
                             Tdag.findNodeByID d from = Some fromNode
                             ∧ Tdag.findNodeByID d t = Some targetNode
                             ∧ createsCycleB (Tdag.Edges d ++ added)
                                 fromNode targetNode = true
                             ∧ err = ErrWouldCreateCycle from t))
        end.
Proof.
  unfold Tdag.AddEdge, Tdag.findNodeByID, addEdges.
  destruct (findNode (Tdag.Nodes d) from) as [fromNode|] eqn:Hfrom.
  - pose proof (addEdgeTargets_spec (Tdag.Nodes d) from fromNode to
                  (Tdag.Edges d) []) as Hspec.
    destruct (addEdgeTargets (Tdag.Nodes d) (Tdag.Edges d) from fromNode to [])
      as [edges [created err]].
    cbn [fst snd] in *. destruct Hspec as (added & Hedges & Hcorr & Hend).
    cbn [Tdag.Nodes Tdag.Edges]. split; [done|]. exists added. split_and!.
    + done.
    + intros i e Hi. destruct (Hcorr i e Hi) as (-> & t & ? & ? & ?).
      exists t. done.
    + destruct err as [err|]; [|done].
      destruct Hend as (Hnil & t & Ht & Herr). split; [done|]. right.
      exists t. split; [done|].
      destruct Herr as [?|(tn & ? & ? & ?)]; [by left|right].
      by exists fromNode, tn.
  - cbn [fst snd Tdag.Nodes Tdag.Edges]. split; [done|]. exists [].
    rewrite app_nil_r. split_and!; try done. left. done.
Qed.

(** ** C1 and C2: what the cycle check lets through and what it stops *)

(** C1, the code at the scenario of the claim: with A -> B and B -> C in
    place, [AddEdge("C", "A")] returns the new edge and no error, and the
    graph then holds the cycle A -> B -> C -> A. *)
Lemma C1_AddEdge_C_A_is_accepted_and_closes_a_cycle :
  (Tdag.AddEdge Examples.chainABC "C" ["A"]).2
  = ([mkTEdge (mkTNode "C" "fnC") (mkTNode "A" "fnA")], None)
  ∧ Tdag.Edges (Tdag.AddEdge Examples.chainABC "C" ["A"]).1
    = [mkTEdge (mkTNode "A" "fnA") (mkTNode "B" "fnB");
       mkTEdge (mkTNode "B" "fnB") (mkTNode "C" "fnC");
       mkTEdge (mkTNode "C" "fnC") (mkTNode "A" "fnA")]
  ∧ tc (edgeRel (Tdag.Edges (Tdag.AddEdge Examples.chainABC "C" ["A"]).1))
      "A" "A".
Proof.
  split_and!; [vm_compute; reflexivity..|].
  assert (Tdag.Edges (Tdag.AddEdge Examples.chainABC "C" ["A"]).1
          = [mkTEdge (mkTNode "A" "fnA") (mkTNode "B" "fnB");
             mkTEdge (mkTNode "B" "fnB") (mkTNode "C" "fnC");
             mkTEdge (mkTNode "C" "fnC") (mkTNode "A" "fnA")]) as ->.
  { vm_compute. reflexivity. }
  eapply tc_l; [|eapply tc_l; [|apply tc_once]].
  - exists (mkTEdge (mkTNode "A" "fnA") (mkTNode "B" "fnB")).
    split_and!; [set_solver|done|done].
  - exists (mkTEdge (mkTNode "B" "fnB") (mkTNode "C" "fnC")).
    split_and!; [set_solver|done|done].
  - exists (mkTEdge (mkTNode "C" "fnC") (mkTNode "A" "fnA")).
    split_and!; [set_solver|done|done].
Qed.

(** C2, the code at a pair of the claim: with A -> B and B -> C in place, C
    is reachable from A, and [AddEdge("A", "C")] returns the error
    [adding edge from A to C would create a cycle] and appends nothing. *)
Lemma C2_AddEdge_to_a_reachable_node_is_rejected :
  reaches (Tdag.Edges Examples.chainABC) "A" "C"
  ∧ (Tdag.AddEdge Examples.chainABC "A" ["C"]).2
    = ([], Some (ErrWouldCreateCycle "A" "C"))
  ∧ Tdag.Edges (Tdag.AddEdge Examples.chainABC "A" ["C"]).1
    = Tdag.Edges Examples.chainABC.
Proof.
  split_and!; [|vm_compute; reflexivity..].
  eapply rtc_l; [|eapply rtc_l; [|apply rtc_refl]].
  - exists (mkTEdge (mkTNode "A" "fnA") (mkTNode "B" "fnB")).
    split_and!; [|done|done]. vm_compute. set_solver.
  - exists (mkTEdge (mkTNode "B" "fnB") (mkTNode "C" "fnC")).
    split_and!; [|done|done]. vm_compute. set_solver.
Qed.

(** ** Lifecycle hooks *)

Section Hooks.
Context {F : Type}.
Implicit Types (d : Tdag.TDag F) (trace : list (Step F)).

Lemma setupCalls_app trace1 trace2 :
  setupCalls (trace1 ++ trace2) = setupCalls trace1 ++ setupCalls trace2.
Proof. apply traceCalls_app. Qed.

Lemma tearDownCalls_app trace1 trace2 :
  tearDownCalls (trace1 ++ trace2) = tearDownCalls trace1 ++ tearDownCalls trace2.
Proof. apply traceCalls_app. Qed.

Lemma setupCalls_setup (fns : list F) :
  setupCalls (Seq ∘ CallSetup <$> fns) = fns.
Proof. unfold setupCalls. rewrite traceCalls_seq. apply bind_singleton. Qed.

Lemma setupCalls_tearDown (fns : list F) :
  setupCalls (Seq ∘ CallTearDown <$> fns) = [].
Proof. unfold setupCalls. rewrite traceCalls_seq. apply bind_const_nil. Qed.


Lemma tearDownCalls_setup (fns : list F) :
  tearDownCalls (Seq ∘ CallSetup <$> fns) = [].
Proof. unfold tearDownCalls. rewrite traceCalls_seq. apply bind_const_nil. Qed.

Lemma setupCalls_waves d waves : setupCalls (Tdag.waveSteps d waves) = [].
Proof.
  unfold setupCalls, Tdag.waveSteps. by apply traceCalls_waves_nil.
Qed.

Lemma tearDownCalls_waves d waves : tearDownCalls (Tdag.waveSteps d waves) = [].
Proof.
  unfold tearDownCalls, Tdag.waveSteps. by apply traceCalls_waves_nil.
Qed.

(** The shape of every trace of [RunTests], whatever the callbacks do:
    waves, then, when the loop exits by [break], the teardown functions, up
    to the one that leaves if one does. *)
Lemma RunTests_shape fuel b d :
  ∃ waves,
    match Tdag.RunTests fuel b d with
    | Finished trace =>
        trace = Tdag.waveSteps d waves
                ++ (Seq ∘ CallTearDown <$> Tdag.TearDownFns d)
    | Fatal msg trace =>
        trace = Tdag.waveSteps d waves ∧ ∃ remaining, msg = FatalCycle remaining
    | Exited trace =>
        ∃ made, trace = Tdag.waveSteps d waves ++ (Seq ∘ CallTearDown <$> made)
    | OutOfFuel trace => trace = Tdag.waveSteps d waves
    end.
Proof.
  unfold Tdag.RunTests.
  destruct (runLoop _ _ _ _ _ _) as [[|remaining|] waves]; exists waves.
  - destruct (hookLeft _ _) eqn:Hleft.
    + destruct (hookCalls_seq CallTearDown (Tdag.TearDownFns d)
                  (tearDownLeaves b)) as [made ->]. by exists made.
    + by rewrite hookCalls_all.
  - eauto.
  - done.
Qed.

(** The shape of every trace of [RunTo], whatever the callbacks do:
    nothing at all for an unknown target; otherwise the setup functions,
    waves, and, when the loop exits by [break], the teardown functions. *)
Lemma RunTo_shape fuel b d id :
  match Tdag.RunTo fuel b d id with
  | Finished trace =>
      ∃ waves,
        trace = (Seq ∘ CallSetup <$> Tdag.SetupFns d)
                ++ Tdag.waveSteps d waves
                ++ (Seq ∘ CallTearDown <$> Tdag.TearDownFns d)
  | Fatal (FatalNodeMissing id') trace =>
      trace = [] ∧ id' = id ∧ Tdag.findNodeByID d id = None
  | Fatal (FatalCycle remaining) trace =>
      ∃ waves,
        trace = (Seq ∘ CallSetup <$> Tdag.SetupFns d) ++ Tdag.waveSteps d waves
  | Exited trace =>
      Tdag.findNodeByID d id ≠ None
      ∧ ((∃ made, trace = Seq ∘ CallSetup <$> made)
         ∨ ∃ waves made,
             trace = (Seq ∘ CallSetup <$> Tdag.SetupFns d)
                     ++ Tdag.waveSteps d waves
                     ++ (Seq ∘ CallTearDown <$> made))
  | OutOfFuel trace =>
      Tdag.findNodeByID d id ≠ None
      ∧ ∃ waves,
          trace = (Seq ∘ CallSetup <$> Tdag.SetupFns d) ++ Tdag.waveSteps d waves
  end.
Proof.
  unfold Tdag.RunTo.
  destruct (Tdag.findNodeByID d id) as [targetNode|] eqn:Hfind; [|done].
  destruct (collectDependencies_closure (Tdag.Edges d) id) as (R & -> & _).
  destruct (hookLeft (Tdag.SetupFns d) (setupLeaves b)) eqn:Hsetup.
  { split; [done|]. left. apply hookCalls_seq. }
  rewrite (hookCalls_all CallSetup) by done.
  destruct (runLoop _ _ _ _ _ _) as [[|remaining|] waves].
  - destruct (hookLeft (Tdag.TearDownFns d) _) eqn:Hleft.
    + split; [done|]. right.
      destruct (hookCalls_seq CallTearDown (Tdag.TearDownFns d)
                  (tearDownLeaves b)) as [made ->]. by exists waves, made.
    + rewrite (hookCalls_all CallTearDown) by done. by exists waves.
  - by exists waves.
  - split; [done|]. by exists waves.
Qed.

(** [RunTests] calls no setup function, however it ends. *)
Lemma RunTests_calls_no_setup fuel b d :
  setupCalls (outcomeTrace (Tdag.RunTests fuel b d)) = [].
Proof.
  destruct (RunTests_shape fuel b d) as [waves Hshape].
  destruct (Tdag.RunTests fuel b d) as [trace|msg trace|trace|trace];
    cbn [outcomeTrace].
  - subst. by rewrite setupCalls_app, setupCalls_waves, setupCalls_tearDown.
  - destruct Hshape as [-> _]. apply setupCalls_waves.
  - destruct Hshape as [made ->].
    by rewrite setupCalls_app, setupCalls_waves, setupCalls_tearDown.
  - subst. apply setupCalls_waves.
Qed.

(** X4: when [RunTo] returns, its trace starts with the setup functions,
    once each in registration order, and every node callback comes after
    them. *)
Theorem X4_RunTo_calls_the_setup_functions_first fuel b d id trace :
  Tdag.RunTo fuel b d id = Finished trace →
  ∃ rest,
    trace = (Seq ∘ CallSetup <$> Tdag.SetupFns d) ++ rest
    ∧ setupCalls rest = []
    ∧ traceNodes rest = traceNodes trace.
Proof.
  intros Hrun. pose proof (RunTo_shape fuel b d id) as Hshape.
  rewrite Hrun in Hshape.
  destruct Hshape as [waves ->]. eexists. split; [done|]. split.
  - by rewrite setupCalls_app, setupCalls_waves, setupCalls_tearDown.
  - by rewrite (traceNodes_app (_ <$> _)), traceNodes_seq.
Qed.

End Hooks.



(** C5, the code at a graph with one setup function and one node, with
    callbacks that return: [RunTests] calls the node and the teardown
    function, and never the setup function; [RunTo] on the same graph calls
    it first.  Whatever the callbacks do and however long the loop goes
    on, [RunTests] calls no setup function. *)
Lemma C5_RunTests_never_calls_the_setup_functions :
  Tdag.SetupFns Examples.hooked = ["setup"]
  ∧ Tdag.RunTests 2 returning Examples.hooked
    = Finished [Wave [(mkTNode "A" "fnA", [CallNode (mkTNode "A" "fnA")])];
                Seq (CallTearDown "teardown")]
  ∧ setupCalls [Wave [(mkTNode "A" "fnA", [CallNode (mkTNode "A" "fnA")])];
                Seq (CallTearDown "teardown")] = @nil string
  ∧ Tdag.RunTo 2 returning Examples.hooked "A"
    = Finished [Seq (CallSetup "setup");
                Wave [(mkTNode "A" "fnA", [CallNode (mkTNode "A" "fnA")])];
                Seq (CallTearDown "teardown")]
  ∧ ∀ fuel b,
      setupCalls (outcomeTrace (Tdag.RunTests fuel b Examples.hooked))
      = @nil string.
Proof.
  split_and!; try (vm_compute; reflexivity).
  intros fuel b. apply RunTests_calls_no_setup.
Qed.

(** ** Duplicate identifiers *)

Section Duplicates.
Context {F : Type}.
Implicit Types (d : Tdag.TDag F) (nodes : list (TNode F)).

Lemma firstAt_app nodes extra id i (n : TNode F) :
  firstAt nodes id i n → firstAt (nodes ++ extra) id i n.
Proof.
  intros (Hi & Hid & Hfirst). split_and!; [|done|].
  - by apply lookup_app_l_Some.
  - intros j m Hj Hm. apply (Hfirst j m Hj).
    rewrite lookup_app_l in Hm; [done|].
    apply lookup_lt_Some in Hi. lia.
Qed.

(** What [AddEdge] does to the graph, whatever it returns. *)
Lemma AddEdge_graph d from to :
  Tdag.Nodes (Tdag.AddEdge d from to).1 = Tdag.Nodes d
  ∧ ∃ added,
      Tdag.Edges (Tdag.AddEdge d from to).1 = Tdag.Edges d ++ added
      ∧ ∀ e, e ∈ added →
             findNode (Tdag.Nodes d) (ID (Left e)) = Some (Left e)
             ∧ findNode (Tdag.Nodes d) (ID (Right e)) = Some (Right e).
Proof.
  unfold Tdag.AddEdge, addEdges.
  destruct (findNode (Tdag.Nodes d) from) as [fromNode|] eqn:Hfrom.
  - pose proof (addEdgeTargets_spec (Tdag.Nodes d) from fromNode to
                  (Tdag.Edges d) []) as Hspec.
    destruct (addEdgeTargets (Tdag.Nodes d) (Tdag.Edges d) from fromNode to [])
      as [edges [created err]].
    cbn [fst snd] in *. destruct Hspec as (added & Hedges & Hcorr & _).
    cbn [Tdag.Nodes Tdag.Edges]. split; [done|]. exists added. split; [done|].
    intros e [i Hi]%list_elem_of_lookup.
    destruct (Hcorr i e Hi) as (Hl & t & _ & Hr & _). subst fromNode.
    rewrite (findNode_ID _ _ _ Hfrom), (findNode_ID _ _ _ Hr). done.
  - cbn [fst Tdag.Nodes Tdag.Edges]. split; [done|]. exists [].
    rewrite app_nil_r. split; [done|]. intros e He. by apply elem_of_nil in He.
Qed.

Lemma applyOp_edgesPointFirst d (op : Op F) :
  edgesPointFirst (Tdag.Nodes d) (Tdag.Edges d) →
  edgesPointFirst (Tdag.Nodes (applyOp d op)) (Tdag.Edges (applyOp d op)).
Proof.
  intros Hinv. destruct op as [id fn|from to|fn|fn|fn|fn]; cbn [applyOp]; try done.
  - intros e He. cbn [Tdag.AddNode fst Tdag.Nodes Tdag.Edges] in *.
    destruct (Hinv e He) as [[i Hi] [j Hj]].
    split; [exists i|exists j]; by apply firstAt_app.
  - destruct (AddEdge_graph d from to) as (Hnodes & added & Hedges & Hadded).
    intros e He. rewrite Hedges in He. rewrite Hnodes.
    apply elem_of_app in He as [He|He]; [by apply Hinv|].
    destruct (Hadded e He) as [Hl Hr].
    split; by apply findNode_first.
Qed.

Lemma build_edgesPointFirst (ops : list (Op F)) :
  edgesPointFirst (Tdag.Nodes (build ops)) (Tdag.Edges (build ops)).
Proof.
  unfold build.
  assert (∀ d, edgesPointFirst (Tdag.Nodes d) (Tdag.Edges d) →
               edgesPointFirst (Tdag.Nodes (foldl applyOp d ops))
                 (Tdag.Edges (foldl applyOp d ops))) as Hgen.
  { induction ops as [|op ops IH]; intros d Hd; [done|].
    cbn [foldl]. by apply IH, applyOp_edgesPointFirst. }
  apply Hgen. intros e He. by apply elem_of_nil in He.
Qed.

Lemma RunTo_missing_target fuel b d id :
  Tdag.RunTo fuel b d id = Fatal (FatalNodeMissing id) []
  ↔ Tdag.findNodeByID d id = None.
Proof.
  split.
  - intros Hrun. pose proof (RunTo_shape fuel b d id) as Hshape.
    rewrite Hrun in Hshape. by destruct Hshape as (_ & _ & ?).
  - intros Hnone. unfold Tdag.RunTo. by rewrite Hnone.
Qed.

End Duplicates.

(** Every graph built through the API has its edges between registered
    nodes: the hypothesis of C3 and C4 that is no restriction. *)
Lemma build_edgesRegistered {F : Type} (ops : list (Op F)) :
  edgesRegistered (Tdag.Nodes (build ops)) (Tdag.Edges (build ops)).
Proof.
  intros e He.
  destruct (build_edgesPointFirst ops e He) as [(i & Hi & _) (j & Hj & _)].
  split; apply list_elem_of_fmap_2; by eapply list_elem_of_lookup_2.
Qed.

(** C10: [AddNode] has no error result and no check: it returns the new
    node and appends it, whatever is registered already, leaving the nodes
    before it and the edges as they were.  [findNodeByID] returns the node
    at the first index bearing the identifier (and nil exactly for an
    identifier no node bears); in every graph built through the API both
    ends of every edge are such first-registered nodes, and [RunTo] reports
    a missing node exactly when that lookup finds none. *)
Theorem C10_AddNode_accepts_duplicates_and_lookup_returns_the_first
    {F : Type} :
  (∀ (d : Tdag.TDag F) id fn,
      (Tdag.AddNode d id fn).2 = mkTNode id fn
      ∧ Tdag.Nodes (Tdag.AddNode d id fn).1 = Tdag.Nodes d ++ [mkTNode id fn]
      ∧ Tdag.Edges (Tdag.AddNode d id fn).1 = Tdag.Edges d)
  ∧ (∀ (d : Tdag.TDag F) id n,
        Tdag.findNodeByID d id = Some n ↔ ∃ i, firstAt (Tdag.Nodes d) id i n)
  ∧ (∀ (d : Tdag.TDag F) id,
        Tdag.findNodeByID d id = None ↔ ¬ registered (Tdag.Nodes d) id)
  ∧ (∀ (ops : list (Op F)),
        edgesPointFirst (Tdag.Nodes (build ops)) (Tdag.Edges (build ops)))
  ∧ (∀ fuel b (d : Tdag.TDag F) id,
        Tdag.RunTo fuel b d id = Fatal (FatalNodeMissing id) []
        ↔ Tdag.findNodeByID d id = None).
Proof.
  split_and!.
  - done.
  - intros d id n. apply findNode_first.
  - intros d id. apply findNode_None.
  - apply build_edgesPointFirst.
  - apply RunTo_missing_target.
Qed.

(** The duplicate of the example: the edge A -> B of [twins] holds the
    first node registered as A, and [findNodeByID] returns that one. *)
Lemma twins_edge_points_to_first_A :
  Tdag.Nodes Examples.twins
  = [mkTNode "A" "fnA1"; mkTNode "A" "fnA2"; mkTNode "B" "fnB"]
  ∧ Tdag.Edges Examples.twins
    = [mkTEdge (mkTNode "A" "fnA1") (mkTNode "B" "fnB")]
  ∧ Tdag.findNodeByID Examples.twins "A" = Some (mkTNode "A" "fnA1").
Proof. split_and!; vm_compute; reflexivity. Qed.

(** ** Further properties of the code *)

(** X1: when every call of the run returns and [t.Run] skips no closure,
    both runs end on every graph, cyclic ones and ones with repeated
    identifiers included, within [len(d.Nodes) + 1] passes of the loop:
    they return or end in one of the two fatal reports. *)
Theorem X1_runs_end_when_every_call_returns
    {F : Type} (fuel : nat) (b : Behaviour) (d : Tdag.TDag F) (id : string) :
  allReturn b →
  (length (Tdag.Nodes d) < fuel)%nat →
  ((∃ trace, Tdag.RunTests fuel b d = Finished trace)
   ∨ ∃ msg trace, Tdag.RunTests fuel b d = Fatal msg trace)
  ∧ ((∃ trace, Tdag.RunTo fuel b d id = Finished trace)
     ∨ ∃ msg trace, Tdag.RunTo fuel b d id = Fatal msg trace).
Proof.
  intros Hret Hfuel. split.
  - rewrite (RunTests_allReturn fuel b d Hret).
    pose proof (idealLoop_total None (Tdag.Nodes d) fuel
                  (initState None (Tdag.Nodes d) (Tdag.Edges d))) as Htotal.
    destruct (idealLoop _ _ _ _) as [[|remaining|] waves]; [eauto|eauto|].
    destruct Htotal; [|done].
    pose proof (incomplete_le (Tdag.Nodes d)
                  (initState None (Tdag.Nodes d) (Tdag.Edges d))). lia.
  - rewrite (RunTo_allReturn fuel b d id Hret).
    destruct (Tdag.findNodeByID d id); [|eauto].
    destruct (collectDependencies_closure (Tdag.Edges d) id) as (R & -> & _).
    cbv zeta.
    pose proof (idealLoop_total (Some R) (Tdag.Nodes d) fuel
                  (initState (Some R) (Tdag.Nodes d) (Tdag.Edges d))) as Htotal.
    destruct (idealLoop _ _ _ _) as [[|remaining|] waves]; [eauto|eauto|].
    destruct Htotal; [|done].
    pose proof (incomplete_le (Tdag.Nodes d)
                  (initState (Some R) (Tdag.Nodes d) (Tdag.Edges d))). lia.
Qed.

Lemma X1_witness_twins :
  ((∃ trace, Tdag.RunTests 4 returning Examples.twins = Finished trace)
   ∨ ∃ msg trace, Tdag.RunTests 4 returning Examples.twins = Fatal msg trace)
  ∧ ((∃ trace, Tdag.RunTo 4 returning Examples.twins "B" = Finished trace)
     ∨ ∃ msg trace,
         Tdag.RunTo 4 returning Examples.twins "B" = Fatal msg trace).
Proof.
  apply (X1_runs_end_when_every_call_returns 4 returning Examples.twins "B").
  - exact allReturn_returning.
  - vm_compute. lia.
Defined.

(** X2: on every list of edges, cyclic or not, [collectDependencies] from
    an empty map returns, and marks exactly the identifiers from which the
    target is reachable, the target included. *)
Theorem X2_collectDependencies_marks_exactly_the_ancestors
    {F : Type} (edges : list (TEdge F)) (id : string) :
  ∃ R, collectDependencies (S (length edges)) edges id ∅ = Some R
       ∧ ∀ x, x ∈ R ↔ reaches edges x id.
Proof. apply collectDependencies_closure. Qed.

(** X3: [RunTo] of an identifier no node bears reports the missing node
    and calls nothing: no setup function, no node, no teardown function. *)
Theorem X3_RunTo_unknown_target_runs_nothing
    {F : Type} (fuel : nat) (b : Behaviour) (d : Tdag.TDag F) (id : string) :
  ¬ registered (Tdag.Nodes d) id →
  Tdag.RunTo fuel b d id = Fatal (FatalNodeMissing id) [].
Proof.
  intros Hno. apply RunTo_missing_target. by apply findNode_None.
Qed.

Lemma X3_witness_chainABC_RunTo_Z :
  Tdag.RunTo 4 returning Examples.chainABC "Z"
  = Fatal (FatalNodeMissing "Z") [].
Proof.
  apply (X3_RunTo_unknown_target_runs_nothing 4 returning Examples.chainABC "Z").
  unfold registered. vm_compute. set_solver.
Defined.


Lemma X4_witness_hooked :
  ∃ rest,
    [Seq (CallSetup "setup");
     Wave [(mkTNode "A" "fnA", [CallNode (mkTNode "A" "fnA")])];
     Seq (CallTearDown "teardown")]
    = (Seq ∘ CallSetup <$> Tdag.SetupFns Examples.hooked) ++ rest
    ∧ setupCalls rest = []
    ∧ traceNodes rest
      = traceNodes [Seq (CallSetup "setup");
                    Wave [(mkTNode "A" "fnA", [CallNode (mkTNode "A" "fnA")])];
                    Seq (CallTearDown "teardown")].
Proof.
  apply (X4_RunTo_calls_the_setup_functions_first
           2 returning Examples.hooked "A").
  vm_compute. reflexivity.
Defined.

(** X5: a run that ends in [t.Fatalf] has called no teardown function. *)
Theorem X5_fatal_run_calls_no_teardown
    {F : Type} (fuel : nat) (b : Behaviour) (d : Tdag.TDag F)
    (msg : FatalMsg) (trace : list (Step F)) :
  Tdag.RunTests fuel b d = Fatal msg trace
  ∨ (∃ id, Tdag.RunTo fuel b d id = Fatal msg trace) →
  tearDownCalls trace = [].
Proof.
  intros [Hrun|[id Hrun]].
  - destruct (RunTests_shape fuel b d) as [waves Hshape].
    rewrite Hrun in Hshape.
    destruct Hshape as [-> _]. apply tearDownCalls_waves.
  - pose proof (RunTo_shape fuel b d id) as Hshape. rewrite Hrun in Hshape.
    destruct msg as [id'|remaining].
    + by destruct Hshape as [-> _].
    + destruct Hshape as [waves ->].
      by rewrite tearDownCalls_app, tearDownCalls_setup, tearDownCalls_waves.
Qed.

Lemma X5_witness_twins :
  tearDownCalls
    [Wave [(mkTNode "A" "fnA1", [CallNode (mkTNode "A" "fnA1")]);
           (mkTNode "A" "fnA2", [CallNode (mkTNode "A" "fnA2")])]]
  = @nil string.
Proof.
  apply (X5_fatal_run_calls_no_teardown 4 returning Examples.twins
           (FatalCycle ["B"])).
  left. vm_compute. reflexivity.
Defined.

(** X6: [AddEdge(x, x)] on a registered node is turned down with the cycle
    error and the graph keeps its edges. *)
Theorem X6_AddEdge_rejects_self_loops
    {F : Type} (d : Tdag.TDag F) (x : string) :
  registered (Tdag.Nodes d) x →
  (Tdag.AddEdge d x [x]).2 = ([], Some (ErrWouldCreateCycle x x))
  ∧ Tdag.Edges (Tdag.AddEdge d x [x]).1 = Tdag.Edges d.
Proof.
  intros [n Hn]%findNode_is_Some. unfold Tdag.AddEdge.
  by rewrite (addEdges_self_loop_rejected _ _ _ n Hn).
Qed.

Lemma X6_witness_chainABC :
  (Tdag.AddEdge Examples.chainABC "B" ["B"]).2
  = ([], Some (ErrWouldCreateCycle "B" "B"))
  ∧ Tdag.Edges (Tdag.AddEdge Examples.chainABC "B" ["B"]).1
    = Tdag.Edges Examples.chainABC.
Proof.
  apply (X6_AddEdge_rejects_self_loops Examples.chainABC "B").
  unfold registered. vm_compute. set_solver.
Defined.


(** ** The repository's own test

    [TestDag] builds ten nodes in a chain and calls
    [RunTo("components.tags.create")]; its callbacks use [assert], which
    reports and returns.  The setup function runs first, then
    the seven nodes of the closure one per wave, each between the
    before-each and after-each functions, then the teardown function; the
    login node reads the address the setup function stored. *)
Lemma testDag_RunTo_report :
  Examples.report
    (Tdag.RunTo 11 returning Examples.testDag "components.tags.create")
  = Some (["before each"; "registration.register"; "after each";
           "before each"; "registration.confirm"; "after each";
           "before each"; "session.login: test-0@example.com"; "after each";
           "before each"; "components.create"; "after each";
           "before each"; "components.create"; "after each";
           "before each"; "components.change.create"; "after each";
           "before each"; "tags.create"; "after each";
           "tear down"],
          false,
          (VString "test-0@example.com", None)).
Proof. vm_compute. reflexivity. Qed.

(** The commented-out call [dag.RunTests(t)] of the same test would run all
    ten nodes without the setup function: the first node's check of
    ["setup"] fails and the login node finds no address. *)
Lemma testDag_RunTests_report :
  Examples.report (Tdag.RunTests 11 returning Examples.testDag)
  = Some (["before each"; "key setup not found"; "registration.register";
           "after each";
           "before each"; "registration.confirm"; "after each";
           "before each"; "key email not found"; "session.login: <nil>";
           "after each";
           "before each"; "components.create"; "after each";
           "before each"; "components.create"; "after each";
           "before each"; "components.change.create"; "after each";
           "before each"; "tags.create"; "after each";
           "before each"; "tags.get"; "after each";
           "before each"; "tags.delete"; "after each";
           "before each"; "session.logout"; "after each";
           "tear down"],
          true,
          (VNil, Some (ErrKeyNotFound "email"))).
Proof. vm_compute. reflexivity. Qed.

(** * Part III: further properties of the run loops, the construction
    and the D2 export *)

Section LoopMore.
Context {F : Type}.
Implicit Types (E edges : list (TEdge F)) (nodes : list (TNode F))
  (st : RunState F) (required : option (gset string)).

Lemma idealLoop_step fuel required nodes st :
  idealLoop (S fuel) required nodes st =
  match availableNodes required nodes st with
  | [] =>
      match remainingIDs required nodes st with
      | [] => (LoopExit, [])
      | remaining => (LoopFatal remaining, [])
      end
  | available =>
      ((idealLoop fuel required nodes (foldl finishNode st available)).1,
       available :: (idealLoop fuel required nodes
                       (foldl finishNode st available)).2)
  end.
Proof.
  cbn [idealLoop]. destruct (availableNodes required nodes st) as [|a av]; [done|].
  by destruct (idealLoop fuel required nodes (foldl finishNode st (a :: av))).
Qed.

(** No wave is empty. *)
Lemma idealLoop_waves_nonempty required nodes :
  ∀ fuel st, Forall (fun wave => wave ≠ []) (idealLoop fuel required nodes st).2.
Proof.
  induction fuel as [|fuel IH]; intros st; [constructor|].
  rewrite idealLoop_step.
  destruct (availableNodes required nodes st) as [|a av].
  - destruct (remainingIDs required nodes st); constructor.
  - cbn [snd]. constructor; [done|apply IH].
Qed.

(** Where the loop stops, the scan finds no node; it exits by [break] when
    nothing remains and reports what remains otherwise. *)
Lemma idealLoop_end required nodes :
  ∀ fuel st,
    let r := idealLoop fuel required nodes st in
    match r.1 with
    | LoopExit => remainingIDs required nodes (loopFinal st r.2) = []
    | LoopFatal remaining =>
        remaining = remainingIDs required nodes (loopFinal st r.2)
        ∧ remaining ≠ []
    | LoopNoFuel => True
    end.
Proof.
  induction fuel as [|fuel IH]; intros st; [done|].
  cbv zeta. rewrite idealLoop_step.
  destruct (availableNodes required nodes st) as [|a av].
  - destruct (remainingIDs required nodes st) as [|x l] eqn:Hrem; cbn [fst snd];
      unfold loopFinal; cbn [foldl]; [done|]. by rewrite Hrem.
  - cbn [fst snd]. unfold loopFinal. cbn [foldl].
    apply (IH (foldl finishNode st (a :: av))).
Qed.

Lemma tc_last_step {A} (R : relation A) x y :
  tc R x y → ∃ u, rtc R x u ∧ R u y.
Proof.
  induction 1 as [x y Hxy|x y z Hxy _ (u & Hyu & Huz)].
  - exists x. split; [apply rtc_refl|done].
  - exists u. split; [by eapply rtc_l|done].
Qed.

(** With distinct identifiers, a node on a cycle never becomes available:
    its predecessor on the cycle would have to complete first. *)
Lemma idealLoop_cycle_never_runs required nodes E :
  uniqueIDs nodes →
  ∀ fuel st,
    booksOK E st →
    (∀ v, tc (edgeRel E) v v → v ∉ completed st) →
    let r := idealLoop fuel required nodes st in
    (∀ v, tc (edgeRel E) v v → v ∉ completed (loopFinal st r.2))
    ∧ (∀ n, n ∈ concat r.2 → ¬ tc (edgeRel E) (ID n) (ID n)).
Proof.
  intros Huniq. induction fuel as [|fuel IH]; intros st Hok HJ.
  { cbv zeta. cbn. split; [done|]. intros n Hn. by apply elem_of_nil in Hn. }
  cbv zeta. rewrite idealLoop_step.
  destruct (availableNodes required nodes st) as [|a av] eqn:Hav.
  { destruct (remainingIDs required nodes st); cbn [snd]; (split; [done|]);
      intros n Hn; by apply elem_of_nil in Hn. }
  set (wave := a :: av) in *. set (st' := foldl finishNode st wave).
  assert (Hwave : ∀ n, n ∈ wave →
            (ID n ∉ completed st) ∧ getZ (inDegree st) (ID n) = 0).
  { intros n Hn. rewrite <-Hav in Hn.
    by apply elem_of_availableNodes in Hn as (_ & _ & ? & ?). }
  assert (Hfree : ∀ n, n ∈ wave → ¬ tc (edgeRel E) (ID n) (ID n)).
  { intros n Hn Hcyc. destruct (Hwave n Hn) as [_ Hz].
    destruct (tc_last_step _ _ _ Hcyc) as (u & Hnu & (e & He & Hl & Hr)).
    destruct Hok as [HZ _]. rewrite HZ in Hz.
    assert (ID (Left e) ∈ completed st) as Hdone.
    { eapply pending_zero; [|done|done]. lia. }
    apply (HJ u); [|by rewrite <-Hl].
    eapply tc_rtc_r; [|exact Hnu]. apply tc_once. exists e. done. }
  assert (Hok' : booksOK E st').
  { apply wave_ok; [done| |].
    - rewrite <-Hav. unfold availableNodes. by apply NoDup_fmap_filter.
    - intros n Hn. by apply Hwave. }
  assert (HJ' : ∀ v, tc (edgeRel E) v v → v ∉ completed st').
  { intros v Hv. unfold st'. rewrite wave_completed.
    intros [Hin|Hin]%elem_of_union; [|by apply (HJ v)].
    apply elem_of_list_to_set, list_elem_of_fmap in Hin as (n & -> & Hn).
    by apply (Hfree n). }
  destruct (IH st' Hok' HJ') as [HJf Hfreef]. cbn [snd]. split.
  - unfold loopFinal. cbn [foldl]. apply HJf.
  - intros n. cbn [concat]. intros [Hn|Hn]%elem_of_app;
      [by apply Hfree|by apply Hfreef].
Qed.

Lemma wavesOrdered_weaken E E' (waves : list (list (TNode F))) :
  (∀ n e, n ∈ concat waves → e ∈ E' → ID (Right e) = ID n → e ∈ E) →
  ∀ earlier, wavesOrdered E earlier waves → wavesOrdered E' earlier waves.
Proof.
  induction waves as [|wave waves IH]; intros Hsub earlier; [done|].
  cbn [wavesOrdered]. intros [Hwave Hrest]. split.
  - intros n e Hn He Hr. apply (Hwave n e); [done| |done].
    apply (Hsub n e); [|done|done]. cbn [concat]. apply elem_of_app. by left.
  - apply IH; [|done]. intros n e Hn. apply Hsub. cbn [concat].
    apply elem_of_app. by right.
Qed.

(** The first scan of [RunTests] finds exactly the nodes without
    dependencies. *)
Lemma first_wave_roots nodes edges :
  availableNodes None nodes (initState None nodes edges) = roots nodes edges.
Proof.
  destruct (initState_ok None nodes edges) as [[HZ _] Hc].
  rewrite eligibleEdges_all in HZ.
  unfold availableNodes, roots. apply list_filter_iff. intros n.
  rewrite HZ, Hc. split.
  - intros (_ & _ & Hz). apply Forall_forall. intros e He Hr.
    assert (ID (Left e) ∈ (∅ : gset string)) as Hin; [|set_solver].
    eapply pending_zero; [|done|done]. lia.
  - intros Hroot. split_and!; [done|set_solver|].
    destruct (pending edges ∅ (ID n)) as [|k] eqn:Hp; [done|].
    destruct (pending_pos edges ∅ (ID n)) as (e & He & Hr & _); [lia|].
    by destruct (proj1 (Forall_forall _ _) Hroot e He).
Qed.

End LoopMore.

Section RunsMore.
Context {F : Type}.
Implicit Types (d : Tdag.TDag F) (trace : list (Step F)).

Lemma traceWaves_RunTo_shape d (waves : list (list (TNode F))) :
  traceWaves ((Seq ∘ CallSetup <$> Tdag.SetupFns d)
              ++ Tdag.waveSteps d (allComplete waves)
              ++ (Seq ∘ CallTearDown <$> Tdag.TearDownFns d)) = waves.
Proof.
  unfold Tdag.waveSteps.
  rewrite !traceWaves_app, !traceWaves_seq, traceWaves_waves.
  by rewrite app_nil_r.
Qed.

(** The loop, one pass at a time. *)
Lemma runLoop_step (ends : nat → nat → End) fuel pass required
    (nodes : list (TNode F)) st :
  runLoop ends (S fuel) pass required nodes st =
  match availableNodes required nodes st with
  | [] =>
      match remainingIDs required nodes st with
      | [] => (LoopExit, [])
      | remaining => (LoopFatal remaining, [])
      end
  | available =>
      let st' := foldl finishNode st (finished (startWave ends pass available)) in
      ((runLoop ends fuel (S pass) required nodes st').1,
       startWave ends pass available
         :: (runLoop ends fuel (S pass) required nodes st').2)
  end.
Proof.
  cbn [runLoop]. destruct (availableNodes required nodes st) as [|a av]; [done|].
  cbv zeta. by destruct (runLoop ends fuel (S pass) required nodes _).
Qed.

Lemma startWave_nodes (ends : nat → nat → End) pass (l : list (TNode F)) :
  (startWave ends pass l).*1 = l.
Proof.
  unfold startWave. rewrite fmap_imap.
  rewrite (imap_ext _ (const id)); [by rewrite imap_const, list_fmap_id|done].
Qed.

(** The waves of the trace of [RunTests], however the run ends. *)
Lemma RunTests_waves_of_loop fuel b d :
  traceWaves (outcomeTrace (Tdag.RunTests fuel b d))
  = (fun wave : list (TNode F * End) => wave.*1)
      <$> (runLoop (closureEnds b) fuel 0 None (Tdag.Nodes d)
             (initState None (Tdag.Nodes d) (Tdag.Edges d))).2.
Proof.
  unfold Tdag.RunTests, Tdag.waveSteps.
  destruct (runLoop _ _ _ _ _ _) as [[|remaining|] waves]; cbn [snd].
  - destruct (hookCalls_seq CallTearDown (Tdag.TearDownFns d)
                (tearDownLeaves b)) as [made ->].
    destruct (hookLeft _ _); cbn [outcomeTrace];
      by rewrite traceWaves_app, traceWaves_seq, app_nil_r, traceWaves_tagged.
  - apply traceWaves_tagged.
  - apply traceWaves_tagged.
Qed.

(** When every call returns, the waves of the traces are those of
    [idealLoop]. *)
Lemma RunTests_waves fuel b d :
  allReturn b →
  traceWaves (outcomeTrace (Tdag.RunTests fuel b d))
  = (idealLoop fuel None (Tdag.Nodes d)
       (initState None (Tdag.Nodes d) (Tdag.Edges d))).2.
Proof.
  intros Hret. rewrite (RunTests_allReturn fuel b d Hret).
  unfold Tdag.waveSteps.
  destruct (idealLoop _ _ _ _) as [[|remaining|] waves];
    cbn [outcomeTrace snd].
  - by rewrite traceWaves_app, traceWaves_waves, traceWaves_seq, app_nil_r.
  - apply traceWaves_waves.
  - apply traceWaves_waves.
Qed.

Lemma RunTo_waves fuel b d (id : string) :
  allReturn b →
  traceWaves (outcomeTrace (Tdag.RunTo fuel b d id)) = []
  ∨ ∃ R, traceWaves (outcomeTrace (Tdag.RunTo fuel b d id))
         = (idealLoop fuel (Some R) (Tdag.Nodes d)
              (initState (Some R) (Tdag.Nodes d) (Tdag.Edges d))).2.
Proof.
  intros Hret. rewrite (RunTo_allReturn fuel b d id Hret).
  destruct (Tdag.findNodeByID d id) as [targetNode|]; [|by left].
  destruct (collectDependencies _ _ _ _) as [R|]; [|by left].
  right. exists R. cbv zeta. unfold Tdag.waveSteps.
  destruct (idealLoop _ _ _ _) as [[|remaining|] waves];
    cbn [outcomeTrace snd].
  - apply traceWaves_RunTo_shape.
  - by rewrite traceWaves_app, traceWaves_waves, traceWaves_seq.
  - by rewrite traceWaves_app, traceWaves_waves, traceWaves_seq.
Qed.

End RunsMore.

(** X8: when every call of the run returns and [t.Run] skips no closure,
    on an acyclic graph whose edges join registered nodes and whose node
    identifiers are pairwise distinct, [RunTo] of a registered target
    returns and runs every node in a later wave than all its dependencies,
    where the dependencies are taken over all edges of the graph. *)
Theorem X8_RunTo_runs_dependencies_in_earlier_waves
    {F : Type} (fuel : nat) (b : Behaviour) (d : Tdag.TDag F)
    (target : string) :
  allReturn b →
  (length (Tdag.Nodes d) < fuel)%nat →
  uniqueIDs (Tdag.Nodes d) →
  edgesRegistered (Tdag.Nodes d) (Tdag.Edges d) →
  acyclic (Tdag.Edges d) →
  registered (Tdag.Nodes d) target →
  ∃ trace,
    Tdag.RunTo fuel b d target = Finished trace
    ∧ wavesOrdered (Tdag.Edges d) [] (traceWaves trace).
Proof.
  intros Hret Hfuel Huniq Hreg Hac Htarget.
  destruct (run_to_correct (Tdag.Nodes d) (Tdag.Edges d) target fuel
              Huniq Hreg Hac Htarget Hfuel)
    as (R & waves & HR & Hrun & _ & Hmem & Hord).
  destruct (collectDependencies_closure (Tdag.Edges d) target)
    as (R' & HR' & HRiff).
  rewrite HR in HR'. injection HR' as <-.
  rewrite (RunTo_allReturn fuel b d target Hret). unfold Tdag.findNodeByID.
  apply findNode_is_Some in Htarget as [targetNode ->].
  rewrite HR. cbv zeta. rewrite Hrun. eexists. split; [done|].
  rewrite traceWaves_RunTo_shape.
  eapply wavesOrdered_weaken; [|exact Hord].
  intros n e Hn He Hr. apply Hmem in Hn as [_ Hreach].
  apply elem_of_eligibleEdges. split_and!; [done| |]; cbn [isRequired];
    apply HRiff.
  - eapply rtc_l; [|exact Hreach]. exists e. done.
  - by rewrite Hr.
Qed.

Lemma X8_witness_chainABC :
  ∃ trace,
    Tdag.RunTo 4 returning Examples.chainABC "C" = Finished trace
    ∧ wavesOrdered (Tdag.Edges Examples.chainABC) [] (traceWaves trace).
Proof.
  apply (X8_RunTo_runs_dependencies_in_earlier_waves
           4 returning Examples.chainABC "C").
  - exact allReturn_returning.
  - vm_compute. lia.
  - exact chainABC_uniqueIDs.
  - exact chainABC_edgesRegistered.
  - exact chainABC_acyclic.
  - unfold registered. vm_compute. set_solver.
Defined.

(** A cycle makes [RunTests] end in the report of the remaining nodes. *)
Lemma RunTests_cycle_fatal
    {F : Type} (fuel : nat) (b : Behaviour) (d : Tdag.TDag F) (v : string) :
  allReturn b →
  (length (Tdag.Nodes d) < fuel)%nat →
  uniqueIDs (Tdag.Nodes d) →
  edgesRegistered (Tdag.Nodes d) (Tdag.Edges d) →
  tc (edgeRel (Tdag.Edges d)) v v →
  ∃ remaining trace,
    Tdag.RunTests fuel b d = Fatal (FatalCycle remaining) trace
    ∧ v ∈ remaining
    ∧ (∀ n, n ∈ traceNodes trace → ID n ≠ v)
    ∧ tearDownCalls trace = [].
Proof.
  intros Hret Hfuel Huniq Hreg Hcyc.
  rewrite (RunTests_allReturn fuel b d Hret).
  set (nodes := Tdag.Nodes d) in *. set (edges := Tdag.Edges d) in *.
  set (st := initState None nodes edges).
  destruct (initState_ok None nodes edges) as [Hok Hc].
  rewrite eligibleEdges_all in Hok. fold st in Hok, Hc.
  assert (registered nodes v) as Hv.
  { destruct (tc_last_step _ _ _ Hcyc) as (u & _ & (e & He & _ & <-)).
    by apply (Hreg e He). }
  pose proof (idealLoop_total None nodes fuel st) as Htotal.
  pose proof (idealLoop_end None nodes fuel st) as Hend.
  destruct (idealLoop_cycle_never_runs None nodes edges Huniq
              fuel st Hok) as [HJ Hfree].
  { intros x _. rewrite Hc. set_solver. }
  fold st. cbv zeta in Hend.
  destruct (idealLoop fuel None nodes st) as [e waves].
  cbn [fst snd] in *.
  assert (v ∈ remainingIDs None nodes (loopFinal st waves)) as Hrem.
  { unfold remainingIDs. apply list_elem_of_filter. split; [|done].
    by apply HJ. }
  destruct e as [|remaining|].
  - rewrite Hend in Hrem. by apply elem_of_nil in Hrem.
  - destruct Hend as [-> _]. eexists _, _. split_and!; [done|done| |].
    + unfold Tdag.waveSteps. rewrite traceNodes_waves.
      intros n Hn <-. by apply (Hfree n).
    + apply tearDownCalls_waves.
  - destruct Htotal; [|done]. pose proof (incomplete_le nodes st). lia.
Qed.

(** X9: when every call of the run returns and [t.Run] skips no closure,
    on a graph with pairwise distinct identifiers whose edges join
    registered nodes, [RunTests] never calls a node that lies on a cycle;
    when there is one, the run ends in the report [Dependency cycle
    detected], the node is among the remaining ones, and no teardown
    function runs. *)
Theorem X9_RunTests_reports_every_cycle
    {F : Type} (fuel : nat) (b : Behaviour) (d : Tdag.TDag F) (v : string) :
  allReturn b →
  (length (Tdag.Nodes d) < fuel)%nat →
  uniqueIDs (Tdag.Nodes d) →
  edgesRegistered (Tdag.Nodes d) (Tdag.Edges d) →
  tc (edgeRel (Tdag.Edges d)) v v →
  ∃ remaining trace,
    Tdag.RunTests fuel b d = Fatal (FatalCycle remaining) trace
    ∧ v ∈ remaining
    ∧ (∀ n, n ∈ traceNodes trace → ID n ≠ v)
    ∧ tearDownCalls trace = [].
Proof. exact (RunTests_cycle_fatal fuel b d v). Qed.

Lemma cycleABC_uniqueIDs : uniqueIDs (Tdag.Nodes MoreExamples.cycleABC).
Proof. unfold uniqueIDs. vm_compute. repeat constructor; set_solver. Defined.

Lemma cycleABC_cycle :
  tc (edgeRel (Tdag.Edges MoreExamples.cycleABC)) "A" "A".
Proof.
  eapply tc_l; [|eapply tc_l; [|apply tc_once]].
  - exists (mkTEdge (mkTNode "A" "fnA") (mkTNode "B" "fnB")).
    split_and!; [vm_compute; set_solver|done|done].
  - exists (mkTEdge (mkTNode "B" "fnB") (mkTNode "C" "fnC")).
    split_and!; [vm_compute; set_solver|done|done].
  - exists (mkTEdge (mkTNode "C" "fnC") (mkTNode "A" "fnA")).
    split_and!; [vm_compute; set_solver|done|done].
Defined.

Lemma X9_witness_cycleABC :
  ∃ remaining trace,
    Tdag.RunTests 4 returning MoreExamples.cycleABC
    = Fatal (FatalCycle remaining) trace
    ∧ "A" ∈ remaining
    ∧ (∀ n, n ∈ traceNodes trace → ID n ≠ "A")
    ∧ tearDownCalls trace = [].
Proof.
  apply (X9_RunTests_reports_every_cycle 4 returning MoreExamples.cycleABC "A").
  - exact allReturn_returning.
  - vm_compute. lia.
  - exact cycleABC_uniqueIDs.
  - apply edgesRegistered_Forall. vm_compute. repeat constructor; set_solver.
  - exact cycleABC_cycle.
Defined.

Lemma tc_eligible {F : Type} (edges : list (TEdge F)) (R : gset string)
    (target : string) :
  (∀ x, x ∈ R ↔ reaches edges x target) →
  ∀ x y, tc (edgeRel edges) x y → reaches edges y target →
         tc (edgeRel (eligibleEdges (Some R) edges)) x y.
Proof.
  intros HR x y Hxy. induction Hxy as [x y Hxy|x z y Hxz Hzy IH]; intros Hy.
  - apply tc_once. destruct Hxy as (e & He & <- & <-). exists e.
    split; [|done]. apply elem_of_eligibleEdges. cbn [isRequired].
    split_and!; [done| |]; apply HR; [|done].
    eapply rtc_l; [|exact Hy]. by exists e.
  - assert (reaches edges z target) as Hz.
    { eapply rtc_trans; [|exact Hy]. by apply tc_rtc. }
    eapply tc_l; [|by apply IH].
    destruct Hxz as (e & He & <- & <-). exists e.
    split; [|done]. apply elem_of_eligibleEdges. cbn [isRequired].
    split_and!; [done| |]; apply HR; [|done].
    eapply rtc_l; [|exact Hz]. by exists e.
Qed.

(** A cycle in the closure makes [RunTo] end in the report of the
    remaining nodes. *)
Lemma RunTo_cycle_fatal
    {F : Type} (fuel : nat) (b : Behaviour) (d : Tdag.TDag F)
    (target v : string) :
  allReturn b →
  (length (Tdag.Nodes d) < fuel)%nat →
  uniqueIDs (Tdag.Nodes d) →
  registered (Tdag.Nodes d) target →
  tc (edgeRel (Tdag.Edges d)) v v →
  reaches (Tdag.Edges d) v target →
  ∃ remaining trace,
    Tdag.RunTo fuel b d target = Fatal (FatalCycle remaining) trace
    ∧ v ∈ remaining
    ∧ (∀ n, n ∈ traceNodes trace → ID n ≠ v)
    ∧ setupCalls trace = Tdag.SetupFns d
    ∧ tearDownCalls trace = [].
Proof.
  intros Hret Hfuel Huniq Htarget Hcyc Hreach.
  rewrite (RunTo_allReturn fuel b d target Hret). unfold Tdag.findNodeByID.
  apply findNode_is_Some in Htarget as [targetNode ->].
  set (nodes := Tdag.Nodes d) in *. set (edges := Tdag.Edges d) in *.
  destruct (collectDependencies_closure edges target) as (R & HR & HRiff).
  set (st := initState (Some R) nodes edges).
  destruct (initState_ok (Some R) nodes edges) as [Hok Hc].
  fold st in Hok, Hc.
  pose proof (tc_eligible edges R target HRiff v v Hcyc Hreach) as Hcyc'.
  pose proof (idealLoop_total (Some R) nodes fuel st) as Htotal.
  pose proof (idealLoop_end (Some R) nodes fuel st) as Hend.
  destruct (idealLoop_cycle_never_runs (Some R) nodes
              (eligibleEdges (Some R) edges) Huniq
              fuel st Hok) as [HJ Hfree].
  { intros x _. rewrite Hc. set_solver. }
  rewrite HR. fold st. cbv zeta in Hend |- *.
  destruct (idealLoop fuel (Some R) nodes st) as [e waves].
  cbn [fst snd] in *.
  assert (v ∈ remainingIDs (Some R) nodes (loopFinal st waves)) as Hrem.
  { unfold remainingIDs. apply list_elem_of_filter. split; [by apply HJ|].
    apply elem_of_elements. by apply HRiff. }
  destruct e as [|remaining|].
  - rewrite Hend in Hrem. by apply elem_of_nil in Hrem.
  - destruct Hend as [-> _]. eexists _, _. split_and!; [done|done| | |].
    + unfold Tdag.waveSteps.
      rewrite traceNodes_app, traceNodes_seq, traceNodes_waves by done.
      intros n Hn Heq. apply (Hfree n Hn). by rewrite Heq.
    + by rewrite setupCalls_app, setupCalls_setup, setupCalls_waves, app_nil_r.
    + by rewrite tearDownCalls_app, tearDownCalls_setup, tearDownCalls_waves.
  - destruct Htotal; [|done]. pose proof (incomplete_le nodes st). lia.
Qed.

(** X10: when every call of the run returns and [t.Run] skips no
    closure, on a graph with pairwise distinct identifiers, [RunTo] of a
    registered target never calls a node that lies on a cycle; when a cycle
    lies in the closure of the target, the run calls the setup functions,
    ends in the report [Dependency cycle detected] with the node among the
    remaining ones, and calls no teardown function. *)
Theorem X10_RunTo_reports_every_cycle_of_the_closure
    {F : Type} (fuel : nat) (b : Behaviour) (d : Tdag.TDag F)
    (target v : string) :
  allReturn b →
  (length (Tdag.Nodes d) < fuel)%nat →
  uniqueIDs (Tdag.Nodes d) →
  registered (Tdag.Nodes d) target →
  tc (edgeRel (Tdag.Edges d)) v v →
  reaches (Tdag.Edges d) v target →
  ∃ remaining trace,
    Tdag.RunTo fuel b d target = Fatal (FatalCycle remaining) trace
    ∧ v ∈ remaining
    ∧ (∀ n, n ∈ traceNodes trace → ID n ≠ v)
    ∧ setupCalls trace = Tdag.SetupFns d
    ∧ tearDownCalls trace = [].
Proof. exact (RunTo_cycle_fatal fuel b d target v). Qed.

Lemma X10_witness_cycleABC :
  ∃ remaining trace,
    Tdag.RunTo 4 returning MoreExamples.cycleABC "B"
    = Fatal (FatalCycle remaining) trace
    ∧ "A" ∈ remaining
    ∧ (∀ n, n ∈ traceNodes trace → ID n ≠ "A")
    ∧ setupCalls trace = Tdag.SetupFns MoreExamples.cycleABC
    ∧ tearDownCalls trace = [].
Proof.
  apply (X10_RunTo_reports_every_cycle_of_the_closure
           4 returning MoreExamples.cycleABC "B" "A").
  - exact allReturn_returning.
  - vm_compute. lia.
  - exact cycleABC_uniqueIDs.
  - unfold registered. vm_compute. set_solver.
  - exact cycleABC_cycle.
  - eapply rtc_l; [|apply rtc_refl].
    exists (mkTEdge (mkTNode "A" "fnA") (mkTNode "B" "fnB")).
    split_and!; [vm_compute; set_solver|done|done].
Defined.

(** No pass starts an empty wave, whatever the callbacks do. *)
Lemma runLoop_waves_nonempty {F : Type} (ends : nat → nat → End) required
    (nodes : list (TNode F)) :
  ∀ fuel pass st,
    Forall (fun wave => wave ≠ [])
      ((fun wave : list (TNode F * End) => wave.*1)
         <$> (runLoop ends fuel pass required nodes st).2).
Proof.
  induction fuel as [|fuel IH]; intros pass st; [constructor|].
  rewrite runLoop_step.
  destruct (availableNodes required nodes st) as [|a av].
  - destruct (remainingIDs required nodes st); constructor.
  - cbv zeta. cbn [snd]. rewrite fmap_cons. constructor; [|apply IH].
    by rewrite startWave_nodes.
Qed.

(** X11: in every run of [RunTests] that makes a pass, whatever the
    callbacks do and however the run ends, no wave is empty and the first
    wave starts exactly the nodes no edge points to (none of them, no wave
    at all). *)
Theorem X11_RunTests_first_wave_is_the_nodes_without_dependencies
    {F : Type} (fuel : nat) (b : Behaviour) (d : Tdag.TDag F) :
  Forall (fun wave => wave ≠ [])
    (traceWaves (outcomeTrace (Tdag.RunTests (S fuel) b d)))
  ∧ head (traceWaves (outcomeTrace (Tdag.RunTests (S fuel) b d)))
    = match roots (Tdag.Nodes d) (Tdag.Edges d) with
      | [] => None
      | wave => Some wave
      end.
Proof.
  rewrite RunTests_waves_of_loop. split; [apply runLoop_waves_nonempty|].
  rewrite runLoop_step, first_wave_roots.
  destruct (roots (Tdag.Nodes d) (Tdag.Edges d)) as [|a l].
  - by destruct (remainingIDs None _ _).
  - cbv zeta. cbn [snd]. rewrite fmap_cons. cbn [head].
    by rewrite startWave_nodes.
Qed.

(** ** The D2 export: it terminates on every graph, cyclic ones included,
    and writes one line for each edge key that a registered node reaches *)

Section D2Proofs.
Context {F : Type}.
Implicit Types (edges : list (TEdge F)) (st : D2.State) (e : TEdge F).

Lemma isVisited_mark st x b id :
  D2.isVisited (D2.mark x b st) id
  = if decide (x = id) then b else D2.isVisited st id.
Proof.
  unfold D2.isVisited, D2.mark. cbn. rewrite lookup_insert.
  by destruct (decide (x = id)).
Qed.

Lemma is_Some_mark st x b id :
  is_Some (D2.visited st !! id) → is_Some (D2.visited (D2.mark x b st) !! id).
Proof.
  intros H. cbn. rewrite lookup_insert. by destruct (decide (x = id)).
Qed.

Lemma visited_false st id :
  is_Some (D2.visited st !! id) → D2.isVisited st id = false →
  D2.visited st !! id = Some false.
Proof.
  unfold D2.isVisited. intros [b Hb]. rewrite Hb. cbn. by intros ->.
Qed.

Lemma isVisited_is_Some st id :
  D2.isVisited st id = true → is_Some (D2.visited st !! id).
Proof. unfold D2.isVisited. by destruct (D2.visited st !! id). Qed.

Lemma budget_ext edges st st' :
  (∀ id, D2.isVisited st' id = D2.isVisited st id) →
  D2.budget edges st' = D2.budget edges st.
Proof.
  intros H. unfold D2.budget. f_equal. apply list_filter_iff.
  intros e. by rewrite H.
Qed.

Lemma budget_le edges st : (D2.budget edges st ≤ length edges)%nat.
Proof. unfold D2.budget. apply length_filter. Qed.

Lemma budget_mark_lt edges st e :
  e ∈ edges → D2.isVisited st (ID (Right e)) = false →
  (D2.budget edges (D2.mark (ID (Right e)) true st) < D2.budget edges st)%nat.
Proof.
  intros He Hr. unfold D2.budget. apply filter_length_lt with (a := e).
  - intros x _. rewrite isVisited_mark.
    by destruct (decide (ID (Right e) = ID (Right x))).
  - done.
  - done.
  - by rewrite isVisited_mark, decide_True.
Qed.

Lemma sameMarks_refl st : D2.sameMarks st st.
Proof. by split. Qed.

Lemma sameMarks_trans st1 st2 st3 :
  D2.sameMarks st1 st2 → D2.sameMarks st2 st3 → D2.sameMarks st1 st3.
Proof.
  intros [H1 H1'] [H2 H2']. split; intros id.
  - by rewrite H2, H1.
  - intros H. by apply H2', H1'.
Qed.

Lemma sameMarks_printEdge st e : D2.sameMarks st (D2.printEdge e st).
Proof.
  unfold D2.printEdge.
  destruct (decide (D2.edgeKey e ∈ D2.edgesPrinted st)); by split.
Qed.

Lemma printsFrom_refl edges origin st : D2.printsFrom edges origin st st.
Proof.
  exists []. cbn. rewrite app_nil_r. split_and!; [done|set_solver|constructor|].
  intros e He. by apply elem_of_nil in He.
Qed.

Lemma printsFrom_subseteq edges origin st st' :
  D2.printsFrom edges origin st st' →
  D2.edgesPrinted st ⊆ D2.edgesPrinted st'.
Proof. intros (new & _ & -> & _). set_solver. Qed.

Lemma printsFrom_trans edges origin st1 st2 st3 :
  D2.printsFrom edges origin st1 st2 → D2.printsFrom edges origin st2 st3 →
  D2.printsFrom edges origin st1 st3.
Proof.
  intros (new1 & Hb1 & Hp1 & Hnd1 & Hnew1) (new2 & Hb2 & Hp2 & Hnd2 & Hnew2).
  exists (new1 ++ new2). split_and!.
  - by rewrite Hb2, Hb1, fmap_app, app_assoc.
  - rewrite Hp2, Hp1, fmap_app, list_to_set_app_L. set_solver.
  - rewrite fmap_app. apply NoDup_app. split_and!; [done| |done].
    intros k Hk1 (e & -> & He)%list_elem_of_fmap.
    destruct (Hnew2 e He) as (_ & Hnin & _). apply Hnin. rewrite Hp1.
    apply elem_of_union_l. by apply elem_of_list_to_set.
  - intros e [He|He]%elem_of_app; [by apply Hnew1|].
    destruct (Hnew2 e He) as (He' & Hnin & Hor). split_and!; [done| |done].
    intros Hin. apply Hnin. rewrite Hp1. by apply elem_of_union_r.
Qed.

Lemma printsFrom_weaken edges (origin origin' : string → Prop) st st' :
  (∀ x, origin x → ∃ y, origin' y ∧ reaches edges y x) →
  D2.printsFrom edges origin st st' → D2.printsFrom edges origin' st st'.
Proof.
  intros Ho (new & Hb & Hp & Hnd & Hnew). exists new. split_and!; try done.
  intros e He. destruct (Hnew e He) as (He' & Hnin & x & Hx & Hreach).
  split_and!; try done. destruct (Ho x Hx) as (y & Hy & Hyx).
  exists y. split; [done|]. by eapply rtc_trans.
Qed.

Lemma printsFrom_printEdge edges st e :
  e ∈ edges → D2.printsFrom edges (eq (ID (Left e))) st (D2.printEdge e st).
Proof.
  intros He. unfold D2.printEdge.
  destruct (decide (D2.edgeKey e ∈ D2.edgesPrinted st)) as [|Hnin].
  - apply printsFrom_refl.
  - exists [e]. cbn. split_and!; [done|set_solver|by apply NoDup_singleton|].
    intros e' Heq%list_elem_of_singleton. subst e'. split_and!; [done|done|].
    exists (ID (Left e)). split; [done|apply rtc_refl].
Qed.

Lemma printEdge_printed st e : D2.edgeKey e ∈ D2.edgesPrinted (D2.printEdge e st).
Proof.
  unfold D2.printEdge.
  destruct (decide (D2.edgeKey e ∈ D2.edgesPrinted st)); [done|].
  cbn. set_solver.
Qed.

Lemma explored_printEdge edges st e :
  D2.explored edges st → D2.explored edges (D2.printEdge e st).
Proof.
  intros Hexp id e' Hid He' Hl. unfold D2.printEdge in *.
  destruct (decide (D2.edgeKey e ∈ D2.edgesPrinted st)); [by eapply Hexp|].
  cbn in *. destruct (Hexp id e' Hid He' Hl) as [Hk Hs].
  split; [set_solver|done].
Qed.

Lemma explored_mark_true edges st x :
  D2.explored edges st → D2.explored edges (D2.mark x true st).
Proof.
  intros Hexp id e Hid He Hl. cbn in Hid. rewrite lookup_insert in Hid.
  destruct (decide (x = id)); [done|].
  destruct (Hexp id e Hid He Hl) as [Hk Hs].
  split; [done|by apply is_Some_mark].
Qed.

Lemma explored_mark_false edges st x :
  D2.explored edges st →
  (∀ e, e ∈ edges → ID (Left e) = x →
        D2.edgeKey e ∈ D2.edgesPrinted st
        ∧ is_Some (D2.visited st !! ID (Right e))) →
  D2.explored edges (D2.mark x false st).
Proof.
  intros Hexp Hx id e Hid He Hl. cbn in Hid. rewrite lookup_insert in Hid.
  destruct (decide (x = id)) as [->|].
  - destruct (Hx e He Hl) as [Hk Hs]. split; [done|by apply is_Some_mark].
  - destruct (Hexp id e Hid He Hl) as [Hk Hs].
    split; [done|by apply is_Some_mark].
Qed.

(** One call of [buildD2FromNode] with budget enough for the unmarked
    right ends. *)
Lemma buildD2FromNode_spec edges (fuel : nat) :
  ∀ (node : TNode F) st,
    ((if D2.isVisited st (ID node) then 1
      else 2 + D2.budget edges (D2.mark (ID node) true st)) ≤ fuel)%nat →
    ∃ st',
      D2.buildD2FromNode fuel edges node st = Some st'
      ∧ D2.sameMarks st st'
      ∧ is_Some (D2.visited st' !! ID node)
      ∧ D2.printsFrom edges (eq (ID node)) st st'
      ∧ (D2.explored edges st → D2.explored edges st').
Proof.
  induction fuel as [|fuel IH]; intros node st Hfuel.
  { destruct (D2.isVisited st (ID node)); lia. }
  cbn [D2.buildD2FromNode].
  destruct (D2.isVisited st (ID node)) eqn:Hv.
  { exists st. split_and!;
      [done|apply sameMarks_refl|by apply isVisited_is_Some
      |apply printsFrom_refl|done]. }
  set (st0 := D2.mark (ID node) true st) in *.
  assert (∀ es st1,
    (∀ e, e ∈ es → e ∈ edges) → D2.sameMarks st0 st1 →
    ∃ st',
      D2.buildD2Edges (D2.buildD2FromNode fuel edges) (ID node) es st1
      = Some st'
      ∧ D2.sameMarks st1 st'
      ∧ D2.printsFrom edges (eq (ID node)) st1 st'
      ∧ (D2.explored edges st1 → D2.explored edges st')
      ∧ ∀ e, e ∈ es → ID (Left e) = ID node →
             D2.edgeKey e ∈ D2.edgesPrinted st'
             ∧ is_Some (D2.visited st' !! ID (Right e))) as Hloop.
  { induction es as [|e es IHes]; intros st1 Hsub Hsame.
    { exists st1. split_and!;
        [done|apply sameMarks_refl|apply printsFrom_refl|done|].
      intros e He. by apply elem_of_nil in He. }
    assert (e ∈ edges) as He by (apply Hsub; left).
    assert (∀ e', e' ∈ es → e' ∈ edges) as Hsub'
      by (intros e' He'; apply Hsub; by right).
    cbn [D2.buildD2Edges].
    destruct (decide (ID (Left e) = ID node)) as [Hl|Hl].
    - set (st2 := D2.printEdge e st1).
      pose proof (sameMarks_printEdge st1 e) as Hsame12. fold st2 in Hsame12.
      assert (D2.sameMarks st0 st2) as Hsame02
        by (by eapply sameMarks_trans).
      destruct (IH (Right e) st2) as (st3 & Hrec & Hsame23 & Hsome & Hpr & Hex).
      { destruct (D2.isVisited st2 (ID (Right e))) eqn:Hr; [lia|].
        assert (D2.budget edges (D2.mark (ID (Right e)) true st2)
                < D2.budget edges st2)%nat by (by apply budget_mark_lt).
        rewrite (budget_ext edges st0 st2) in H by apply Hsame02. lia. }
      destruct (IHes st3 Hsub') as (st' & Hrun & Hsame3 & Hpr3 & Hex3 & Hpost).
      { by eapply sameMarks_trans. }
      rewrite Hrec. exists st'. split_and!.
      + done.
      + eapply sameMarks_trans; [exact Hsame12|].
        by eapply sameMarks_trans.
      + eapply printsFrom_trans; [|eapply printsFrom_trans; [|exact Hpr3]].
        * rewrite <-Hl. by apply printsFrom_printEdge.
        * eapply printsFrom_weaken; [|exact Hpr].
          intros x <-. exists (ID node). split; [done|].
          apply rtc_once. by exists e.
      + intros H. by apply Hex3, Hex, explored_printEdge.
      + intros e' [->|He']%elem_of_cons Hl'; [|by apply Hpost].
        split.
        * apply (printsFrom_subseteq _ _ _ _ Hpr3),
            (printsFrom_subseteq _ _ _ _ Hpr), printEdge_printed.
        * by apply Hsame3.
    - destruct (IHes st1 Hsub' Hsame) as (st' & Hrun & Hsame' & Hpr & Hex & Hpost).
      exists st'. split_and!; try done.
      intros e' [->|He']%elem_of_cons Hl'; [done|by apply Hpost]. }
  destruct (Hloop edges st0 (fun _ H => H) (sameMarks_refl st0))
    as (st' & Hrun & [Hm Hk] & Hpr & Hex & Hpost).
  rewrite Hrun. cbn [fmap option_fmap option_map].
  exists (D2.mark (ID node) false st'). split_and!.
  - done.
  - split; intros id.
    + rewrite isVisited_mark. destruct (decide (ID node = id)) as [<-|Hne].
      * by rewrite Hv.
      * rewrite Hm. unfold st0. by rewrite isVisited_mark, decide_False.
    + intros H. by apply is_Some_mark, Hk, is_Some_mark.
  - cbn. by rewrite lookup_insert_eq.
  - destruct Hpr as (new & Hb & Hp & Hnd & Hnew). by exists new.
  - intros H. apply explored_mark_false; [|done].
    by apply Hex, explored_mark_true.
Qed.

(** The loop of [ToD2] over the nodes, started with no mark set. *)
Lemma toD2Nodes_spec edges :
  ∀ (nodes : list (TNode F)) st,
    (∀ id, D2.isVisited st id = false) →
    ∃ st',
      D2.toD2Nodes edges nodes st = Some st'
      ∧ D2.sameMarks st st'
      ∧ (∀ n, n ∈ nodes → is_Some (D2.visited st' !! ID n))
      ∧ D2.printsFrom edges (registered nodes) st st'
      ∧ (D2.explored edges st → D2.explored edges st').
Proof.
  induction nodes as [|n nodes IH]; intros st Hst.
  { exists st. split_and!;
      [done|apply sameMarks_refl| |apply printsFrom_refl|done].
    intros n Hn. by apply elem_of_nil in Hn. }
  assert (∀ st1 st2, D2.printsFrom edges (registered nodes) st1 st2 →
                     D2.printsFrom edges (registered (n :: nodes)) st1 st2)
    as Hrest.
  { intros st1 st2. apply printsFrom_weaken. intros x Hx.
    exists x. split; [|apply rtc_refl]. unfold registered in *.
    rewrite fmap_cons. by right. }
  cbn [D2.toD2Nodes].
  destruct (decide (is_Some (D2.visited st !! ID n))) as [Hin|Hnin].
  - destruct (IH st Hst) as (st' & Hrun & Hsame & Hkeys & Hpr & Hex).
    exists st'. split_and!; [done|done| |by apply Hrest|done].
    intros n' [->|Hn']%elem_of_cons; [by apply Hsame|by apply Hkeys].
  - destruct (buildD2FromNode_spec edges (S (S (length edges))) n st)
      as (st1 & Hcall & Hsame1 & Hsome & Hpr1 & Hex1).
    { rewrite Hst. pose proof (budget_le edges (D2.mark (ID n) true st)). lia. }
    destruct (IH st1) as (st' & Hrun & Hsame & Hkeys & Hpr & Hex).
    { intros id. destruct Hsame1 as [-> _]. apply Hst. }
    rewrite Hcall. exists st'. split_and!.
    + done.
    + by eapply sameMarks_trans.
    + intros n' [->|Hn']%elem_of_cons; [by apply Hsame|by apply Hkeys].
    + eapply printsFrom_trans; [|by apply Hrest].
      eapply printsFrom_weaken; [|exact Hpr1].
      intros x <-. exists (ID n). split; [|apply rtc_refl].
      unfold registered. rewrite fmap_cons. by left.
    + intros H. by apply Hex, Hex1.
Qed.

End D2Proofs.

(** X13: [ToD2] returns on every graph, a cyclic one included.  The text
    it hands to the file is made of the lines [L -> R] of edges of the
    graph, no two of them under the same key [L->R]; an edge has a line
    only if a registered node reaches its left end, and the key of every
    such edge has its line. *)
Theorem X13_ToD2_writes_each_reachable_edge_key_once
    {F : Type} (nodes : list (TNode F)) (edges : list (TEdge F)) :
  ∃ printed,
    D2.ToD2 nodes edges = Some (D2.builderString (D2.edgeLine <$> printed))
    ∧ NoDup (D2.edgeKey <$> printed)
    ∧ (∀ e, e ∈ printed →
            e ∈ edges
            ∧ ∃ x, registered nodes x ∧ reaches edges x (ID (Left e)))
    ∧ (∀ e x, e ∈ edges → registered nodes x →
              reaches edges x (ID (Left e)) →
              D2.edgeKey e ∈ D2.edgeKey <$> printed).
Proof.
  destruct (toD2Nodes_spec edges nodes (D2.mkState ∅ ∅ []))
    as (st' & Hrun & [Hm Hk] & Hkeys & (printed & Hb & Hp & Hnd & Hnew) & Hex).
  { done. }
  assert (D2.explored edges st') as Hexp.
  { apply Hex. intros id e Hid. cbn in Hid. by rewrite lookup_empty in Hid. }
  assert (∀ id, is_Some (D2.visited st' !! id) →
                D2.visited st' !! id = Some false) as Hfalse.
  { intros id H. apply visited_false; [done|]. by rewrite Hm. }
  exists printed. unfold D2.ToD2. rewrite Hrun. cbn in Hb, Hp.
  split_and!.
  - cbn. by rewrite Hb.
  - done.
  - intros e He. destruct (Hnew e He) as (He' & _ & Hor). done.
  - intros e x He Hx Hreach.
    assert (D2.visited st' !! ID (Left e) = Some false) as Hl.
    { unfold registered in Hx. apply list_elem_of_fmap in Hx as (n & -> & Hn).
      pose proof (Hfalse _ (Hkeys n Hn)) as Hstart.
      assert (∀ a b, reaches edges a b →
                     D2.visited st' !! a = Some false →
                     D2.visited st' !! b = Some false) as Hclosed.
      { intros a b Hab.
        induction Hab as [|a b c (e' & He' & <- & <-) _ IH]; [done|].
        intros Ha. apply IH, Hfalse. by apply (Hexp _ e' Ha He'). }
      by apply (Hclosed _ _ Hreach). }
    destruct (Hexp _ e Hl He eq_refl) as [Hkey _].
    rewrite Hp in Hkey. apply elem_of_union in Hkey as [Hkey|Hkey].
    + by apply elem_of_list_to_set in Hkey.
    + by apply elem_of_empty in Hkey.
Qed.

(** ** What the check of [AddEdge] leaves in a graph *)

Section BuiltEdges.
Context {F : Type}.
Implicit Types (d : Tdag.TDag F).

Lemma AddEdge_checked d from to :
  (∀ i e, Tdag.Edges d !! i = Some e →
          ¬ reaches (take i (Tdag.Edges d)) (ID (Left e)) (ID (Right e))) →
  ∀ i e, Tdag.Edges (Tdag.AddEdge d from to).1 !! i = Some e →
         ¬ reaches (take i (Tdag.Edges (Tdag.AddEdge d from to).1))
             (ID (Left e)) (ID (Right e)).
Proof.
  intros Hinv. unfold Tdag.AddEdge, addEdges.
  destruct (findNode (Tdag.Nodes d) from) as [fromNode|] eqn:Hfrom; [|done].
  pose proof (addEdgeTargets_spec (Tdag.Nodes d) from fromNode to
                (Tdag.Edges d) []) as Hspec.
  destruct (addEdgeTargets (Tdag.Nodes d) (Tdag.Edges d) from fromNode to [])
    as [edges [created err]].
  cbn [fst snd] in *. destruct Hspec as (added & -> & Hcorr & _).
  cbn [Tdag.Edges]. intros i e [Hi|[Hle Hi]]%lookup_app_Some.
  - rewrite take_app_le by (apply lookup_lt_Some in Hi; lia). by apply Hinv.
  - rewrite take_app_ge by done.
    destruct (Hcorr _ e Hi) as (<- & _ & _ & _ & Hcheck).
    intros Hreach%createsCycleB_iff_reaches. by rewrite Hreach in Hcheck.
Qed.

Lemma build_checked (ops : list (Op F)) :
  ∀ i e, Tdag.Edges (build ops) !! i = Some e →
         ¬ reaches (take i (Tdag.Edges (build ops))) (ID (Left e)) (ID (Right e)).
Proof.
  unfold build.
  assert (∀ d,
    (∀ i e, Tdag.Edges d !! i = Some e →
            ¬ reaches (take i (Tdag.Edges d)) (ID (Left e)) (ID (Right e))) →
    ∀ i e, Tdag.Edges (foldl applyOp d ops) !! i = Some e →
           ¬ reaches (take i (Tdag.Edges (foldl applyOp d ops)))
               (ID (Left e)) (ID (Right e))) as Hgen.
  { induction ops as [|op ops IH]; intros d Hd; [done|].
    cbn [foldl]. apply IH.
    destruct op as [id fn|from to|fn|fn|fn|fn]; cbn [applyOp]; try done.
    by apply AddEdge_checked. }
  apply Hgen. intros i e Hi. cbn in Hi. by rewrite lookup_nil in Hi.
Qed.

Lemma hooks_AddEdge d from to :
  Tdag.SetupFns (Tdag.AddEdge d from to).1 = Tdag.SetupFns d
  ∧ Tdag.TearDownFns (Tdag.AddEdge d from to).1 = Tdag.TearDownFns d
  ∧ Tdag.BeforeEachFns (Tdag.AddEdge d from to).1 = Tdag.BeforeEachFns d
  ∧ Tdag.AfterEachFns (Tdag.AddEdge d from to).1 = Tdag.AfterEachFns d.
Proof.
  unfold Tdag.AddEdge.
  by destruct (addEdges (Tdag.Nodes d) (Tdag.Edges d) from to) as [edges result].
Qed.

End BuiltEdges.

(** X14: in a graph built through the API, every edge passed the check of
    [AddEdge] against the edges added before it: its right end is not
    reachable from its left end along those.  So no edge joins an
    identifier to itself, and no two edges join the same two identifiers
    in the same direction. *)
Theorem X14_built_graph_edges_passed_the_check
    {F : Type} (ops : list (Op F)) (i : nat) (e : TEdge F) :
  Tdag.Edges (build ops) !! i = Some e →
  ¬ reaches (take i (Tdag.Edges (build ops))) (ID (Left e)) (ID (Right e))
  ∧ ID (Left e) ≠ ID (Right e)
  ∧ ∀ j e', (j < i)%nat → Tdag.Edges (build ops) !! j = Some e' →
            ¬ (ID (Left e') = ID (Left e) ∧ ID (Right e') = ID (Right e)).
Proof.
  intros Hi. pose proof (build_checked ops i e Hi) as Hcheck.
  split_and!; [done| |].
  - intros Heq. apply Hcheck. rewrite Heq. apply rtc_refl.
  - intros j e' Hj He' [Hl Hr]. apply Hcheck, rtc_once. exists e'.
    split_and!; [|done|done].
    apply list_elem_of_lookup. exists j. by rewrite lookup_take_lt.
Qed.

Lemma X14_witness_chainABC :
  ¬ reaches (take 1 (Tdag.Edges Examples.chainABC)) "B" "C"
  ∧ "B" ≠ "C"
  ∧ ∀ j e', (j < 1)%nat → Tdag.Edges Examples.chainABC !! j = Some e' →
            ¬ (ID (Left e') = "B" ∧ ID (Right e') = "C").
Proof.
  apply (X14_built_graph_edges_passed_the_check
           [OpAddNode "A" "fnA"; OpAddNode "B" "fnB"; OpAddNode "C" "fnC";
            OpAddEdge "A" ["B"]; OpAddEdge "B" ["C"]]
           1%nat (mkTEdge (mkTNode "B" "fnB") (mkTNode "C" "fnC"))).
  reflexivity.
Defined.

(** X15: the four hook lists of a graph built through the API hold the
    functions handed to [Setup], [TearDown], [BeforeEach] and [AfterEach],
    each list in the order of the calls; [AddNode] and [AddEdge], accepted
    or turned down, leave them alone. *)
Theorem X15_hooks_are_kept_in_registration_order
    {F : Type} (ops : list (Op F)) :
  Tdag.SetupFns (build ops) = omap setupOf ops
  ∧ Tdag.TearDownFns (build ops) = omap tearDownOf ops
  ∧ Tdag.BeforeEachFns (build ops) = omap beforeEachOf ops
  ∧ Tdag.AfterEachFns (build ops) = omap afterEachOf ops.
Proof.
  unfold build.
  assert (∀ d : Tdag.TDag F,
    Tdag.SetupFns (foldl applyOp d ops) = Tdag.SetupFns d ++ omap setupOf ops
    ∧ Tdag.TearDownFns (foldl applyOp d ops)
      = Tdag.TearDownFns d ++ omap tearDownOf ops
    ∧ Tdag.BeforeEachFns (foldl applyOp d ops)
      = Tdag.BeforeEachFns d ++ omap beforeEachOf ops
    ∧ Tdag.AfterEachFns (foldl applyOp d ops)
      = Tdag.AfterEachFns d ++ omap afterEachOf ops) as Hgen.
  { induction ops as [|op ops IH]; intros d.
    { cbn. by rewrite !app_nil_r. }
    cbn [foldl]. destruct (IH (applyOp d op)) as (-> & -> & -> & ->).
    destruct op as [id fn|from to|fn|fn|fn|fn]; cbn [applyOp omap];
      try (destruct (hooks_AddEdge d from to) as (-> & -> & -> & ->));
      cbn; by rewrite <-?app_assoc. }
  apply (Hgen (Tdag.NewTDag (mkT [] false))).
Qed.

(** ** package dag *)

(** X16: in the store of package dag, [Get] after any history of [Set]
    calls returns the value of the last [Set] on the key, and what the
    store held before when the history never wrote it.  On a fresh store a
    nil read does not tell a key that was never set from one whose last
    [Set] stored nil. *)
Theorem X16_dag_store_last_write_wins
    (s : DagStore.Store) (writes : list (string * GoValue)) (key : string) :
  DagStore.Get (dagRunSets s writes) key
  = default (DagStore.Get s key) (Store.lastWrite key writes)
  ∧ (DagStore.Get (dagRunSets DagStore.NewStore writes) key = VNil
     ↔ Store.lastWrite key writes = None
       ∨ Store.lastWrite key writes = Some VNil).
Proof.
  assert (∀ s, DagStore.Get (dagRunSets s writes) key
               = default (DagStore.Get s key) (Store.lastWrite key writes))
    as Hget.
  { clear s. induction writes as [|[k v] writes IH]; intros s; [done|].
    cbn [dagRunSets foldl Store.lastWrite].
    fold (dagRunSets (DagStore.Set_ s k v) writes). rewrite IH.
    destruct (Store.lastWrite key writes); [done|].
    unfold DagStore.Get, DagStore.Set_. cbn. rewrite lookup_insert.
    by destruct (decide (k = key)). }
  split; [apply Hget|]. rewrite Hget.
  destruct (Store.lastWrite key writes) as [v|]; cbn.
  - split; [intros ->; by right|]. by intros [|[= ->]].
  - split; [by left|done].
Qed.

Lemma dagDiamond_uniqueIDs : uniqueIDs (Dag.Nodes dagDiamond).
Proof. unfold uniqueIDs. vm_compute. repeat constructor; set_solver. Defined.

Lemma dagDiamond_edgesRegistered :
  edgesRegistered (Dag.Nodes dagDiamond) (Dag.Edges dagDiamond).
Proof.
  apply edgesRegistered_Forall. vm_compute. repeat constructor; set_solver.
Defined.

Lemma dagDiamond_acyclic : acyclic (Dag.Edges dagDiamond).
Proof.
  apply (acyclic_by_rank _ MoreExamples.rankDiamond). vm_compute.
  repeat constructor.
Defined.

(** X17: in package dag, when the callback of every node returns and
    [t.Run] skips no closure, on an acyclic graph whose edges join
    registered nodes and whose node identifiers are pairwise distinct,
    [RunTo] of a registered target returns; its trace is made of waves of
    node calls alone, the nodes called are exactly the registered nodes
    from which the target is reachable, none twice, and every dependency of
    a node of a wave completed in an earlier wave. *)
Theorem X17_Dag_RunTo_runs_the_closure_in_order
    {C F : Type} (fuel : nat) (ends : nat → nat → End) (d : Dag.Dag C F)
    (target : string) :
  (∀ pass slot, ends pass slot = Completes) →
  (length (Dag.Nodes d) < fuel)%nat →
  uniqueIDs (Dag.Nodes d) →
  edgesRegistered (Dag.Nodes d) (Dag.Edges d) →
  acyclic (Dag.Edges d) →
  registered (Dag.Nodes d) target →
  ∃ waves,
    Dag.RunTo fuel ends d target
    = Finished (Wave ∘ fmap (fun n => (n, [CallNode n])) <$> waves)
    ∧ NoDup (concat waves)
    ∧ (∀ n, n ∈ concat waves ↔
            n ∈ Dag.Nodes d ∧ reaches (Dag.Edges d) (ID n) target)
    ∧ wavesOrdered (Dag.Edges d) [] waves.
Proof.
  intros Hret Hfuel Huniq Hreg Hac Htarget.
  destruct (run_to_correct (Dag.Nodes d) (Dag.Edges d) target fuel
              Huniq Hreg Hac Htarget Hfuel)
    as (R & waves & HR & Hrun & Hnd & Hmem & Hord).
  destruct (collectDependencies_closure (Dag.Edges d) target)
    as (R' & HR' & HRiff).
  rewrite HR in HR'. injection HR' as <-.
  rewrite (Dag_RunTo_allComplete fuel ends d target Hret).
  apply findNode_is_Some in Htarget as [targetNode ->].
  rewrite HR, Hrun. exists waves. split_and!; [|done|done|].
  - f_equal. unfold wavesTrace, allComplete. rewrite <-list_fmap_compose.
    apply list_fmap_ext. intros _ wave _. cbn. f_equal.
    rewrite <-list_fmap_compose. by apply list_fmap_ext.
  - eapply wavesOrdered_weaken; [|exact Hord].
    intros n e Hn He Hr. apply Hmem in Hn as [_ Hreach].
    apply elem_of_eligibleEdges. split_and!; [done| |]; cbn [isRequired];
      apply HRiff.
    + eapply rtc_l; [|exact Hreach]. exists e. done.
    + by rewrite Hr.
Qed.

Lemma X17_witness_dagDiamond :
  ∃ waves,
    Dag.RunTo 5 (fun _ _ => Completes) dagDiamond "D"
    = Finished (Wave ∘ fmap (fun n => (n, [CallNode n])) <$> waves)
    ∧ NoDup (concat waves)
    ∧ (∀ n, n ∈ concat waves ↔
            n ∈ Dag.Nodes dagDiamond
            ∧ reaches (Dag.Edges dagDiamond) (ID n) "D")
    ∧ wavesOrdered (Dag.Edges dagDiamond) [] waves.
Proof.
  apply (X17_Dag_RunTo_runs_the_closure_in_order
           5 (fun _ _ => Completes) dagDiamond "D").
  - done.
  - vm_compute. lia.
  - exact dagDiamond_uniqueIDs.
  - exact dagDiamond_edgesRegistered.
  - exact dagDiamond_acyclic.
  - unfold registered. vm_compute. set_solver.
Defined.

Lemma X18_witness_dagDiamond :
  ∃ trace,
    Dag.RunTests 5 (fun _ _ => Completes) dagDiamond = Finished trace
    ∧ traceNodes trace ≡ₚ Dag.Nodes dagDiamond
    ∧ wavesOrdered (Dag.Edges dagDiamond) [] (traceWaves trace).
Proof.
  apply (X18_Dag_RunTests_each_node_once_after_its_dependencies
           5 (fun _ _ => Completes) dagDiamond).
  - done.
  - vm_compute. lia.
  - exact dagDiamond_uniqueIDs.
  - exact dagDiamond_edgesRegistered.
  - exact dagDiamond_acyclic.
Defined.

(** ** The runs return exactly on graphs without a cycle in reach *)

Lemma tc_eligible_inv {F : Type} (edges : list (TEdge F)) (R : gset string)
    (a b : string) :
  tc (edgeRel (eligibleEdges (Some R) edges)) a b →
  tc (edgeRel edges) a b ∧ a ∈ R.
Proof.
  induction 1 as [x y (e & He & <- & <-)|x y z (e & He & <- & <-) _ [IH _]];
    apply elem_of_eligibleEdges in He as (He & Hl & _); cbn [isRequired] in Hl.
  - split; [|done]. apply tc_once. by exists e.
  - split; [|done]. eapply tc_l; [|exact IH]. by exists e.
Qed.

Lemma RunTo_finishes {F : Type} (fuel : nat) (b : Behaviour)
    (d : Tdag.TDag F) (target : string) :
  allReturn b →
  (length (Tdag.Nodes d) < fuel)%nat →
  uniqueIDs (Tdag.Nodes d) →
  edgesRegistered (Tdag.Nodes d) (Tdag.Edges d) →
  registered (Tdag.Nodes d) target →
  (∀ v, reaches (Tdag.Edges d) v target → ¬ tc (edgeRel (Tdag.Edges d)) v v) →
  ∃ trace, Tdag.RunTo fuel b d target = Finished trace.
Proof.
  intros Hret Hfuel Huniq Hreg Htarget Hfree.
  rewrite (RunTo_allReturn fuel b d target Hret).
  set (nodes := Tdag.Nodes d) in *. set (edges := Tdag.Edges d) in *.
  destruct (collectDependencies_closure edges target) as (R & HR & HRiff).
  destruct (initState_ok (Some R) nodes edges) as [Hok Hc].
  destruct (idealLoop_correct (Some R) nodes (eligibleEdges (Some R) edges) Huniq)
    with (fuel := fuel) (st := initState (Some R) nodes edges)
         (done := @nil string)
    as (waves & Hrun & _); try done.
  - intros a [Ha HaR]%tc_eligible_inv. apply (Hfree a); [|done].
    by apply HRiff.
  - intros e (He & Hl & _)%elem_of_eligibleEdges. split; [|done]. by apply Hreg.
  - intros id Hid%HRiff. by eapply reaches_registered.
  - intros x. rewrite Hc. set_solver.
  - pose proof (incomplete_le nodes (initState (Some R) nodes edges)). lia.
  - unfold Tdag.findNodeByID. fold nodes.
    apply findNode_is_Some in Htarget as [targetNode ->].
    rewrite HR. cbv zeta. rewrite Hrun. by eexists.
Qed.

(** X19: when every call of the run returns and [t.Run] skips no
    closure, on a graph whose edges join registered nodes and whose node
    identifiers are pairwise distinct, [RunTests] returns exactly when the
    graph has no cycle, and [RunTo] of a registered target returns exactly
    when no node that reaches the target lies on a cycle: a cycle outside
    the closure of the target does not stop [RunTo]. *)
Theorem X19_runs_return_exactly_when_no_cycle_is_in_reach
    {F : Type} (fuel : nat) (b : Behaviour) (d : Tdag.TDag F)
    (target : string) :
  allReturn b →
  (length (Tdag.Nodes d) < fuel)%nat →
  uniqueIDs (Tdag.Nodes d) →
  edgesRegistered (Tdag.Nodes d) (Tdag.Edges d) →
  registered (Tdag.Nodes d) target →
  ((∃ trace, Tdag.RunTests fuel b d = Finished trace)
   ↔ acyclic (Tdag.Edges d))
  ∧ ((∃ trace, Tdag.RunTo fuel b d target = Finished trace)
     ↔ ∀ v, reaches (Tdag.Edges d) v target →
            ¬ tc (edgeRel (Tdag.Edges d)) v v).
Proof.
  intros Hret Hfuel Huniq Hreg Htarget. split; split.
  - intros [trace Hrun] a Hcyc.
    destruct (RunTests_cycle_fatal fuel b d a Hret Hfuel Huniq Hreg Hcyc)
      as (r & t & Hfatal & _).
    by rewrite Hfatal in Hrun.
  - intros Hac.
    destruct (run_all_correct (Tdag.Nodes d) (Tdag.Edges d) fuel
                Huniq Hreg Hac Hfuel)
      as (waves & Hrun & _).
    rewrite (RunTests_allReturn fuel b d Hret), Hrun. by eexists.
  - intros [trace Hrun] v Hreach Hcyc.
    destruct (RunTo_cycle_fatal fuel b d target v Hret Hfuel Huniq Htarget
                Hcyc Hreach)
      as (r & t & Hfatal & _).
    by rewrite Hfatal in Hrun.
  - by apply RunTo_finishes.
Qed.

Lemma X19_witness_sideCycle :
  ((∃ trace, Tdag.RunTests 5 returning sideCycle = Finished trace)
   ↔ acyclic (Tdag.Edges sideCycle))
  ∧ ((∃ trace, Tdag.RunTo 5 returning sideCycle "B" = Finished trace)
     ↔ ∀ v, reaches (Tdag.Edges sideCycle) v "B" →
            ¬ tc (edgeRel (Tdag.Edges sideCycle)) v v).
Proof.
  apply (X19_runs_return_exactly_when_no_cycle_is_in_reach
           5 returning sideCycle "B").
  - exact allReturn_returning.
  - vm_compute. lia.
  - unfold uniqueIDs. vm_compute. repeat constructor; set_solver.
  - apply edgesRegistered_Forall. vm_compute. repeat constructor; set_solver.
  - unfold registered. vm_compute. set_solver.
Defined.

(** X20: [createsCycle(from, to)] returns on every list of edges, and its
    answer is [true] exactly when [to] is reachable from [from] along the
    edges present, the case of one identifier for both included; with a nil
    argument the answer is [false]. *)
Theorem X20_createsCycle_decides_forward_reachability
    {F : Type} (edges : list (TEdge F)) (from to : TNode F) :
  (∃ b, createsCycle edges (Some from) (Some to) = Some b
        ∧ (b = true ↔ reaches edges (ID from) (ID to)))
  ∧ createsCycle edges None (Some to) = Some false
  ∧ createsCycle edges (Some from) None = Some false.
Proof.
  split_and!; [|done|done].
  exists (createsCycleB edges from to).
  split; [apply createsCycle_total|apply createsCycleB_iff_reaches].
Qed.

(** ** No node waits longer than its dependencies make it *)

Section Eager.
Context {F : Type}.
Implicit Types (nodes : list (TNode F)) (E : list (TEdge F)) (st : RunState F).

Lemma availableNodes_fresh required nodes st :
  uniqueIDs nodes →
  NoDup (ID <$> availableNodes required nodes st)
  ∧ ∀ n, n ∈ availableNodes required nodes st → ID n ∉ completed st.
Proof.
  intros Huniq. split.
  - unfold availableNodes. by apply NoDup_fmap_filter.
  - by intros n (_ & _ & Hn & _)%elem_of_availableNodes.
Qed.

(** A node of the wave after [st] that was not available at [st] had a
    dependency in the wave run at [st]. *)
Lemma next_wave_has_new_dependency required nodes E st n :
  uniqueIDs nodes → booksOK E st →
  n ∈ availableNodes required nodes
        (foldl finishNode st (availableNodes required nodes st)) →
  ∃ e, e ∈ E ∧ ID (Right e) = ID n
       ∧ ID (Left e) ∈ ID <$> availableNodes required nodes st.
Proof.
  intros Huniq Hok Hn.
  destruct (availableNodes_fresh required nodes st Huniq) as [Hnd Hfresh].
  pose proof (wave_ok E _ st Hok Hnd Hfresh) as [HZ' _].
  destruct Hok as [HZ _].
  apply elem_of_availableNodes in Hn as (Hin & Hreq & Hnc & Hzero).
  rewrite wave_completed in Hnc, HZ'.
  assert (ID n ∉ completed st) as Hnc0 by set_solver.
  assert (getZ (inDegree st) (ID n) ≠ 0) as Hpos.
  { intros Hz. apply Hnc. apply elem_of_union_l, elem_of_list_to_set.
    apply list_elem_of_fmap_2. by apply elem_of_availableNodes. }
  rewrite HZ in Hpos. rewrite HZ' in Hzero.
  destruct (pending_pos E (completed st) (ID n)) as (e & He & Hr & Hl); [lia|].
  exists e. split_and!; [done|done|].
  assert (ID (Left e)
          ∈ list_to_set (ID <$> availableNodes required nodes st)
            ∪ completed st) as Hdone.
  { eapply pending_zero; [|done|done]. lia. }
  apply elem_of_union in Hdone as [Hdone|Hdone]; [|done].
  by apply elem_of_list_to_set in Hdone.
Qed.

Lemma idealLoop_eager required nodes E :
  uniqueIDs nodes →
  ∀ fuel st, booksOK E st →
    ∀ (i : nat) prev wave n,
      (idealLoop fuel required nodes st).2 !! i = Some prev →
      (idealLoop fuel required nodes st).2 !! S i = Some wave →
      n ∈ wave →
      ∃ e, e ∈ E ∧ ID (Right e) = ID n ∧ ID (Left e) ∈ ID <$> prev.
Proof.
  intros Huniq. induction fuel as [|fuel IH]; intros st Hok i prev wave n.
  { cbn. by rewrite lookup_nil. }
  rewrite idealLoop_step.
  destruct (availableNodes required nodes st) as [|a av] eqn:Hav.
  { destruct (remainingIDs required nodes st); cbn; by rewrite lookup_nil. }
  cbn [snd]. rewrite <-Hav.
  destruct (availableNodes_fresh required nodes st Huniq) as [Hnd Hfresh].
  pose proof (wave_ok E _ st Hok Hnd Hfresh) as Hok'.
  destruct i as [|i]; cbn [lookup list_lookup].
  - intros [= <-] Hwave Hn.
    apply (next_wave_has_new_dependency required nodes E st n Huniq Hok).
    destruct fuel as [|fuel]; [by cbn in Hwave|].
    rewrite idealLoop_step in Hwave.
    destruct (availableNodes required nodes
                (foldl finishNode st (availableNodes required nodes st)))
      as [|b bv].
    + by destruct (remainingIDs required nodes _); cbn in Hwave.
    + cbn in Hwave. by injection Hwave as <-.
  - by apply IH.
Qed.

End Eager.

(** X21: when every call of the run returns and [t.Run] skips no
    closure, in every run of [RunTests] or [RunTo] on a graph with pairwise
    distinct identifiers, however the run ends, a node of a wave after the
    first has a dependency among the nodes of the wave just before: every
    node runs in the first wave after its last dependency completed. *)
Theorem X21_no_node_waits_longer_than_its_dependencies
    {F : Type} (fuel : nat) (b : Behaviour) (d : Tdag.TDag F) (id : string)
    (waves : list (list (TNode F))) (i : nat)
    (prev wave : list (TNode F)) (n : TNode F) :
  allReturn b →
  uniqueIDs (Tdag.Nodes d) →
  waves = traceWaves (outcomeTrace (Tdag.RunTests fuel b d))
  ∨ waves = traceWaves (outcomeTrace (Tdag.RunTo fuel b d id)) →
  waves !! i = Some prev →
  waves !! S i = Some wave →
  n ∈ wave →
  ∃ e, e ∈ Tdag.Edges d ∧ ID (Right e) = ID n ∧ ID (Left e) ∈ ID <$> prev.
Proof.
  intros Hret Huniq [-> | ->] Hprev Hwave Hn.
  - rewrite (RunTests_waves fuel b d Hret) in Hprev, Hwave.
    destruct (initState_ok None (Tdag.Nodes d) (Tdag.Edges d)) as [Hok _].
    rewrite eligibleEdges_all in Hok.
    by eapply (idealLoop_eager None (Tdag.Nodes d) (Tdag.Edges d) Huniq).
  - destruct (RunTo_waves fuel b d id Hret) as [Hnil|[R HR]].
    { rewrite Hnil in Hprev. by rewrite lookup_nil in Hprev. }
    rewrite HR in Hprev, Hwave.
    destruct (initState_ok (Some R) (Tdag.Nodes d) (Tdag.Edges d)) as [Hok _].
    destruct (idealLoop_eager (Some R) (Tdag.Nodes d) _ Huniq _ _ Hok
                i prev wave n Hprev Hwave Hn) as (e & He & Hr & Hl).
    exists e. split_and!; [|done|done].
    by apply elem_of_eligibleEdges in He as [He _].
Qed.

Lemma X21_witness_diamond :
  ∃ e, e ∈ Tdag.Edges MoreExamples.diamond
       ∧ ID (Right e) = ID (mkTNode "D" "fnD")
       ∧ ID (Left e) ∈ ID <$> [mkTNode "B" "fnB"; mkTNode "C" "fnC"].
Proof.
  apply (X21_no_node_waits_longer_than_its_dependencies
           5 returning MoreExamples.diamond "D"
           [[mkTNode "A" "fnA"];
            [mkTNode "B" "fnB"; mkTNode "C" "fnC"];
            [mkTNode "D" "fnD"]]
           1%nat
           [mkTNode "B" "fnB"; mkTNode "C" "fnC"]
           [mkTNode "D" "fnD"]
           (mkTNode "D" "fnD")).
  - exact allReturn_returning.
  - unfold uniqueIDs. vm_compute. repeat constructor; set_solver.
  - left. vm_compute. reflexivity.
  - reflexivity.
  - reflexivity.
  - apply list_elem_of_here.
Defined.

(** ** Nodes that share an identifier *)

Section SharedIdentifiers.
Context {F : Type}.
Implicit Types (nodes : list (TNode F)) (st : RunState F).

Lemma idealLoop_ids required nodes :
  ∀ fuel st (i : nat) wave n,
    (idealLoop fuel required nodes st).2 !! i = Some wave → n ∈ wave →
    (ID n ∉ completed st)
    ∧ (∀ m, m ∈ nodes → ID m = ID n → m ∈ wave)
    ∧ (∀ (j : nat) wave' m,
          (idealLoop fuel required nodes st).2 !! j = Some wave' →
          m ∈ wave' → ID m = ID n → j = i).
Proof.
  induction fuel as [|fuel IH]; intros st i wave n.
  { cbn. by rewrite lookup_nil. }
  rewrite idealLoop_step.
  destruct (availableNodes required nodes st) as [|a av] eqn:Hav.
  { destruct (remainingIDs required nodes st); cbn; by rewrite lookup_nil. }
  cbn [snd]. rewrite <-Hav.
  set (st' := foldl finishNode st (availableNodes required nodes st)).
  assert (∀ x, x ∈ availableNodes required nodes st → ID x ∈ completed st')
    as Hdone.
  { intros x Hx. unfold st'. rewrite wave_completed.
    apply elem_of_union_l, elem_of_list_to_set. by apply list_elem_of_fmap_2. }
  assert (completed st ⊆ completed st') as Hsub.
  { unfold st'. rewrite wave_completed. set_solver. }
  destruct i as [|i]; cbn [lookup list_lookup].
  - intros [= <-] Hn.
    pose proof Hn as (Hin & Hreq & Hnc & Hzero)%elem_of_availableNodes.
    split_and!; [done| |].
    + intros m Hm Heq. apply elem_of_availableNodes. by rewrite Heq.
    + intros [|j] wave' m; cbn [lookup list_lookup]; [done|].
      intros Hj Hm Heq. destruct (IH st' j wave' m Hj Hm) as (Hfresh & _).
      destruct Hfresh. rewrite Heq. by apply Hdone.
  - intros Hi Hn. destruct (IH st' i wave n Hi Hn) as (Hfresh & Hsame & Huniq).
    split_and!; [set_solver|done|].
    intros [|j] wave' m; cbn [lookup list_lookup].
    + intros [= <-] Hm Heq. destruct Hfresh. rewrite <-Heq. by apply Hdone.
    + intros Hj Hm Heq. f_equal. by eapply Huniq.
Qed.

End SharedIdentifiers.

(** X22: the scheduler tells nodes apart by identifier only.  When every
    call of the run returns and [t.Run] skips no closure, in every run of
    [RunTests] or [RunTo], on any graph, the nodes that bear the identifier
    of a node of a wave are all in that wave, and no node bearing it is in
    any other wave. *)
Theorem X22_nodes_sharing_an_identifier_run_in_one_wave
    {F : Type} (fuel : nat) (b : Behaviour) (d : Tdag.TDag F) (id : string)
    (waves : list (list (TNode F))) (i : nat)
    (wave : list (TNode F)) (n : TNode F) :
  allReturn b →
  waves = traceWaves (outcomeTrace (Tdag.RunTests fuel b d))
  ∨ waves = traceWaves (outcomeTrace (Tdag.RunTo fuel b d id)) →
  waves !! i = Some wave →
  n ∈ wave →
  (∀ m, m ∈ Tdag.Nodes d → ID m = ID n → m ∈ wave)
  ∧ (∀ (j : nat) wave' m,
        waves !! j = Some wave' → m ∈ wave' → ID m = ID n → j = i).
Proof.
  intros Hret [-> | ->] Hi Hn.
  - rewrite (RunTests_waves fuel b d Hret) in Hi |- *.
    by destruct (idealLoop_ids _ _ _ _ _ _ _ Hi Hn) as (_ & ? & ?).
  - destruct (RunTo_waves fuel b d id Hret) as [Hnil|[R HR]].
    { rewrite Hnil in Hi. by rewrite lookup_nil in Hi. }
    rewrite HR in Hi |- *.
    by destruct (idealLoop_ids _ _ _ _ _ _ _ Hi Hn) as (_ & ? & ?).
Qed.

Lemma X22_witness_twins :
  (∀ m, m ∈ Tdag.Nodes Examples.twins → ID m = ID (mkTNode "A" "fnA1") →
        m ∈ [mkTNode "A" "fnA1"; mkTNode "A" "fnA2"])
  ∧ (∀ (j : nat) wave' m,
        [[mkTNode "A" "fnA1"; mkTNode "A" "fnA2"]] !! j = Some wave' →
        m ∈ wave' → ID m = ID (mkTNode "A" "fnA1") → j = 0%nat).
Proof.
  apply (X22_nodes_sharing_an_identifier_run_in_one_wave
           4 returning Examples.twins "B"
           [[mkTNode "A" "fnA1"; mkTNode "A" "fnA2"]] 0%nat
           [mkTNode "A" "fnA1"; mkTNode "A" "fnA2"] (mkTNode "A" "fnA1")).
  - exact allReturn_returning.
  - left. vm_compute. reflexivity.
  - reflexivity.
  - apply list_elem_of_here.
Defined.

(** ** Closures that do not reach the bookkeeping *)

Section Stuck.
Context {F : Type}.
Implicit Types (nodes : list (TNode F)) (st : RunState F).

Lemma finished_none (g : nat → TNode F → TNode F * End) (l : list (TNode F)) :
  (∀ i n, completes (g i n).2 = false) →
  filter (fun x : TNode F * End => completes x.2 = true) (imap g l) = [].
Proof.
  revert g. induction l as [|n l IH]; intros g Hg; [done|].
  rewrite imap_cons, filter_cons, decide_False by (by rewrite Hg).
  apply IH. intros i m. apply Hg.
Qed.

(** When no closure completes, the maps stay as they are and every pass
    starts the same nodes again. *)
Lemma runLoop_stuck (ends : nat → nat → End) required nodes st :
  (∀ pass slot, completes (ends pass slot) = false) →
  availableNodes required nodes st ≠ [] →
  ∀ fuel pass,
    (runLoop ends fuel pass required nodes st).1 = LoopNoFuel
    ∧ (fun wave : list (TNode F * End) => wave.*1)
        <$> (runLoop ends fuel pass required nodes st).2
      = replicate fuel (availableNodes required nodes st).
Proof.
  intros Hends Hav. induction fuel as [|fuel IH]; intros pass; [done|].
  rewrite runLoop_step.
  destruct (availableNodes required nodes st) as [|a av] eqn:Heq; [done|].
  cbv zeta.
  assert (finished (startWave ends pass (a :: av)) = []) as ->.
  { unfold finished, startWave.
    by rewrite finished_none by (intros; apply Hends). }
  cbn [foldl]. destruct (IH (S pass)) as [H1 H2].
  cbn [fst snd replicate]. split; [done|].
  by rewrite fmap_cons, H2, startWave_nodes.
Qed.

End Stuck.

(** X23: when no closure of any pass reaches the section under
    [completedMux] (the first call that leaves does so by [t.FailNow], or
    [t.Run] skips the closure) and some node has no dependencies,
    [RunTests] never leaves its loop: whatever the number of passes, it
    starts the nodes without dependencies again in each of them, and calls
    no teardown function. *)
Theorem X23_RunTests_never_ends_when_no_closure_completes
    {F : Type} (fuel : nat) (b : Behaviour) (d : Tdag.TDag F) :
  (∀ pass slot, completes (closureEnds b pass slot) = false) →
  roots (Tdag.Nodes d) (Tdag.Edges d) ≠ [] →
  ∃ trace,
    Tdag.RunTests fuel b d = OutOfFuel trace
    ∧ traceWaves trace = replicate fuel (roots (Tdag.Nodes d) (Tdag.Edges d))
    ∧ tearDownCalls trace = [].
Proof.
  intros Hends Hroots.
  pose proof (RunTests_waves_of_loop fuel b d) as Hwaves.
  destruct (runLoop_stuck (closureEnds b) None (Tdag.Nodes d)
              (initState None (Tdag.Nodes d) (Tdag.Edges d)) Hends)
    with (fuel := fuel) (pass := 0%nat) as [Hend Hrep].
  { by rewrite first_wave_roots. }
  rewrite first_wave_roots in Hrep. rewrite Hrep in Hwaves.
  unfold Tdag.RunTests in *.
  destruct (runLoop _ _ _ _ _ _) as [e waves]. cbn [fst] in Hend. subst e.
  eexists. split_and!; [done|done|apply tearDownCalls_waves].
Qed.

Lemma X23_witness_hooked :
  ∃ trace,
    Tdag.RunTests 3 leavingFirst Examples.hooked = OutOfFuel trace
    ∧ traceWaves trace
      = replicate 3 (roots (Tdag.Nodes Examples.hooked)
                       (Tdag.Edges Examples.hooked))
    ∧ tearDownCalls trace = [].
Proof.
  apply (X23_RunTests_never_ends_when_no_closure_completes
           3 leavingFirst Examples.hooked).
  - done.
  - vm_compute. done.
Defined.

(** ** A node whose closure left is started again *)

Section Retry.
Context {F : Type}.
Implicit Types (nodes : list (TNode F)) (E : list (TEdge F)) (st : RunState F).

Lemma elem_of_finished (wave : list (TNode F * End)) n :
  n ∈ finished wave ↔ ∃ e, (n, e) ∈ wave ∧ completes e = true.
Proof.
  unfold finished. rewrite list_elem_of_fmap. split.
  - intros ([m e] & -> & [He Hin]%list_elem_of_filter). by exists e.
  - intros (e & Hin & He). exists (n, e). split; [done|].
    by apply list_elem_of_filter.
Qed.

Lemma elem_of_startWave (ends : nat → nat → End) pass (l : list (TNode F)) n e :
  (n, e) ∈ startWave ends pass l ↔
  ∃ slot, l !! slot = Some n ∧ e = ends pass slot.
Proof. unfold startWave. rewrite elem_of_lookup_imap. naive_solver. Qed.

Lemma finished_available (ends : nat → nat → End) pass (l : list (TNode F)) n :
  n ∈ finished (startWave ends pass l) → n ∈ l.
Proof.
  intros (e & (slot & Hslot & _)%elem_of_startWave & _)%elem_of_finished.
  by eapply list_elem_of_lookup_2.
Qed.

Lemma finished_NoDup (wave : list (TNode F * End)) :
  NoDup (ID <$> wave.*1) → NoDup (ID <$> finished wave).
Proof.
  unfold finished. induction wave as [|[n e] wave IH]; [done|].
  rewrite !fmap_cons, NoDup_cons. cbn [fst]. intros [Hn Hnd].
  rewrite filter_cons. destruct (decide _); [|by apply IH].
  rewrite !fmap_cons. cbn [fst]. apply NoDup_cons. split; [|by apply IH].
  intros (m & Heq & ([m' e'] & -> & [_ Hin]%list_elem_of_filter)%list_elem_of_fmap)
    %list_elem_of_fmap.
  apply Hn. rewrite Heq. apply list_elem_of_fmap_2.
  by apply (list_elem_of_fmap_2 fst) in Hin.
Qed.

Lemma pending_mono E (done done' : gset string) v :
  done ⊆ done' → (pending E done' v ≤ pending E done v)%nat.
Proof.
  intros Hsub. unfold pending. apply filter_length_mono.
  intros e _ [Hr Hl]. split; [done|]. set_solver.
Qed.

(** A pass, from maps that agree with the edges: the maps after it agree
    too, and a node whose closure did not reach the bookkeeping is
    available to the next scan. *)
Lemma pass_retry (ends : nat → nat → End) pass required nodes E st :
  uniqueIDs nodes → booksOK E st →
  let available := availableNodes required nodes st in
  let st' := foldl finishNode st (finished (startWave ends pass available)) in
  booksOK E st'
  ∧ ∀ slot n, available !! slot = Some n →
              completes (ends pass slot) = false →
              n ∈ availableNodes required nodes st'.
Proof.
  intros Huniq Hok available st'.
  destruct (availableNodes_fresh required nodes st Huniq) as [Hnd Hfresh].
  fold available in Hnd, Hfresh.
  assert (booksOK E st') as Hok'.
  { apply wave_ok; [done| |].
    - apply finished_NoDup. by rewrite startWave_nodes.
    - intros m Hm%finished_available. by apply Hfresh. }
  split; [done|]. intros slot n Hslot Hleft.
  assert (n ∈ available) as Hn by (by eapply list_elem_of_lookup_2).
  pose proof Hn as (Hin & Hreq & Hnc & Hzero)%elem_of_availableNodes.
  apply elem_of_availableNodes. split_and!; [done|done| |].
  - unfold st'. rewrite wave_completed.
    intros [Hfin|Hdone]%elem_of_union; [|done].
    apply elem_of_list_to_set, list_elem_of_fmap in Hfin as (m & Heq & Hm).
    assert (m = n) as ->.
    { apply (uniqueIDs_inj nodes); [done| |done|done].
      apply finished_available in Hm.
      by apply elem_of_availableNodes in Hm as (? & _). }
    apply elem_of_finished in Hm as (e & (slot' & Hslot' & ->)%elem_of_startWave & He).
    assert (slot' = slot) as ->.
    { eapply NoDup_lookup; [|done|done]. by eapply NoDup_fmap_1. }
    by rewrite Hleft in He.
  - destruct Hok as [HZ _]. destruct Hok' as [HZ' _].
    rewrite HZ in Hzero. rewrite HZ'.
    assert (pending E (completed st') (ID n) ≤ pending E (completed st) (ID n))%nat.
    { apply pending_mono. unfold st'. rewrite wave_completed. set_solver. }
    lia.
Qed.

Lemma runLoop_retry (ends : nat → nat → End) required nodes E :
  uniqueIDs nodes →
  ∀ fuel pass st, booksOK E st →
    ∀ (i slot : nat) wave n,
      ((fun w : list (TNode F * End) => w.*1)
         <$> (runLoop ends fuel pass required nodes st).2) !! i = Some wave →
      wave !! slot = Some n →
      completes (ends (pass + i)%nat slot) = false →
      (S i < fuel)%nat →
      ∃ wave',
        ((fun w : list (TNode F * End) => w.*1)
           <$> (runLoop ends fuel pass required nodes st).2) !! S i = Some wave'
        ∧ n ∈ wave'.
Proof.
  intros Huniq. induction fuel as [|fuel IH]; intros pass st Hok i slot wave n;
    [lia|].
  rewrite runLoop_step.
  destruct (availableNodes required nodes st) as [|a av] eqn:Hav.
  { destruct (remainingIDs required nodes st); cbn; by rewrite lookup_nil. }
  destruct (pass_retry ends pass required nodes E st Huniq Hok) as [Hok' Hagain].
  rewrite Hav in Hok', Hagain. cbv zeta in *. cbn [snd]. rewrite fmap_cons.
  set (st' := foldl finishNode st (finished (startWave ends pass (a :: av)))) in *.
  destruct i as [|i]; cbn [lookup list_lookup].
  - rewrite startWave_nodes, Nat.add_0_r. intros [= <-] Hslot Hleft Hfuel.
    pose proof (Hagain slot n Hslot Hleft) as Hn.
    destruct fuel as [|fuel]; [lia|]. rewrite runLoop_step.
    destruct (availableNodes required nodes st') as [|a' av'];
      [by apply elem_of_nil in Hn|].
    cbv zeta. cbn [snd]. rewrite fmap_cons. cbn [lookup list_lookup].
    rewrite startWave_nodes. by eexists.
  - intros Hi Hslot Hleft Hfuel.
    apply (IH (S pass) st' Hok' i slot wave n Hi Hslot); [|lia].
    by replace (S pass + i)%nat with (pass + S i)%nat by lia.
Qed.

Lemma RunTo_waves_of_loop fuel b (d : Tdag.TDag F) (id : string) :
  traceWaves (outcomeTrace (Tdag.RunTo fuel b d id)) = []
  ∨ ∃ R, traceWaves (outcomeTrace (Tdag.RunTo fuel b d id))
         = (fun wave : list (TNode F * End) => wave.*1)
             <$> (runLoop (closureEnds b) fuel 0 (Some R) (Tdag.Nodes d)
                    (initState (Some R) (Tdag.Nodes d) (Tdag.Edges d))).2.
Proof.
  unfold Tdag.RunTo.
  destruct (Tdag.findNodeByID d id) as [targetNode|]; [|by left].
  destruct (collectDependencies _ _ _ _) as [R|]; [|by left].
  destruct (hookCalls_seq CallSetup (Tdag.SetupFns d) (setupLeaves b))
    as [setup ->].
  destruct (hookCalls_seq CallTearDown (Tdag.TearDownFns d) (tearDownLeaves b))
    as [teardown ->].
  destruct (hookLeft (Tdag.SetupFns d) _).
  { left. cbn [outcomeTrace]. apply traceWaves_seq. }
  right. exists R. unfold Tdag.waveSteps.
  destruct (runLoop _ _ _ _ _ _) as [[|remaining|] waves]; cbn [snd].
  - destruct (hookLeft _ _); cbn [outcomeTrace];
      by rewrite !traceWaves_app, !traceWaves_seq, app_nil_r, traceWaves_tagged.
  - cbn [outcomeTrace]. by rewrite traceWaves_app, traceWaves_seq, traceWaves_tagged.
  - cbn [outcomeTrace]. by rewrite traceWaves_app, traceWaves_seq, traceWaves_tagged.
Qed.

End Retry.

(** X24: on a graph with pairwise distinct identifiers, a node whose
    closure did not reach the section under [completedMux] (a call of it
    left, or [t.Run] skipped it) is not marked completed: as long as the
    loop goes on, the next pass starts a goroutine for it again. *)
Theorem X24_a_node_whose_closure_left_is_started_again
    {F : Type} (fuel : nat) (b : Behaviour) (d : Tdag.TDag F) (id : string)
    (waves : list (list (TNode F))) (i slot : nat)
    (wave : list (TNode F)) (n : TNode F) :
  uniqueIDs (Tdag.Nodes d) →
  waves = traceWaves (outcomeTrace (Tdag.RunTests fuel b d))
  ∨ waves = traceWaves (outcomeTrace (Tdag.RunTo fuel b d id)) →
  waves !! i = Some wave →
  wave !! slot = Some n →
  completes (closureEnds b i slot) = false →
  (S i < fuel)%nat →
  ∃ wave', waves !! S i = Some wave' ∧ n ∈ wave'.
Proof.
  intros Huniq [-> | ->] Hi Hslot Hleft Hfuel.
  - rewrite RunTests_waves_of_loop in Hi |- *.
    destruct (initState_ok None (Tdag.Nodes d) (Tdag.Edges d)) as [Hok _].
    by eapply (runLoop_retry (closureEnds b) None (Tdag.Nodes d) _ Huniq
                 fuel 0%nat _ Hok i slot).
  - destruct (RunTo_waves_of_loop fuel b d id) as [Hnil|[R HR]].
    { rewrite Hnil in Hi. by rewrite lookup_nil in Hi. }
    rewrite HR in Hi |- *.
    destruct (initState_ok (Some R) (Tdag.Nodes d) (Tdag.Edges d)) as [Hok _].
    by eapply (runLoop_retry (closureEnds b) (Some R) (Tdag.Nodes d) _ Huniq
                 fuel 0%nat _ Hok i slot).
Qed.

Lemma X24_witness_hooked :
  ∃ wave',
    [[mkTNode "A" "fnA"]; [mkTNode "A" "fnA"]; [mkTNode "A" "fnA"]] !! 1%nat
    = Some wave'
    ∧ mkTNode "A" "fnA" ∈ wave'.
Proof.
  apply (X24_a_node_whose_closure_left_is_started_again
           3 leavingFirst Examples.hooked "A"
           [[mkTNode "A" "fnA"]; [mkTNode "A" "fnA"]; [mkTNode "A" "fnA"]]
           0%nat 0%nat [mkTNode "A" "fnA"] (mkTNode "A" "fnA")).
  - unfold uniqueIDs. vm_compute. repeat constructor; set_solver.
  - left. vm_compute. reflexivity.
  - reflexivity.
  - reflexivity.
  - reflexivity.
  - lia.
Defined.
